(** * audio-looper: loop-point optimizer, crossfade synthesizer and PCM encoder

    A shallow embedding of [src/utils/audioProcessing.ts], of the crossfade
    module ([applyCrossfade], [createExtendedLoop] and their helpers) and of
    [src/utils/exportAudio.ts], followed by the properties established about
    them.  The preview encoder of [src/components/WaveformViewer.tsx] and the
    export handler of the export panel, which call them, are embedded as
    well.

    Conventions of the embedding.
    - A JavaScript number that carries a sample value, a time in seconds or a
      score is a primitive binary64 [float]; arithmetic, comparisons and
      [Math.sqrt] are the IEEE 754 operations of [PrimFloat], so NaN and the
      infinities behave as they do in the source.
    - A JavaScript number that carries a sample index, a window size or a count
      is an integer of [Z] (the source only ever adds, subtracts, compares and
      floors them; they are exact below 2^53).  [Number_ofZ] converts an index
      to the float it denotes where the source mixes the two.
    - A [Float32Array] is a [list float]; reading outside the array yields
      [undefined], which every use in the source turns into NaN, and writing
      outside the array is ignored.
    - [Math.sin] and [Math.cos] are implementation-approximated in ECMAScript;
      they are parameters of the crossfade module. *)

From Stdlib Require Import Ascii String DecimalString.
From Stdlib Require Import ZArith List Bool Lia Floats.
Import ListNotations.

#[local] Set Warnings "-inexact-float".

Local Open Scope Z_scope.

(* ================================================================== *)
(** * JavaScript numbers *)
(* ================================================================== *)

Module JS.

Definition NaN : float := nan.
Definition Infinity : float := infinity.

(** The number denoted by an integer (round to nearest even, as a binary64
    literal or the result of integer arithmetic would be). *)
Definition Number_ofZ (z : Z) : float :=
  SF2Prim (binary_normalize prec emax z 0 false).

(** The signed mantissa of a finite float. *)
Definition signed (s : bool) (m : positive) : Z :=
  if s then Z.neg m else Z.pos m.

(** [Math.floor] read back as an integer.  The source uses the result as a
    loop bound or an index: for NaN and -Infinity every loop [i < bound]
    runs zero times, which is what the bound [0] gives; +Infinity would make
    the source loop forever and is outside the embedding. *)
Definition floorZ (x : float) : Z :=
  match Prim2SF x with
  | S754_finite s m e => Z.shiftl (signed s m) e
  | _ => 0
  end.

(** Truncation toward zero (the integer part used by ToInt16/ToUint32);
    NaN, the zeros and the infinities give 0. *)
Definition truncZ (x : float) : Z :=
  match Prim2SF x with
  | S754_finite s m e =>
      if s then - Z.shiftl (Z.pos m) e else Z.shiftl (Z.pos m) e
  | _ => 0
  end.

(** ToInt16 and ToUint32 of ECMAScript. *)
Definition ToInt16 (x : float) : Z :=
  let k := truncZ x mod 65536 in
  if k >=? 32768 then k - 65536 else k.

Definition ToUint32 (x : float) : Z := truncZ x mod 4294967296.

(** [Math.fround]: rounding to binary32, applied by every store into a
    [Float32Array]. *)
Definition fround (x : float) : float :=
  match Prim2SF x with
  | S754_finite s m e =>
      SF2Prim (binary_normalize 24 128 (signed s m) e s)
  | _ => x
  end.

(** [Math.max] and [Math.min] on two numbers: NaN is contagious and -0 is
    below +0. *)
Definition Math_max (a b : float) : float :=
  if is_nan a || is_nan b then nan
  else if (a <? b)%float then b
  else if (b <? a)%float then a
  else if get_sign a then b else a.

Definition Math_min (a b : float) : float :=
  if is_nan a || is_nan b then nan
  else if (a <? b)%float then a
  else if (b <? a)%float then b
  else if get_sign a then a else b.

Definition Math_abs (x : float) : float := abs x.
Definition Math_sqrt (x : float) : float := sqrt x.
Definition Math_PI : float := 3.141592653589793%float.

(** A [Float32Array] and its element read. *)
Definition Float32Array := list float.

Definition len (a : Float32Array) : Z := Z.of_nat (length a).

Definition get (a : Float32Array) (i : Z) : float :=
  if i <? 0 then NaN else nth (Z.to_nat i) a NaN.

(** An element write: rounded to binary32, ignored outside the array. *)
Fixpoint set_nth (n : nat) (v : float) (a : Float32Array) : Float32Array :=
  match a, n with
  | [], _ => []
  | _ :: t, O => v :: t
  | h :: t, S n' => h :: set_nth n' v t
  end.

Definition set (a : Float32Array) (i : Z) (v : float) : Float32Array :=
  if i <? 0 then a else set_nth (Z.to_nat i) (fround v) a.

(** [for (let i = lo; i < hi; i += step) s = body i s], with [n] the number
    of iterations. *)
Fixpoint iterate {St : Type} (n : nat) (i step : Z) (body : Z -> St -> St)
         (s : St) : St :=
  match n with
  | O => s
  | S n' => iterate n' (i + step) step body (body i s)
  end.

Definition trips (lo hi step : Z) : nat :=
  Z.to_nat ((hi - lo + step - 1) / step).

Definition for_step {St : Type} (lo hi step : Z) (body : Z -> St -> St)
           (s : St) : St :=
  iterate (trips lo hi step) lo step body s.

Definition for_range {St : Type} (lo hi : Z) (body : Z -> St -> St)
           (s : St) : St :=
  for_step lo hi 1 body s.

(** The outcome of a call: a normal completion with the returned value, or a
    throw completion. *)
Inductive completion (A : Type) : Type :=
| Normal (value : A)
| Throw (message : string).
Arguments Normal {A} value.
Arguments Throw {A} message.

End JS.

(* ================================================================== *)
(** * types/audio.types.ts *)
(* ================================================================== *)

Module Types.

(** [end] is a keyword: the field is [end_]. *)
Record LoopPoints := { start : float; end_ : float }.

(** [OptimizedLoopPoints extends LoopPoints]: the inherited fields are
    [base]. *)
Record OptimizedLoopPoints := {
  base : LoopPoints;
  startSample : Z;
  endSample : Z;
  crossfadeDuration : float
}.

End Types.

(* ================================================================== *)
(** * src/utils/audioProcessing.ts *)
(* ================================================================== *)

Module AudioProcessing.
Import JS Types.

(** The part of a Web Audio [AudioBuffer] that the optimizer and the encoder
    read: every channel array has [bufferLength] samples. *)
Record AudioBuffer := {
  sampleRate : float;
  bufferLength : Z;
  channels : list Float32Array
}.

Definition numberOfChannels (b : AudioBuffer) : Z :=
  Z.of_nat (length (channels b)).

Definition duration (b : AudioBuffer) : float :=
  (Number_ofZ (bufferLength b) / sampleRate b)%float.

(** [getChannelData] throws an IndexSizeError for a channel that does not
    exist. *)
Definition getChannelData (b : AudioBuffer) (channel : nat)
  : completion Float32Array :=
  match nth_error (channels b) channel with
  | Some data => Normal data
  | None => Throw "IndexSizeError"%string
  end.

Definition EPSILON : float := 1e-6%float.

(** [clamp] is used by the source on sample values and on indices alike. *)
Definition clamp (value min max : float) : float :=
  Math_max min (Math_min max value).

Definition clampZ (value min max : Z) : Z :=
  Z.max min (Z.min max value).

Definition averageAbsoluteDerivative (audioData : Float32Array)
           (startSample windowSize : Z) : float :=
  let end_ := Z.min (startSample + windowSize) (len audioData - 1) in
  let sum :=
    for_range startSample end_
      (fun i sum =>
         (sum + Math_abs (get audioData (i + 1) - get audioData i))%float)
      0%float in
  (sum / Number_ofZ (Z.max 1 (end_ - startSample)))%float.

Definition calculateRMS (audioData : Float32Array)
           (startSample windowSize : Z) : float :=
  let end_ := Z.min (startSample + windowSize) (len audioData) in
  let sum :=
    for_range startSample end_
      (fun i sum => (sum + get audioData i * get audioData i)%float)
      0%float in
  Math_sqrt (sum / Number_ofZ (end_ - startSample))%float.

(** Default window of [calculateRMS]. *)
Definition calculateRMS_default (audioData : Float32Array) (startSample : Z) :=
  calculateRMS audioData startSample 2048.

(** The sign-change test of [findNearestZeroCrossing]. *)
Definition isCrossing (current next : float) : bool :=
  ((current <=? 0)%float && (0 <=? next)%float)
  || ((0 <=? current)%float && (next <=? 0)%float).

(** The weighted score of the crossing at [i]. *)
Definition crossingScore (audioData : Float32Array)
           (targetSample searchRadius referenceWindow : Z)
           (referenceRMS referenceSlope : float) (i : Z) : float :=
  let current := get audioData i in
  let next := get audioData (i + 1) in
  let crossingValue := (Math_abs current + Math_abs next)%float in
  let distanceFromTarget := Number_ofZ (Z.abs (i - targetSample)) in
  let slope := (next - current)%float in
  let slopeDiff := Math_abs (slope - referenceSlope)%float in
  let localRMS :=
    calculateRMS audioData
      (clampZ (i - referenceWindow / 2) 0 (len audioData - referenceWindow))
      referenceWindow in
  let rmsDiff :=
    (Math_abs (referenceRMS - localRMS) / (referenceRMS + EPSILON))%float in
  (crossingValue * 0.35
   + (distanceFromTarget / (Number_ofZ searchRadius + EPSILON)) * 0.25
   + clamp rmsDiff 0 2 * 0.25
   + slopeDiff * 0.15)%float.

(** One iteration of the scan; the state is [(bestSample, bestScore)]. *)
Definition zeroCrossingStep (audioData : Float32Array)
           (score : Z -> float) (i : Z) (best : Z * float) : Z * float :=
  if isCrossing (get audioData i) (get audioData (i + 1)) then
    if (score i <? snd best)%float then (i, score i) else best
  else best.

Definition findNearestZeroCrossing (audioData : Float32Array)
           (targetSample searchRadius : Z) : Z :=
  let start := Z.max 0 (targetSample - searchRadius) in
  let end_ := Z.min (len audioData - 1) (targetSample + searchRadius) in
  let referenceWindow := Z.min 1024 (searchRadius / 2) in
  let referenceWindowStart :=
    clampZ (targetSample - referenceWindow / 2) 0
           (len audioData - referenceWindow) in
  let referenceRMS :=
    calculateRMS audioData referenceWindowStart referenceWindow in
  let referenceSlope :=
    (get audioData (Z.min (targetSample + 1) (len audioData - 1))
     - get audioData (Z.max (targetSample - 1) 0))%float in
  fst (for_range start (end_ - 1)
         (zeroCrossingStep audioData
            (crossingScore audioData targetSample searchRadius
               referenceWindow referenceRMS referenceSlope))
         (targetSample, Infinity)).

(** One iteration of the volume scan; the state is
    [(bestEndSample, minRMSDiff)]. *)
Definition volumeDiff (audioData : Float32Array) (startSample i : Z) : float :=
  Math_abs (calculateRMS_default audioData startSample
            - calculateRMS_default audioData i)%float.

Definition volumeStep (diff : Z -> float) (i : Z) (best : Z * float)
  : Z * float :=
  if (diff i <? snd best)%float then (i, diff i) else best.

Definition volumeSearchStart (startSample endSample searchRadius : Z) : Z :=
  Z.max (startSample + 1000) (endSample - searchRadius).

Definition volumeSearchEnd (audioData : Float32Array)
           (endSample searchRadius : Z) : Z :=
  Z.min (len audioData - 1000) (endSample + searchRadius).

Definition findVolumeMatchedPoints (audioData : Float32Array)
           (startSample endSample searchRadius : Z) : Z * Z :=
  let searchStart := volumeSearchStart startSample endSample searchRadius in
  let searchEnd := volumeSearchEnd audioData endSample searchRadius in
  let bestEndSample :=
    fst (for_step searchStart searchEnd 100
           (volumeStep (volumeDiff audioData startSample))
           (endSample, Infinity)) in
  (startSample, bestEndSample).

(** The accumulation loop of [crossCorrelation], with its [break]; the state
    is [(correlation, norm1, norm2)]. *)
Fixpoint correlate (n : nat) (i : Z) (audioData : Float32Array)
         (start1 start2 : Z) (acc : float * float * float)
  : float * float * float :=
  match n with
  | O => acc
  | S n' =>
      let idx1 := start1 + i in
      let idx2 := start2 + i in
      if (idx1 >=? len audioData) || (idx2 >=? len audioData) then acc
      else
        let '(correlation, norm1, norm2) := acc in
        let val1 := get audioData idx1 in
        let val2 := get audioData idx2 in
        correlate n' (i + 1) audioData start1 start2
          ((correlation + val1 * val2)%float,
           (norm1 + val1 * val1)%float,
           (norm2 + val2 * val2)%float)
  end.

Definition crossCorrelation (audioData : Float32Array)
           (start1 start2 windowSize : Z) : float :=
  let '(correlation, norm1, norm2) :=
    correlate (Z.to_nat windowSize) 0 audioData start1 start2
              (0%float, 0%float, 0%float) in
  (correlation / Math_sqrt (norm1 * norm2))%float.

(** One iteration of the phase scan; the state is
    [(bestEndSample, maxCorrelation)]. *)
Definition phaseStep (correlation : Z -> float) (i : Z) (best : Z * float)
  : Z * float :=
  if (snd best <? correlation i)%float then (i, correlation i) else best.

Definition phaseSearchStart (startSample endSample searchRadius : Z) : Z :=
  Z.max (startSample + 1000) (endSample - searchRadius).

Definition phaseSearchEnd (audioData : Float32Array)
           (endSample searchRadius : Z) : Z :=
  Z.min (len audioData - 1024) (endSample + searchRadius).

Definition findPhaseMatchedPoint (audioData : Float32Array)
           (startSample endSample searchRadius : Z) : Z :=
  let searchStart := phaseSearchStart startSample endSample searchRadius in
  let searchEnd := phaseSearchEnd audioData endSample searchRadius in
  fst (for_step searchStart searchEnd 50
         (phaseStep (fun i => crossCorrelation audioData startSample i 1024))
         (endSample, neg_infinity)).

Definition getAdaptiveCrossfadeDuration (audioData : Float32Array)
           (startSample endSample : Z) (sampleRate requestedDuration : float)
  : float :=
  let loopSamples := Z.max 1 (endSample - startSample) in
  let loopDuration := (Number_ofZ loopSamples / sampleRate)%float in
  let analysisWindow := Z.min 4096 (loopSamples / 2) in
  let startRMS := calculateRMS audioData startSample analysisWindow in
  let endRMS :=
    calculateRMS audioData
      (Z.max startSample (endSample - analysisWindow)) analysisWindow in
  let derivativeWindow := Z.min 2048 analysisWindow in
  let startDerivative :=
    averageAbsoluteDerivative audioData startSample derivativeWindow in
  let endDerivative :=
    averageAbsoluteDerivative audioData
      (Z.max startSample (endSample - derivativeWindow - 1))
      derivativeWindow in
  let rmsDiff :=
    (Math_abs (startRMS - endRMS) / Math_max startRMS EPSILON)%float in
  let dynamicScore :=
    clamp (Math_max startDerivative endDerivative / 0.5)%float 0 1 in
  let energyScore := clamp rmsDiff 0 1 in
  let baseDuration := clamp requestedDuration 0.015 0.2 in
  let adaptiveDuration :=
    (baseDuration + energyScore * 0.03 + dynamicScore * 0.04)%float in
  let adaptiveDuration :=
    if (loopDuration <? 0.4)%float
    then (adaptiveDuration * clamp (loopDuration / 0.4) 0.3 1)%float
    else adaptiveDuration in
  let minDuration := Math_min 0.015 (loopDuration * 0.2)%float in
  let maxDuration := Math_min 0.15 (loopDuration * 0.45)%float in
  clamp adaptiveDuration (Math_max 0.01 minDuration)
        (Math_max minDuration maxDuration).

(** Modelled from the spec: [removeDCOffset] is called by
    [optimizeLoopPoints] but its definition is not among the sources.  The
    spec has the optimizer work on a DC-offset-corrected copy of the
    reference channel; the model is the in-place sibling
    [removeDCOffsetInPlace] of the crossfade module applied to a fresh
    copy: the mean is subtracted unless its magnitude is below [EPSILON]. *)
Definition removeDCOffset (data : Float32Array) : Float32Array :=
  let sum := fold_left (fun sum x => (sum + x)%float) data 0%float in
  let mean := (sum / Number_ofZ (Z.max 1 (len data)))%float in
  if (Math_abs mean <? EPSILON)%float then data
  else map (fun x => fround (x - mean)%float) data.

(** The pipeline of [optimizeLoopPoints] once the analysis copy is made
    (the [console.log] notices are not modelled). *)
Definition optimizeOn (audioData : Float32Array) (sampleRate : float)
           (loopPoints : LoopPoints) (crossfadeDuration : float)
  : OptimizedLoopPoints :=
  let startSample := floorZ (start loopPoints * sampleRate)%float in
  let endSample := floorZ (end_ loopPoints * sampleRate)%float in
  let startSample := findNearestZeroCrossing audioData startSample 2000 in
  let endSample := findNearestZeroCrossing audioData endSample 2000 in
  let volumeMatched :=
    findVolumeMatchedPoints audioData startSample endSample 5000 in
  let endSample := snd volumeMatched in
  let endSample := findNearestZeroCrossing audioData endSample 500 in
  let endSample := findPhaseMatchedPoint audioData startSample endSample 2000 in
  let endSample := findNearestZeroCrossing audioData endSample 200 in
  let crossfadeDurationSeconds :=
    getAdaptiveCrossfadeDuration audioData startSample endSample sampleRate
      crossfadeDuration in
  {| base := {| start := (Number_ofZ startSample / sampleRate)%float;
                end_ := (Number_ofZ endSample / sampleRate)%float |};
     startSample := startSample;
     endSample := endSample;
     crossfadeDuration := crossfadeDurationSeconds |}.

Definition optimizeLoopPoints (audioBuffer : AudioBuffer)
           (loopPoints : LoopPoints) (crossfadeDuration : float)
  : completion OptimizedLoopPoints :=
  match getChannelData audioBuffer 0 with
  | Throw message => Throw message
  | Normal analysisSource =>
      Normal (optimizeOn (removeDCOffset analysisSource)
                (sampleRate audioBuffer) loopPoints crossfadeDuration)
  end.

End AudioProcessing.

(* ================================================================== *)
(** * The crossfade module ([applyCrossfade], [createExtendedLoop]) *)
(* ================================================================== *)

Module Crossfade.
Import JS Types.

(** ** The store

    The channel arrays of every [AudioBuffer] live in one store; an
    [AudioBuffer] holds the locations of its channels, so that two buffers
    that shared an array would be seen to.  Every element access is recorded
    in a trace. *)

Definition loc := nat.

Inductive access : Type :=
| Load (l : loc) (i : Z)
| Store (l : loc) (i : Z).

Record state := { heap : list Float32Array; trace : list access }.

Definition M (A : Type) : Type := state -> A * state.

Definition ret {A : Type} (a : A) : M A := fun s => (a, s).

Definition bind {A B : Type} (m : M A) (f : A -> M B) : M B :=
  fun s => let (a, s') := m s in f a s'.

Notation "x <- m ;; k" := (bind m (fun x => k))
  (at level 61, m at next level, right associativity).
Notation "m ;;; k" := (bind m (fun _ => k))
  (at level 61, right associativity).

Definition array (h : list Float32Array) (l : loc) : Float32Array :=
  nth l h [].

Fixpoint update (l : loc) (f : Float32Array -> Float32Array)
         (h : list Float32Array) : list Float32Array :=
  match h, l with
  | [], _ => []
  | a :: t, O => f a :: t
  | a :: t, S l' => a :: update l' f t
  end.

(** [data[i]] as an rvalue. *)
Definition load (data : loc) (i : Z) : M float :=
  fun s => (get (array (heap s) data) i,
            {| heap := heap s; trace := Load data i :: trace s |}).

(** [data[i] = v]. *)
Definition store (data : loc) (i : Z) (v : float) : M unit :=
  fun s => (tt,
            {| heap := update data (fun a => set a i v) (heap s);
               trace := Store data i :: trace s |}).

(** [data.length]. *)
Definition lengthOf (data : loc) : M Z :=
  fun s => (len (array (heap s) data), s).

(** A zero-filled [Float32Array] of [n] samples at a fresh location. *)
Definition alloc (n : Z) : M loc :=
  fun s => (length (heap s),
            {| heap := heap s ++ [repeat 0%float (Z.to_nat n)];
               trace := trace s |}).

(** [for (let i = lo; i < hi; i++)] with the loop-carried variables [a]. *)
Fixpoint loopM {A : Type} (n : nat) (i : Z) (body : Z -> A -> M A) (a : A)
  : M A :=
  match n with
  | O => ret a
  | S n' => a' <- body i a ;; loopM n' (i + 1) body a'
  end.

Definition forM {A : Type} (lo hi : Z) (body : Z -> A -> M A) (a : A) : M A :=
  loopM (Z.to_nat (hi - lo)) lo body a.

(** ** Audio buffers *)

Record AudioBuffer := {
  sampleRate : float;
  bufferLength : Z;
  channelData : list loc
}.

Definition numberOfChannels (b : AudioBuffer) : Z :=
  Z.of_nat (length (channelData b)).

Definition getChannelData (b : AudioBuffer) (channel : Z) : loc :=
  nth (Z.to_nat channel) (channelData b) O.

(** [audioContext.createBuffer(numberOfChannels, length, sampleRate)]: the
    channel arrays are new and zero-filled.  The platform refuses a buffer
    without channels or without samples; the model allocates what is asked,
    an empty array for a length that is not positive. *)
Fixpoint allocChannels (n : nat) (length : Z) : M (list loc) :=
  match n with
  | O => ret []
  | S n' => l <- alloc length ;; ls <- allocChannels n' length ;; ret (l :: ls)
  end.

Definition createBuffer (numberOfChannels length : Z) (sampleRate : float)
  : M AudioBuffer :=
  ls <- allocChannels (Z.to_nat numberOfChannels) length ;;
  ret {| sampleRate := sampleRate; bufferLength := length; channelData := ls |}.

Definition EPSILON : float := 1e-6%float.

Section Platform.

(** [Math.sin] and [Math.cos] of the host. *)
Variables Math_sin Math_cos : float -> float.

Definition getFadeInGain (progress : float) (useHann : bool) : float :=
  if useHann
  then Math_sqrt (0.5 - 0.5 * Math_cos (Math_PI * progress))%float
  else Math_sin ((progress * Math_PI) / 2)%float.

Definition getFadeOutGain (progress : float) (useHann : bool) : float :=
  if useHann
  then Math_sqrt (0.5 + 0.5 * Math_cos (Math_PI * progress))%float
  else Math_cos ((progress * Math_PI) / 2)%float.

Definition removeDCOffsetInPlace (data : loc) : M unit :=
  n <- lengthOf data ;;
  sum <- forM 0 n (fun i sum => x <- load data i ;; ret (sum + x)%float)
              0%float ;;
  let mean := (sum / Number_ofZ (Z.max 1 n))%float in
  if (Math_abs mean <? EPSILON)%float then ret tt
  else
    forM 0 n (fun i _ => x <- load data i ;; store data i (x - mean)%float) tt.

Definition getSegmentMean (data : loc) (start length : Z) : M float :=
  n <- lengthOf data ;;
  let clampedStart := Z.max 0 (Z.min start (n - 1)) in
  let clampedEnd := Z.min (clampedStart + length) n in
  sum <- forM clampedStart clampedEnd
              (fun i sum => x <- load data i ;; ret (sum + x)%float) 0%float ;;
  ret (sum / Number_ofZ (Z.max 1 (clampedEnd - clampedStart)))%float.

Definition getAverageSlope (data : loc) (start length : Z) : M float :=
  n <- lengthOf data ;;
  let window := Z.max 2 (Z.min length (n - start)) in
  sum <- forM 0 (window - 1)
              (fun i sum =>
                 let idx := start + i in
                 y <- load data (idx + 1) ;;
                 x <- load data idx ;;
                 ret (sum + (y - x))%float) 0%float ;;
  ret (sum / Number_ofZ (Z.max 1 (window - 1)))%float.

Definition seamWindowOf (length : Z) : Z :=
  Z.min 2048 (floorZ (Number_ofZ length * 0.1)%float).

(** One smoothing pass of [smoothLoopSeam]. *)
Definition smoothPass (data : loc) (tailStart seamWindow : Z) : M unit :=
  previous <- load data tailStart ;;
  forM 1 (seamWindow - 1)
       (fun i previous =>
          let idx := tailStart + i in
          current <- load data idx ;;
          next <- load data (idx + 1) ;;
          store data idx (current * 0.5 + (previous + next) * 0.25)%float ;;;
          ret current) previous ;;;
  ret tt.

Definition smoothLoopSeam (data : loc) : M unit :=
  n <- lengthOf data ;;
  let seamWindow := seamWindowOf n in
  if seamWindow <? 4 then ret tt
  else
    let tailStart := n - seamWindow in
    startMean <- getSegmentMean data 0 seamWindow ;;
    endMean <- getSegmentMean data tailStart seamWindow ;;
    let meanOffset := (endMean - startMean)%float in
    forM 0 seamWindow
         (fun i _ =>
            let progress :=
              (Number_ofZ (i + 1) / Number_ofZ seamWindow)%float in
            let idx := tailStart + i in
            x <- load data idx ;;
            store data idx (x - meanOffset * progress)%float) tt ;;;
    startSlope <- getAverageSlope data 0 seamWindow ;;
    endSlope <- getAverageSlope data tailStart seamWindow ;;
    let slopeOffset := (endSlope - startSlope)%float in
    forM 0 seamWindow
         (fun i _ =>
            let progress :=
              (Number_ofZ (i + 1) / Number_ofZ seamWindow)%float in
            let idx := tailStart + i in
            x <- load data idx ;;
            store data idx
              (x - slopeOffset * progress * Number_ofZ seamWindow * 0.5)%float)
         tt ;;;
    forM 0 2 (fun pass _ => smoothPass data tailStart seamWindow) tt.

(** ** The sub-steps of [applyCrossfade] on one channel *)

(** Copy the main loop segment. *)
Definition copySegment (inputData outputData : loc) (startSample loopLength : Z)
  : M unit :=
  forM 0 loopLength
       (fun i _ => x <- load inputData (startSample + i) ;;
                   store outputData i x) tt.

(** Blend a slice of the loop tail into the start. *)
Definition blendTailIntoHead (inputData outputData : loc)
           (startSample endSample stitchLength : Z) : M unit :=
  forM 0 stitchLength
       (fun i _ =>
          let mixProgress :=
            (Number_ofZ i / Number_ofZ (Z.max 1 (stitchLength - 1)))%float in
          let blendAmount := (0.35 * (1 - mixProgress))%float in
          let tailIndex := Z.max startSample (endSample - stitchLength + i) in
          o <- load outputData i ;;
          t <- load inputData tailIndex ;;
          store outputData i (o * (1 - blendAmount) + t * blendAmount)%float)
       tt.

(** Crossfade at the beginning (fade in from the end of the loop). *)
Definition crossfadeHead (inputData outputData : loc)
           (endSample fadeLength : Z) (useHannFade : bool) : M unit :=
  forM 0 fadeLength
       (fun i _ =>
          let progress :=
            (Number_ofZ i / Number_ofZ (Z.max 1 (fadeLength - 1)))%float in
          let fadeInGain := getFadeInGain progress useHannFade in
          let fadeOutGain := getFadeOutGain progress useHannFade in
          endLoopSample <- load inputData (endSample - fadeLength + i) ;;
          startLoopSample <- load outputData i ;;
          store outputData i
            (fadeInGain * startLoopSample + fadeOutGain * endLoopSample)%float)
       tt.

(** Crossfade at the end (fade out to the beginning of the loop). *)
Definition crossfadeTail (inputData outputData : loc)
           (startSample loopLength fadeLength : Z) (useHannFade : bool)
  : M unit :=
  forM 0 fadeLength
       (fun i _ =>
          let progress :=
            (Number_ofZ i / Number_ofZ (Z.max 1 (fadeLength - 1)))%float in
          let fadeOutGain := getFadeOutGain progress useHannFade in
          let fadeInGain := getFadeInGain progress useHannFade in
          currentSample <- load outputData (loopLength - fadeLength + i) ;;
          startLoopSample <- load inputData (startSample + i) ;;
          store outputData (loopLength - fadeLength + i)
            (fadeOutGain * currentSample + fadeInGain * startLoopSample)%float)
       tt.

(** Pre-blend the start material into the tail. *)
Definition blendHeadIntoTail (inputData outputData : loc)
           (startSample loopLength stitchLength : Z) : M unit :=
  forM 0 stitchLength
       (fun i _ =>
          let mixProgress :=
            (Number_ofZ i / Number_ofZ (Z.max 1 (stitchLength - 1)))%float in
          let blendAmount := (0.35 * mixProgress)%float in
          let targetIndex := loopLength - stitchLength + i in
          o <- load outputData targetIndex ;;
          x <- load inputData (startSample + i) ;;
          store outputData targetIndex
            (o * (1 - blendAmount) + x * blendAmount)%float)
       tt.

Definition fadeLengthOf (audioBuffer : AudioBuffer)
           (loopPoints : OptimizedLoopPoints) : Z :=
  floorZ (crossfadeDuration loopPoints * sampleRate audioBuffer)%float.

Definition stitchLengthOf (fadeLength loopLength : Z) : Z :=
  Z.min fadeLength (floorZ (Number_ofZ loopLength * 0.2)%float).

(** The body of the channel loop of [applyCrossfade]. *)
Definition processChannel (inputData outputData : loc)
           (startSample endSample fadeLength stitchLength : Z)
           (useHannFade : bool) : M unit :=
  let loopLength := endSample - startSample in
  copySegment inputData outputData startSample loopLength ;;;
  blendTailIntoHead inputData outputData startSample endSample stitchLength ;;;
  crossfadeHead inputData outputData endSample fadeLength useHannFade ;;;
  crossfadeTail inputData outputData startSample loopLength fadeLength
                useHannFade ;;;
  blendHeadIntoTail inputData outputData startSample loopLength stitchLength ;;;
  removeDCOffsetInPlace outputData ;;;
  smoothLoopSeam outputData.

Definition applyCrossfade (audioBuffer : AudioBuffer)
           (loopPoints : OptimizedLoopPoints) : M AudioBuffer :=
  let fadeLength := fadeLengthOf audioBuffer loopPoints in
  let useHannFade := (0.075 <=? crossfadeDuration loopPoints)%float in
  let startSample := startSample loopPoints in
  let endSample := endSample loopPoints in
  let loopLength := endSample - startSample in
  let stitchLength := stitchLengthOf fadeLength loopLength in
  newBuffer <- createBuffer (numberOfChannels audioBuffer) loopLength
                            (sampleRate audioBuffer) ;;
  forM 0 (numberOfChannels audioBuffer)
       (fun channel _ =>
          processChannel (getChannelData audioBuffer channel)
                         (getChannelData newBuffer channel)
                         startSample endSample fadeLength stitchLength
                         useHannFade) tt ;;;
  ret newBuffer.

(** [i % loopLength] and the read at that position: the remainder by zero is
    NaN, and [loopData[NaN]] is [undefined]. *)
Definition loadAtRemainder (loopData : loc) (i loopLength : Z) : M float :=
  if loopLength =? 0 then ret NaN else load loopData (Z.rem i loopLength).

Definition createExtendedLoop (loopBuffer : AudioBuffer)
           (targetDuration : float) : M AudioBuffer :=
  let loopLength := bufferLength loopBuffer in
  let totalSamples := floorZ (targetDuration * sampleRate loopBuffer)%float in
  extendedBuffer <- createBuffer (numberOfChannels loopBuffer) totalSamples
                                 (sampleRate loopBuffer) ;;
  forM 0 (numberOfChannels loopBuffer)
       (fun channel _ =>
          let loopData := getChannelData loopBuffer channel in
          let outputData := getChannelData extendedBuffer channel in
          forM 0 totalSamples
               (fun i _ => x <- loadAtRemainder loopData i loopLength ;;
                           store outputData i x) tt) tt ;;;
  ret extendedBuffer.

Definition createLoopableSegment (audioBuffer : AudioBuffer)
           (loopPoints : OptimizedLoopPoints) : M AudioBuffer :=
  applyCrossfade audioBuffer loopPoints.

End Platform.

(** ** Reading a run *)

(** An access is within the bounds of the array it touches. *)
Definition inBounds (h : list Float32Array) (a : access) : Prop :=
  match a with
  | Load l i | Store l i => 0 <= i < len (array h l)
  end.

Definition inBoundsb (h : list Float32Array) (a : access) : bool :=
  match a with
  | Load l i | Store l i => (0 <=? i) && (i <? len (array h l))
  end.

(** The buffer is one of the store: its channels are arrays of the store,
    each of [bufferLength] samples. *)
Definition wellFormed (h : list Float32Array) (b : AudioBuffer) : Prop :=
  Forall (fun l => (l < length h)%nat /\ len (array h l) = bufferLength b)
         (channelData b).

(** A run from the store [h], with an empty trace. *)
Definition init (h : list Float32Array) : state := {| heap := h; trace := [] |}.

(** The lengths of the arrays of a store, by location. *)
Definition lengths (h : list Float32Array) : list Z := map len h.

Definition lengthAt (L : list Z) (l : loc) : Z := nth l L 0.

(** An access within the bounds of its array, by the lengths [L]. *)
Definition withinLengths (L : list Z) (a : access) : Prop :=
  match a with
  | Load l i | Store l i => 0 <= i < lengthAt L l
  end.

(** A write that leaves the first [n] arrays of the store alone. *)
Definition writesBeyond (n : nat) (a : access) : Prop :=
  match a with
  | Load _ _ => True
  | Store l _ => (n <= l)%nat
  end.

(** The state of a run that has made only accesses permitted by [perm], in a
    store whose arrays have the lengths [L] and that still begins with the
    arrays [h0]. *)
Definition good (perm : access -> Prop) (L : list Z) (h0 : list Float32Array)
           (s : state) : Prop :=
  lengths (heap s) = L
  /\ Forall perm (trace s)
  /\ exists extra, heap s = h0 ++ extra.

Definition preserves {A : Type} (P : state -> Prop) (m : M A) : Prop :=
  forall s, P s -> P (snd (m s)).

(** The accesses of [processChannel], step by step. *)
Definition permitsChannel (perm : access -> Prop) (inputData outputData : loc)
           (startSample endSample fadeLength stitchLength outputLength : Z)
  : Prop :=
  let loopLength := endSample - startSample in
  (forall i, 0 <= i < loopLength ->
             perm (Load inputData (startSample + i))
             /\ perm (Store outputData i))
  /\ (forall i, 0 <= i < stitchLength ->
                perm (Load outputData i)
                /\ perm (Load inputData
                              (Z.max startSample (endSample - stitchLength + i)))
                /\ perm (Store outputData i))
  /\ (forall i, 0 <= i < fadeLength ->
                perm (Load inputData (endSample - fadeLength + i))
                /\ perm (Load outputData i)
                /\ perm (Store outputData i))
  /\ (forall i, 0 <= i < fadeLength ->
                perm (Load outputData (loopLength - fadeLength + i))
                /\ perm (Load inputData (startSample + i))
                /\ perm (Store outputData (loopLength - fadeLength + i)))
  /\ (forall i, 0 <= i < stitchLength ->
                perm (Load outputData (loopLength - stitchLength + i))
                /\ perm (Load inputData (startSample + i))
                /\ perm (Store outputData (loopLength - stitchLength + i)))
  /\ (forall i, 0 <= i < outputLength ->
                perm (Load outputData i) /\ perm (Store outputData i)).

End Crossfade.

(* ================================================================== *)
(** * src/utils/exportAudio.ts *)
(* ================================================================== *)

Module ExportAudio.
Import JS.
Import AudioProcessing.

(** ** A [DataView] over a zero-filled [ArrayBuffer]

    The buffer is a list of bytes (integers in [0, 256)).  A [DataView]
    setter throws a RangeError outside the buffer; [audioBufferToWav]
    allocates [44 + dataLength] bytes and writes inside them only, so the
    setters below leave that case as a write that is dropped. *)

Definition DataView := list Z.

Fixpoint poke (n : nat) (b : Z) (view : DataView) : DataView :=
  match view, n with
  | [], _ => []
  | _ :: t, O => b :: t
  | h :: t, S n' => h :: poke n' b t
  end.

Definition setUint8 (view : DataView) (offset value : Z) : DataView :=
  if offset <? 0 then view else poke (Z.to_nat offset) (value mod 256) view.

(** Little-endian setters ([littleEndian = true] at every call site). *)
Definition setUint16 (view : DataView) (offset value : Z) : DataView :=
  let view := setUint8 view offset value in
  setUint8 view (offset + 1) (value / 256).

Definition setUint32 (view : DataView) (offset value : Z) : DataView :=
  let view := setUint8 view offset value in
  let view := setUint8 view (offset + 1) (value / 256) in
  let view := setUint8 view (offset + 2) (value / 65536) in
  setUint8 view (offset + 3) (value / 16777216).

(** [setInt16] converts its argument with ToInt16 and stores the two's
    complement word. *)
Definition setInt16 (view : DataView) (offset : Z) (value : float) : DataView :=
  setUint16 view offset (ToInt16 value).

Definition charCodes (s : string) : list Z :=
  map (fun c => Z.of_N (Ascii.N_of_ascii c)) (list_ascii_of_string s).

Fixpoint writeChars (view : DataView) (offset : Z) (codes : list Z) : DataView :=
  match codes with
  | [] => view
  | c :: rest => writeChars (setUint8 view offset c) (offset + 1) rest
  end.

Definition writeString (view : DataView) (offset : Z) (s : string) : DataView :=
  writeChars view offset (charCodes s).

(** ** Interleaving *)

(** The inner loop of [interleaveChannels]; the state is [(result, index)]. *)
Definition interleaveFrame (channels : list Float32Array) (i : Z)
           (st : Float32Array * Z) : Float32Array * Z :=
  for_range 0 (Z.of_nat (length channels))
    (fun channel '(result, index) =>
       (set result index (get (nth (Z.to_nat channel) channels []) i),
        index + 1))
    st.

Definition interleaveChannels (buffer : AudioBuffer) : Float32Array :=
  let numberOfChannels := numberOfChannels buffer in
  let length := bufferLength buffer * numberOfChannels in
  let result := repeat 0%float (Z.to_nat length) in
  fst (for_range 0 (bufferLength buffer)
         (interleaveFrame (channels buffer)) (result, 0)).

(** ** The encoder *)

(** The 16-bit sample written for [x]. *)
Definition clampSample (x : float) : float :=
  Math_max (-1)%float (Math_min 1%float x).

Definition intSample (x : float) : float :=
  let sample := clampSample x in
  if (sample <? 0)%float then (sample * 32768)%float
  else (sample * 32767)%float.

(** The sample loop of [audioBufferToWav]; the state is [(view, offset)]. *)
Definition writeSample (data : Float32Array) (i : Z) (st : DataView * Z)
  : DataView * Z :=
  let '(view, offset) := st in
  (setInt16 view offset (intSample (get data i)), offset + 2).

Definition audioBufferToWav (buffer : AudioBuffer) : DataView :=
  let numberOfChannels := numberOfChannels buffer in
  let sampleRate := sampleRate buffer in
  let format := 1 in
  let bitDepth := 16 in
  let bytesPerSample := bitDepth / 8 in
  let blockAlign := numberOfChannels * bytesPerSample in
  let data := interleaveChannels buffer in
  let dataLength := len data * bytesPerSample in
  let bufferLength := 44 + dataLength in
  let view := repeat 0 (Z.to_nat bufferLength) in
  let view := writeString view 0 "RIFF" in
  let view := setUint32 view 4 (36 + dataLength) in
  let view := writeString view 8 "WAVE" in
  let view := writeString view 12 "fmt " in
  let view := setUint32 view 16 16 in
  let view := setUint16 view 20 format in
  let view := setUint16 view 22 numberOfChannels in
  let view := setUint32 view 24 (ToUint32 sampleRate) in
  let view :=
    setUint32 view 28 (ToUint32 (sampleRate * Number_ofZ blockAlign)%float) in
  let view := setUint16 view 32 blockAlign in
  let view := setUint16 view 34 bitDepth in
  let view := writeString view 36 "data" in
  let view := setUint32 view 40 dataLength in
  fst (for_range 0 (len data) (writeSample data) (view, 44)).

(** ** The layout in the words of the spec *)

(** Little-endian bytes of a 16-bit and of a 32-bit word. *)
Definition le16 (v : Z) : list Z := [v mod 256; (v / 256) mod 256].

Definition le32 (v : Z) : list Z :=
  [v mod 256; (v / 256) mod 256; (v / 65536) mod 256; (v / 16777216) mod 256].

(** Sample-by-sample interleaving: frame [i] holds sample [i] of every
    channel, in channel order (the store into the result array rounds to
    binary32). *)
Definition frame (channels : list Float32Array) (i : Z) : list float :=
  map (fun c => fround (get c i)) channels.

Definition interleaved (buffer : AudioBuffer) : list float :=
  flat_map (fun i => frame (channels buffer) (Z.of_nat i))
           (seq 0 (Z.to_nat (bufferLength buffer))).

(** The canonical 44-byte header. *)
Definition header (numberOfChannels sampleRate byteRate dataLength : Z)
  : list Z :=
  charCodes "RIFF" ++ le32 (36 + dataLength) ++ charCodes "WAVE"
  ++ charCodes "fmt " ++ le32 16 ++ le16 1 ++ le16 numberOfChannels
  ++ le32 sampleRate ++ le32 byteRate ++ le16 (numberOfChannels * 2)
  ++ le16 16 ++ charCodes "data" ++ le32 dataLength.

Definition payload (samples : list float) : list Z :=
  flat_map (fun x => le16 (ToInt16 (intSample x))) samples.

(** ** The reference PCM16 reader *)

(** Modelled from the spec: decoding is outside the repository; the spec
    names a reference PCM16 reader.  The reader takes the channel count, the
    sample rate and the data length from their header fields (offsets 22, 24
    and 40), then reads [dataLength / 2] signed little-endian words from
    offset 44 and scales each by 1/32768. *)
Definition readByte (bytes : list Z) (offset : nat) : Z := nth offset bytes 0.

Definition readUint16 (bytes : list Z) (offset : nat) : Z :=
  readByte bytes offset + 256 * readByte bytes (offset + 1).

Definition readUint32 (bytes : list Z) (offset : nat) : Z :=
  readByte bytes offset + 256 * readByte bytes (offset + 1)
  + 65536 * readByte bytes (offset + 2)
  + 16777216 * readByte bytes (offset + 3).

Definition readInt16 (bytes : list Z) (offset : nat) : Z :=
  let w := readUint16 bytes offset in
  if w >=? 32768 then w - 65536 else w.

Record Decoded := {
  decodedChannels : Z;
  decodedSampleRate : Z;
  decodedDataLength : Z;
  decodedWords : list Z
}.

Definition decode (bytes : list Z) : Decoded :=
  let dataLength := readUint32 bytes 40 in
  {| decodedChannels := readUint16 bytes 22;
     decodedSampleRate := readUint32 bytes 24;
     decodedDataLength := dataLength;
     decodedWords :=
       map (fun k => readInt16 bytes (44 + 2 * k))
           (seq 0 (Z.to_nat (dataLength / 2))) |}.

Definition decodedSample (word : Z) : float :=
  (Number_ofZ word / 32768)%float.

End ExportAudio.

(* ================================================================== *)
(** * The statements of the spec, and the inputs used below *)
(* ================================================================== *)

Module Spec.
Import JS Types AudioProcessing.

(** An [AudioBuffer] as the platform builds it: at least one channel, every
    channel of [bufferLength] samples. *)
Definition wellFormed (b : AudioBuffer) : Prop :=
  channels b <> [] /\ Forall (fun c => len c = bufferLength b) (channels b).

(** A loop selection in seconds with [0 <= start < end <= duration]. *)
Definition validSelection (b : AudioBuffer) (lp : LoopPoints) : bool :=
  (0 <=? start lp)%float && (start lp <? end_ lp)%float
  && (end_ lp <=? duration b)%float.

(** The bounds invariant of [OptimizedLoopPoints] as the spec states it. *)
Definition boundsInvariant (b : AudioBuffer) (r : OptimizedLoopPoints) : Prop :=
  0 <= startSample r /\ startSample r < endSample r
  /\ endSample r <= bufferLength b - 1.

(** The calls that the spec wants rejected with an explicit error: a
    selection that is not [0 <= start < end <= duration], a zero-length
    buffer, a crossfade that is not a positive finite number. *)
Definition specRejects (b : AudioBuffer) (lp : LoopPoints)
           (crossfade : float) : bool :=
  negb (validSelection b lp)
  || (bufferLength b =? 0)
  || negb ((0 <? crossfade)%float && is_finite crossfade).

(** A mono buffer at 44.1 kHz. *)
Definition mono (samples : Float32Array) : AudioBuffer :=
  {| sampleRate := 44100; bufferLength := len samples; channels := [samples] |}.

(** Three samples whose only sign change is between the last two. *)
Definition fallingEdge : Float32Array := [0.5; 0.25; -0.75]%float.

(** Six samples with a single sign change, between indices 1 and 2 of the
    DC-corrected copy. *)
Definition singleCrossing : Float32Array :=
  [0.5; 0.5; -0.5; -0.5; -0.5; -0.5]%float.

(** Six samples that alternate in sign. *)
Definition alternating : Float32Array :=
  [0.5; -0.5; 0.5; -0.5; 0.5; -0.5]%float.

(** Four samples whose only sign change is between the last two. *)
Definition lateCrossing : Float32Array := [1; 1; 1; -1]%float.

(** Twelve samples whose only sign change is between indices 7 and 8. *)
Definition edgeOfRadius : Float32Array :=
  [1; 1; 1; 1; 1; 1; 1; 1; -1; -1; -1; -1]%float.

(** The whole buffer as a selection. *)
Definition wholeBuffer (b : AudioBuffer) : LoopPoints :=
  {| start := 0; end_ := duration b |}.

(** The sample indices of a result, or [None] after a throw. *)
Definition samplesOf (c : completion OptimizedLoopPoints) : option (Z * Z) :=
  match c with
  | Normal r => Some (startSample r, endSample r)
  | Throw _ => None
  end.

End Spec.

(* ================================================================== *)
(** * Inputs used below for the scans and for the crossfade module *)
(* ================================================================== *)

Module Examples.
Import JS Types.

(** 2101 samples of a constant signal, of silence, and of silence after one
    NaN sample. *)
Definition steady : Float32Array := repeat 0.5%float 2101.
Definition silence : Float32Array := repeat 0%float 2101.
Definition silenceAfterNaN : Float32Array := NaN :: repeat 0%float 2100.

(** A host's [Math.sin] and [Math.cos] for the runs below: truncated Taylor
    series, adequate on the arguments that the gains pass, between 0 and pi. *)
Definition hostSin (x : float) : float :=
  (x - x * x * x / 6 + x * x * x * x * x / 120
   - x * x * x * x * x * x * x / 5040)%float.

Definition hostCos (x : float) : float :=
  (1 - x * x / 2 + x * x * x * x / 24 - x * x * x * x * x * x / 720
   + x * x * x * x * x * x * x * x / 40320)%float.

(** A store with one ten-sample array, and the mono buffer at 1 kHz that
    holds it. *)
Definition tenSamples : Float32Array :=
  [0.5; 0.25; -0.5; -0.25; 1; 0.75; -0.75; -1; 0.125; -0.125]%float.

Definition store1 : list Float32Array := [tenSamples].

Definition buffer1 : Crossfade.AudioBuffer :=
  {| Crossfade.sampleRate := 1000;
     Crossfade.bufferLength := 10;
     Crossfade.channelData := [O] |}.

(** The first five samples as a loop, with the 10 ms crossfade that the sizer
    returns at least, and with a 2 ms crossfade. *)
Definition loop5 (crossfade : float) : OptimizedLoopPoints :=
  {| base := {| start := 0; end_ := 0.005 |};
     startSample := 0;
     endSample := 5;
     crossfadeDuration := crossfade |}.

(** The store after the loop segment of [loop5] has been copied to a second
    array. *)
Definition storeCopied : list Float32Array :=
  [tenSamples; [0.5; 0.25; -0.5; -0.25; 1]%float].

(** A stereo buffer of three frames at 44.1 kHz, with a sample above 1 and
    one below -1. *)
Definition stereo : AudioProcessing.AudioBuffer :=
  {| AudioProcessing.sampleRate := 44100;
     AudioProcessing.bufferLength := 3;
     AudioProcessing.channels :=
       [[0.5; -0.5; 2]%float; [-1; 0.25; -1.5]%float] |}.

(** The binary32 number nearest to 0.9. *)
Definition pointNine : float := 0.89999997615814209%float.

End Examples.

(* ================================================================== *)
(** * src/components/WaveformViewer.tsx: the preview encoder *)
(* ================================================================== *)

Module WaveformViewer.
Import JS.
Import AudioProcessing ExportAudio.

(** The inner loop of the sample loop of [audioBufferToBlob]: the samples of
    frame [i], channel by channel, read from the channel arrays themselves;
    the state is [(view, offset)]. *)
Definition writeFrame (channels : list Float32Array) (i : Z)
           (st : DataView * Z) : DataView * Z :=
  for_range 0 (Z.of_nat (length channels))
    (fun channel '(view, offset) =>
       let sample :=
         Math_max (-1)%float
                  (Math_min 1%float
                            (get (nth (Z.to_nat channel) channels []) i)) in
       (setInt16 view offset
                 (if (sample <? 0)%float then (sample * 32768)%float
                  else (sample * 32767)%float),
        offset + 2))
    st.

(** [audioBufferToBlob], the helper that hands the buffer to the waveform
    display as a WAV file.  Its byte rate field is [sampleRate * 4] whatever
    the channel count. *)
Definition audioBufferToBlob (buffer : AudioBuffer) : DataView :=
  let numberOfChannels := numberOfChannels buffer in
  let length := bufferLength buffer * numberOfChannels * 2 in
  let view := repeat 0 (Z.to_nat (44 + length)) in
  let view := writeString view 0 "RIFF" in
  let view := setUint32 view 4 (36 + length) in
  let view := writeString view 8 "WAVE" in
  let view := writeString view 12 "fmt " in
  let view := setUint32 view 16 16 in
  let view := setUint16 view 20 1 in
  let view := setUint16 view 22 numberOfChannels in
  let view := setUint32 view 24 (ToUint32 (sampleRate buffer)) in
  let view := setUint32 view 28 (ToUint32 (sampleRate buffer * 4)%float) in
  let view := setUint16 view 32 (numberOfChannels * 2) in
  let view := setUint16 view 34 16 in
  let view := writeString view 36 "data" in
  let view := setUint32 view 40 length in
  fst (for_range 0 (bufferLength buffer) (writeFrame (channels buffer))
                 (view, 44)).

End WaveformViewer.

(* ================================================================== *)
(** * The export panel ([ExportOptions], [handleExport]) *)
(* ================================================================== *)

Module ExportOptions.
Import JS Types Crossfade.

Inductive ExportMode : Type := single | extended.

(** The file handed to the browser by [downloadBlob]: its name and the bytes
    of the blob. *)
Record Download := { fileName : string; bytes : list Z }.

(** The buffer as the encoder reads it: the channel arrays of the store. *)
Definition snapshot (h : list Float32Array) (b : AudioBuffer)
  : AudioProcessing.AudioBuffer :=
  {| AudioProcessing.sampleRate := sampleRate b;
     AudioProcessing.bufferLength := bufferLength b;
     AudioProcessing.channels := map (array h) (channelData b) |}.

(** [exportAsWAV]: encode, then download under the given name (the reads of
    the encoder are not recorded in the trace of the crossfade module). *)
Definition exportAsWAV (audioBuffer : AudioBuffer) (name : string)
  : M Download :=
  fun s =>
    ({| fileName := name;
        bytes := ExportAudio.audioBufferToWav (snapshot (heap s) audioBuffer) |},
     s).

(** [fileName.replace(/\.[^/.]+$/, '')] on a string of 8-bit characters: the
    first dot that is followed, up to the end of the name, by one or more
    characters other than a slash and a dot, goes with what follows it. *)
Definition extensionChar (c : Ascii.ascii) : bool :=
  negb (Ascii.eqb c "/"%char) && negb (Ascii.eqb c "."%char).

Definition isExtension (s : string) : bool :=
  match s with
  | EmptyString => false
  | String _ _ => forallb extensionChar (list_ascii_of_string s)
  end.

Fixpoint removeExtension (s : string) : string :=
  match s with
  | EmptyString => EmptyString
  | String c rest =>
      if Ascii.eqb c "."%char && isExtension rest then EmptyString
      else String c (removeExtension rest)
  end.

(** The decimal digits that a template literal prints for an integer. *)
Definition decimal (n : Z) : string := NilZero.string_of_int (Z.to_int n).

Section Platform.

Variables Math_sin Math_cos : float -> float.

(** The body of [handleExport], between the notices to the user interface.
    The slider gives [extendedDuration] as a whole number of minutes.  The
    crossfade module of the model completes normally on every input, so the
    [catch] branch is not reached. *)
Definition handleExport (audioBuffer : AudioBuffer)
           (optimizedPoints : OptimizedLoopPoints) (name : string)
           (exportMode : ExportMode) (extendedDuration : Z) : M Download :=
  loopBuffer <- createLoopableSegment Math_sin Math_cos audioBuffer
                                      optimizedPoints ;;
  match exportMode with
  | single =>
      let baseName := removeExtension name in
      exportAsWAV loopBuffer (baseName ++ "_loop.wav")%string
  | extended =>
      let targetDurationSeconds := Number_ofZ (extendedDuration * 60) in
      extendedBuffer <- createExtendedLoop loopBuffer targetDurationSeconds ;;
      let baseName := removeExtension name in
      exportAsWAV extendedBuffer
                  (baseName ++ "_loop_" ++ decimal extendedDuration
                            ++ "min.wav")%string
  end.

End Platform.

End ExportOptions.

(* ================================================================== *)
(** * What a call leaves as it was *)
(* ================================================================== *)

Module Unchanged.
Import JS Crossfade.

(** The store [s] has the arrays of [h0], of the same lengths, except for the
    samples of [data] from index [k] on. *)
Definition keepsPrefix (h0 : list Float32Array) (data : loc) (k : Z)
           (s : state) : Prop :=
  lengths (heap s) = lengths h0
  /\ (forall l, l <> data -> array (heap s) l = array h0 l)
  /\ (forall i, i < k -> get (array (heap s) data) i = get (array h0 data) i).

End Unchanged.
(* ================================================================== *)
(** * Properties *)
(* ================================================================== *)

(** ** The order of binary64 numbers *)

Module FloatOrder.
Import JS.

Ltac split_compare :=
  repeat match goal with
         | H : context [Z.compare ?x ?y] |- _ => destruct (Z.compare_spec x y)
         | |- context [Z.compare ?x ?y] => destruct (Z.compare_spec x y)
         | H : context [Pos.compare_cont Eq ?p ?q] |- _ =>
             change (Pos.compare_cont Eq p q) with (Pos.compare p q) in H;
             destruct (Pos.compare_spec p q)
         | |- context [Pos.compare_cont Eq ?p ?q] =>
             change (Pos.compare_cont Eq p q) with (Pos.compare p q);
             destruct (Pos.compare_spec p q)
         end.

Ltac order_cases :=
  repeat match goal with
         | x : spec_float |- _ => destruct x as [[|]|[|]| |[|] ? ?]
         end;
  cbn in *; try congruence; split_compare; cbn in *;
  subst; try congruence; try lia.

Lemma SFcompare_lt_trans (a b c : spec_float) :
  SFcompare a b = Some Lt -> SFcompare b c = Some Lt ->
  SFcompare a c = Some Lt.
Proof. intros Hab Hbc. order_cases. Qed.

Lemma SFcompare_eq_lt (a b c : spec_float) :
  SFcompare a b = Some Eq -> SFcompare b c = Some Lt ->
  SFcompare a c = Some Lt.
Proof. intros Hab Hbc. order_cases. Qed.

Lemma SFcompare_lt_eq (a b c : spec_float) :
  SFcompare a b = Some Lt -> SFcompare b c = Some Eq ->
  SFcompare a c = Some Lt.
Proof. intros Hab Hbc. order_cases. Qed.

Lemma SFcompare_eq_trans (a b c : spec_float) :
  SFcompare a b = Some Eq -> SFcompare b c = Some Eq ->
  SFcompare a c = Some Eq.
Proof. intros Hab Hbc. order_cases. Qed.

Lemma SFcompare_refl (a : spec_float) :
  a <> S754_nan -> SFcompare a a = Some Eq.
Proof. intros Ha. order_cases. Qed.

Lemma SFcompare_gt_lt (a b : spec_float) :
  SFcompare a b = Some Gt -> SFcompare b a = Some Lt.
Proof. intros Hab. order_cases. Qed.

Lemma SFcompare_eq_sym (a b : spec_float) :
  SFcompare a b = Some Eq -> SFcompare b a = Some Eq.
Proof. intros Hab. order_cases. Qed.

Lemma SFcompare_total (a b : spec_float) :
  a <> S754_nan -> b <> S754_nan -> exists c, SFcompare a b = Some c.
Proof.
  intros Ha Hb.
  destruct a as [[|]|[|]| |[|] ? ?], b as [[|]|[|]| |[|] ? ?];
    cbn; try congruence; eauto.
Qed.

Lemma SFcompare_nan (a b : spec_float) (c : comparison) :
  SFcompare a b = Some c -> a <> S754_nan /\ b <> S754_nan.
Proof.
  destruct a as [[|]|[|]| |[|] ? ?], b as [[|]|[|]| |[|] ? ?];
    cbn; intros H; split; congruence.
Qed.

Lemma is_nan_false (x : float) :
  is_nan x = false <-> Prim2SF x <> S754_nan.
Proof.
  unfold is_nan. rewrite eqb_spec. unfold SFeqb. split.
  - intros H E. rewrite E in H. discriminate.
  - intros H. rewrite (SFcompare_refl _ H). reflexivity.
Qed.

Lemma ltb_true (x y : float) :
  (x <? y)%float = true <-> SFcompare (Prim2SF x) (Prim2SF y) = Some Lt.
Proof.
  rewrite ltb_spec. unfold SFltb.
  destruct (SFcompare (Prim2SF x) (Prim2SF y)) as [[ | | ]|];
    split; congruence.
Qed.

Lemma leb_true (x y : float) :
  (x <=? y)%float = true <->
  SFcompare (Prim2SF x) (Prim2SF y) = Some Lt
  \/ SFcompare (Prim2SF x) (Prim2SF y) = Some Eq.
Proof.
  rewrite leb_spec. unfold SFleb.
  destruct (SFcompare (Prim2SF x) (Prim2SF y)) as [[ | | ]|];
    split; intros H; auto; try discriminate; destruct H; discriminate.
Qed.

Lemma ltb_trans (x y z : float) :
  (x <? y)%float = true -> (y <? z)%float = true -> (x <? z)%float = true.
Proof. rewrite !ltb_true. apply SFcompare_lt_trans. Qed.

Lemma ltb_leb (x y : float) :
  (x <? y)%float = true -> (x <=? y)%float = true.
Proof. rewrite ltb_true, leb_true. auto. Qed.

Lemma leb_trans (x y z : float) :
  (x <=? y)%float = true -> (y <=? z)%float = true -> (x <=? z)%float = true.
Proof.
  rewrite !leb_true. intros [H1 | H1] [H2 | H2].
  - left. eapply SFcompare_lt_trans; eauto.
  - left. eapply SFcompare_lt_eq; eauto.
  - left. eapply SFcompare_eq_lt; eauto.
  - right. eapply SFcompare_eq_trans; eauto.
Qed.

Lemma leb_refl (x : float) : is_nan x = false -> (x <=? x)%float = true.
Proof.
  rewrite is_nan_false, leb_true. intros H. right.
  now apply SFcompare_refl.
Qed.

Lemma ltb_not_nan (x y : float) :
  (x <? y)%float = true -> is_nan x = false /\ is_nan y = false.
Proof.
  rewrite ltb_true, !is_nan_false. apply SFcompare_nan.
Qed.

Lemma leb_not_nan (x y : float) :
  (x <=? y)%float = true -> is_nan x = false /\ is_nan y = false.
Proof.
  rewrite leb_true, !is_nan_false.
  intros [H | H]; apply SFcompare_nan in H; exact H.
Qed.

(** Two numbers are comparable: when neither is below the other they are
    equal as numbers. *)
Lemma not_ltb_leb (x y : float) :
  is_nan x = false -> is_nan y = false ->
  (x <? y)%float = false -> (y <=? x)%float = true.
Proof.
  rewrite !is_nan_false. intros Hx Hy Hlt.
  destruct (SFcompare_total _ _ Hx Hy) as [c Hc].
  apply leb_true. destruct c.
  - right. now apply SFcompare_eq_sym.
  - apply ltb_true in Hc. congruence.
  - left. now apply SFcompare_gt_lt.
Qed.

Lemma ltb_irrefl_leb (x y : float) :
  (x <=? y)%float = true -> (y <? x)%float = false.
Proof.
  intros H. destruct (y <? x)%float eqn:E; [|reflexivity].
  apply ltb_true in E. apply leb_true in H.
  exfalso. destruct H as [H | H].
  - pose proof (SFcompare_lt_trans _ _ _ H E) as C.
    destruct (SFcompare_nan _ _ _ H) as [Hx _].
    rewrite (SFcompare_refl _ Hx) in C. discriminate.
  - pose proof (SFcompare_eq_lt _ _ _ H E) as C.
    destruct (SFcompare_nan _ _ _ H) as [Hx _].
    rewrite (SFcompare_refl _ Hx) in C. discriminate.
Qed.

Lemma ltb_irrefl (x : float) : (x <? x)%float = false.
Proof.
  destruct (is_nan x) eqn:E.
  - destruct (x <? x)%float eqn:L; [|reflexivity].
    apply ltb_not_nan in L. destruct L. congruence.
  - apply ltb_irrefl_leb. now apply leb_refl.
Qed.

Lemma leb_ltb_trans (x y z : float) :
  (x <=? y)%float = true -> (y <? z)%float = true -> (x <? z)%float = true.
Proof.
  rewrite leb_true, !ltb_true. intros [H | H] L.
  - eapply SFcompare_lt_trans; eauto.
  - eapply SFcompare_eq_lt; eauto.
Qed.

(** Nothing is above [Infinity]. *)
Lemma ltb_infinity (x : float) : (infinity <? x)%float = false.
Proof.
  rewrite ltb_spec. change (Prim2SF infinity) with (S754_infinity false).
  destruct (Prim2SF x) as [[|]|[|]| |[|] ? ?]; reflexivity.
Qed.

(** [Math.max] and [Math.min] return one of their arguments, the larger and
    the smaller, unless one of them is NaN. *)
Lemma Math_max_not_nan (a b : float) :
  is_nan (Math_max a b) = false -> is_nan a = false /\ is_nan b = false.
Proof.
  unfold Math_max. destruct (is_nan a) eqn:Ea, (is_nan b) eqn:Eb; cbn;
    intros H; auto; discriminate.
Qed.

Lemma Math_min_not_nan (a b : float) :
  is_nan (Math_min a b) = false -> is_nan a = false /\ is_nan b = false.
Proof.
  unfold Math_min. destruct (is_nan a) eqn:Ea, (is_nan b) eqn:Eb; cbn;
    intros H; auto; discriminate.
Qed.

Lemma Math_max_cases (a b : float) :
  is_nan a = false -> is_nan b = false ->
  (Math_max a b = a /\ (b <=? a)%float = true)
  \/ (Math_max a b = b /\ (a <=? b)%float = true).
Proof.
  intros Ha Hb. unfold Math_max. rewrite Ha, Hb. cbn [orb].
  destruct (a <? b)%float eqn:E1.
  - right. split; [reflexivity | now apply ltb_leb].
  - destruct (b <? a)%float eqn:E2.
    + left. split; [reflexivity | now apply ltb_leb].
    + destruct (get_sign a).
      * right. split; [reflexivity | now apply not_ltb_leb].
      * left. split; [reflexivity | now apply not_ltb_leb].
Qed.

Lemma Math_min_cases (a b : float) :
  is_nan a = false -> is_nan b = false ->
  (Math_min a b = a /\ (a <=? b)%float = true)
  \/ (Math_min a b = b /\ (b <=? a)%float = true).
Proof.
  intros Ha Hb. unfold Math_min. rewrite Ha, Hb. cbn [orb].
  destruct (a <? b)%float eqn:E1.
  - left. split; [reflexivity | now apply ltb_leb].
  - destruct (b <? a)%float eqn:E2.
    + right. split; [reflexivity | now apply ltb_leb].
    + destruct (get_sign a).
      * left. split; [reflexivity | now apply not_ltb_leb].
      * right. split; [reflexivity | now apply not_ltb_leb].
Qed.

Lemma Math_max_is_number (a b : float) :
  is_nan a = false -> is_nan b = false -> is_nan (Math_max a b) = false.
Proof.
  intros Ha Hb.
  destruct (Math_max_cases a b Ha Hb) as [[-> _] | [-> _]]; assumption.
Qed.

Lemma Math_max_ge_l (a b : float) :
  is_nan a = false -> is_nan b = false -> (a <=? Math_max a b)%float = true.
Proof.
  intros Ha Hb.
  destruct (Math_max_cases a b Ha Hb) as [[-> _] | [-> H]];
    [now apply leb_refl | exact H].
Qed.

Lemma Math_max_ge_r (a b : float) :
  is_nan a = false -> is_nan b = false -> (b <=? Math_max a b)%float = true.
Proof.
  intros Ha Hb.
  destruct (Math_max_cases a b Ha Hb) as [[-> H] | [-> _]];
    [exact H | now apply leb_refl].
Qed.

Lemma Math_min_le_l (a b : float) :
  is_nan a = false -> is_nan b = false -> (Math_min a b <=? a)%float = true.
Proof.
  intros Ha Hb.
  destruct (Math_min_cases a b Ha Hb) as [[-> _] | [-> H]];
    [now apply leb_refl | exact H].
Qed.

Lemma Math_max_lub (a b c : float) :
  (a <=? c)%float = true -> (b <=? c)%float = true ->
  (Math_max a b <=? c)%float = true.
Proof.
  intros Ha Hb.
  destruct (leb_not_nan _ _ Ha) as [Na _].
  destruct (leb_not_nan _ _ Hb) as [Nb _].
  destruct (Math_max_cases a b Na Nb) as [[-> _] | [-> _]]; assumption.
Qed.

End FloatOrder.

(** ** Loops *)

Module Loops.
Import JS.

(** Split a conjunction of closed facts into its parts, without reducing
    them. *)
Ltac split_all :=
  repeat match goal with |- _ /\ _ => split end.

(** An invariant indexed by the number of iterations done. *)
Lemma iterate_inv {St : Type} (P : nat -> St -> Prop) (n : nat) (i step : Z)
      (body : Z -> St -> St) (s : St) :
  P O s ->
  (forall k s, (k < n)%nat -> P k s ->
               P (S k) (body (i + Z.of_nat k * step) s)) ->
  P n (iterate n i step body s).
Proof.
  revert P i s. induction n as [|n IH]; intros P i s H0 Hstep; cbn.
  - exact H0.
  - apply (IH (fun k => P (S k))).
    + replace i with (i + Z.of_nat 0 * step) at 1 by (cbn; lia).
      apply Hstep; [lia | exact H0].
    + intros k s' Hk HP.
      replace (i + step + Z.of_nat k * step)
        with (i + Z.of_nat (S k) * step) by lia.
      apply Hstep; [lia | exact HP].
Qed.

(** The indices that a stepped loop visits are below its bound. *)
Lemma trips_bound (lo hi step : Z) (k : nat) :
  0 < step -> (k < trips lo hi step)%nat -> lo + Z.of_nat k * step < hi.
Proof.
  unfold trips. intros Hs Hk.
  assert (Hq : Z.of_nat k + 1 <= (hi - lo + step - 1) / step) by lia.
  pose proof (Z.mul_div_le (hi - lo + step - 1) step Hs).
  nia.
Qed.

(** Every stepped index below the bound is visited. *)
Lemma trips_complete (lo hi step : Z) (k : nat) :
  0 < step -> lo + Z.of_nat k * step < hi -> (k < trips lo hi step)%nat.
Proof.
  unfold trips. intros Hs Hk.
  assert (Hq : Z.of_nat k + 1 <= (hi - lo + step - 1) / step).
  { apply Z.div_le_lower_bound; [exact Hs | nia]. }
  lia.
Qed.

Lemma for_step_ind {St : Type} (P : St -> Prop) (lo hi step : Z)
      (body : Z -> St -> St) (s : St) :
  0 < step ->
  P s ->
  (forall i s, lo <= i < hi -> (i - lo) mod step = 0 -> P s -> P (body i s)) ->
  P (for_step lo hi step body s).
Proof.
  intros Hs H0 Hstep. unfold for_step.
  apply (iterate_inv (fun _ => P)); [exact H0|].
  intros k s' Hk HP. apply Hstep; [| | exact HP].
  - pose proof (trips_bound _ _ _ _ Hs Hk). nia.
  - replace (lo + Z.of_nat k * step - lo) with (Z.of_nat k * step) by lia.
    apply Z.mod_mul. lia.
Qed.

Lemma for_range_ind {St : Type} (P : St -> Prop) (lo hi : Z)
      (body : Z -> St -> St) (s : St) :
  P s ->
  (forall i s, lo <= i < hi -> P s -> P (body i s)) ->
  P (for_range lo hi body s).
Proof.
  intros H0 Hstep. unfold for_range.
  apply for_step_ind; [lia | exact H0 |].
  intros i s' Hi _. now apply Hstep.
Qed.

Lemma for_step_empty {St : Type} (lo hi step : Z) (body : Z -> St -> St)
      (s : St) :
  0 < step -> hi <= lo -> for_step lo hi step body s = s.
Proof.
  intros Hs Hle. unfold for_step, trips.
  replace (Z.to_nat ((hi - lo + step - 1) / step)) with O; [reflexivity|].
  assert ((hi - lo + step - 1) / step <= 0); [|lia].
  apply Z.lt_succ_r. apply Z.div_lt_upper_bound; lia.
Qed.

End Loops.

(** ** The loop-point optimizer *)

Module OptimizerProps.
Import JS Types AudioProcessing FloatOrder Loops.

(** *** The zero-crossing locator *)

(** What the scan of [findNearestZeroCrossing] establishes: the result is the
    target itself or a crossing among the indices that the loop visits, which
    stop two short of [min(length - 1, target + radius)]. *)
Lemma findNearestZeroCrossing_scanned (audioData : Float32Array)
      (targetSample searchRadius : Z) :
  let r := findNearestZeroCrossing audioData targetSample searchRadius in
  r = targetSample
  \/ (Z.max 0 (targetSample - searchRadius) <= r
      /\ r < Z.min (len audioData - 1) (targetSample + searchRadius) - 1
      /\ isCrossing (get audioData r) (get audioData (r + 1)) = true).
Proof.
  cbv zeta. unfold findNearestZeroCrossing.
  apply (for_range_ind
           (fun best : Z * float =>
              fst best = targetSample
              \/ (Z.max 0 (targetSample - searchRadius) <= fst best
                  /\ fst best
                     < Z.min (len audioData - 1) (targetSample + searchRadius) - 1
                  /\ isCrossing (get audioData (fst best))
                                (get audioData (fst best + 1)) = true))).
  - left. reflexivity.
  - intros i best Hi IH. unfold zeroCrossingStep.
    destruct (isCrossing (get audioData i) (get audioData (i + 1))) eqn:Hc;
      [|exact IH].
    match goal with |- context [if ?c then _ else _] => destruct c end;
      [|exact IH].
    right. cbn [fst]. repeat split; try lia. exact Hc.
Qed.

(** Without a crossing among the visited indices the target comes back. *)
Lemma findNearestZeroCrossing_none (audioData : Float32Array)
      (targetSample searchRadius : Z) :
  (forall i,
      Z.max 0 (targetSample - searchRadius) <= i
      < Z.min (len audioData - 1) (targetSample + searchRadius) - 1 ->
      isCrossing (get audioData i) (get audioData (i + 1)) = false) ->
  findNearestZeroCrossing audioData targetSample searchRadius = targetSample.
Proof.
  intros Hnone.
  destruct (findNearestZeroCrossing_scanned audioData targetSample searchRadius)
    as [H | (H1 & H2 & H3)]; [exact H|].
  rewrite Hnone in H3 by lia. discriminate.
Qed.

Lemma findNearestZeroCrossing_range (audioData : Float32Array)
      (targetSample searchRadius : Z) :
  0 <= targetSample <= len audioData ->
  0 <= findNearestZeroCrossing audioData targetSample searchRadius
    <= len audioData.
Proof.
  intros Ht.
  destruct (findNearestZeroCrossing_scanned audioData targetSample searchRadius)
    as [H | (H1 & H2 & _)]; lia.
Qed.

Lemma findNearestZeroCrossing_range_strict (audioData : Float32Array)
      (targetSample searchRadius : Z) :
  0 <= targetSample <= len audioData - 1 ->
  0 <= findNearestZeroCrossing audioData targetSample searchRadius
    <= len audioData - 1.
Proof.
  intros Ht.
  destruct (findNearestZeroCrossing_scanned audioData targetSample searchRadius)
    as [H | (H1 & H2 & _)]; lia.
Qed.

(** *** The volume matcher and the phase correlator: where the end can land *)

Lemma findVolumeMatchedPoints_scanned (audioData : Float32Array)
      (startSample endSample searchRadius : Z) :
  let r :=
    snd (findVolumeMatchedPoints audioData startSample endSample searchRadius) in
  r = endSample
  \/ volumeSearchStart startSample endSample searchRadius <= r
     < volumeSearchEnd audioData endSample searchRadius.
Proof.
  cbv zeta. unfold findVolumeMatchedPoints. cbn [snd].
  apply (for_step_ind
           (fun best : Z * float =>
              fst best = endSample
              \/ volumeSearchStart startSample endSample searchRadius
                 <= fst best
                 < volumeSearchEnd audioData endSample searchRadius));
    [lia | now left |].
  intros i best Hi _ IH. unfold volumeStep.
  match goal with |- context [if ?c then _ else _] => destruct c end;
    [right; exact Hi | exact IH].
Qed.

Lemma findPhaseMatchedPoint_scanned (audioData : Float32Array)
      (startSample endSample searchRadius : Z) :
  let r := findPhaseMatchedPoint audioData startSample endSample searchRadius in
  r = endSample
  \/ phaseSearchStart startSample endSample searchRadius <= r
     < phaseSearchEnd audioData endSample searchRadius.
Proof.
  cbv zeta. unfold findPhaseMatchedPoint.
  apply (for_step_ind
           (fun best : Z * float =>
              fst best = endSample
              \/ phaseSearchStart startSample endSample searchRadius
                 <= fst best
                 < phaseSearchEnd audioData endSample searchRadius));
    [lia | now left |].
  intros i best Hi _ IH. unfold phaseStep.
  match goal with |- context [if ?c then _ else _] => destruct c end;
    [right; exact Hi | exact IH].
Qed.

(** *** The analysis copy *)

Lemma removeDCOffset_length (data : Float32Array) :
  len (removeDCOffset data) = len data.
Proof.
  unfold removeDCOffset, len.
  match goal with |- context [if ?c then _ else _] => destruct c end;
    [reflexivity | now rewrite length_map].
Qed.

(** *** The pipeline *)

Lemma optimizeOn_bounds (audioData : Float32Array) (rate : float)
      (loopPoints : LoopPoints) (requested : float) :
  0 <= floorZ (start loopPoints * rate)%float <= len audioData - 1 ->
  0 <= floorZ (end_ loopPoints * rate)%float <= len audioData ->
  let r := optimizeOn audioData rate loopPoints requested in
  0 <= startSample r <= len audioData - 1
  /\ 0 <= endSample r <= len audioData.
Proof.
  intros Hs He. cbv zeta. unfold optimizeOn. cbn [startSample endSample].
  set (s0 := floorZ (start loopPoints * rate)%float) in *.
  set (e0 := floorZ (end_ loopPoints * rate)%float) in *.
  pose proof (findNearestZeroCrossing_range_strict audioData s0 2000 Hs) as H1.
  set (s1 := findNearestZeroCrossing audioData s0 2000) in *.
  pose proof (findNearestZeroCrossing_range audioData e0 2000 He) as H2.
  set (e1 := findNearestZeroCrossing audioData e0 2000) in *.
  pose proof (findVolumeMatchedPoints_scanned audioData s1 e1 5000) as H3.
  cbv zeta in H3.
  set (e2 := snd (findVolumeMatchedPoints audioData s1 e1 5000)) in *.
  assert (He2 : 0 <= e2 <= len audioData).
  { unfold volumeSearchStart, volumeSearchEnd in H3. lia. }
  pose proof (findNearestZeroCrossing_range audioData e2 500 He2) as H4.
  set (e3 := findNearestZeroCrossing audioData e2 500) in *.
  pose proof (findPhaseMatchedPoint_scanned audioData s1 e3 2000) as H5.
  cbv zeta in H5.
  set (e4 := findPhaseMatchedPoint audioData s1 e3 2000) in *.
  assert (He4 : 0 <= e4 <= len audioData).
  { unfold phaseSearchStart, phaseSearchEnd in H5. lia. }
  pose proof (findNearestZeroCrossing_range audioData e4 200 He4) as H6.
  split; assumption.
Qed.

End OptimizerProps.

(** ** Claims about the optimizer *)

Module OptimizerClaims.
Import JS Types AudioProcessing Spec FloatOrder Loops OptimizerProps.







(** C3.  The scan misses the crossings at the end of its window: in
    [lateCrossing] = [1, 1, 1, -1] the pair at index 2 changes sign one sample
    away from the target 1, well within the radius 2000, and the locator
    returns the target 1, where no sign changes.  In [edgeOfRadius] the only
    crossing, at index 7, is two samples from the target 5 and within the
    radius 3, away from the end of the buffer, and the target comes back as
    well. *)
Theorem findNearestZeroCrossing_misses_last_pair :
  (isCrossing (get lateCrossing 2) (get lateCrossing 3) = true
   /\ Z.abs (2 - 1) <= 2000
   /\ findNearestZeroCrossing lateCrossing 1 2000 = 1
   /\ isCrossing (get lateCrossing 1) (get lateCrossing 2) = false)
  /\ (isCrossing (get edgeOfRadius 7) (get edgeOfRadius 8) = true
      /\ Z.abs (7 - 5) <= 3
      /\ findNearestZeroCrossing edgeOfRadius 5 3 = 5
      /\ isCrossing (get edgeOfRadius 5) (get edgeOfRadius 6) = false).
Proof. split_all; vm_compute; congruence. Qed.

(** C9.  [calculateRMS] divides by [end - startSample] as it is: a window that
    starts at the end of the buffer has a zero count and the result is NaN,
    where the sibling [averageAbsoluteDerivative], which floors its count at
    1, returns 0. *)
Theorem calculateRMS_zero_window_is_NaN :
  is_nan (calculateRMS [0.5%float] 1 2048) = true
  /\ is_nan (calculateRMS alternating 2 0) = true
  /\ averageAbsoluteDerivative [0.5%float] 1 2048 = 0%float.
Proof. split_all; vm_compute; reflexivity. Qed.

End OptimizerClaims.

(** ** The volume matcher and the phase correlator *)

Module ScanClaims.
Import JS Types AudioProcessing Spec FloatOrder Loops OptimizerProps.

(** The state of the volume scan after [k] candidates: either nothing was
    selected and the minimum is still [Infinity], or the best end is one of the
    candidates seen and the minimum is its difference; no candidate seen is
    strictly below the minimum. *)
Lemma volume_scan_invariant (diff : Z -> float) (lo endSample : Z) (n : nat) :
  let st := iterate n lo 100 (volumeStep diff) (endSample, Infinity) in
  ((fst st = endSample /\ snd st = Infinity)
   \/ (exists j, (j < n)%nat /\ fst st = lo + Z.of_nat j * 100
                 /\ snd st = diff (fst st)))
  /\ (forall j, (j < n)%nat ->
                (diff (lo + Z.of_nat j * 100)%Z <? snd st)%float = false).
Proof.
  cbv zeta.
  apply (iterate_inv
           (fun k (st : Z * float) =>
              ((fst st = endSample /\ snd st = Infinity)
               \/ (exists j, (j < k)%nat /\ fst st = lo + Z.of_nat j * 100
                             /\ snd st = diff (fst st)))
              /\ (forall j, (j < k)%nat ->
                            (diff (lo + Z.of_nat j * 100)%Z <? snd st)%float
                            = false))).
  - split; [left; split; reflexivity | intros j Hj; lia].
  - intros k [best m] Hk [Hsel Hmin]. cbn [fst snd] in *.
    unfold volumeStep. cbn [snd].
    destruct (diff (lo + Z.of_nat k * 100)%Z <? m)%float eqn:Hlt; cbn [fst snd].
    + split.
      * right. exists k. repeat split; lia.
      * intros j Hj. assert (Hc : (j < k)%nat \/ j = k) by lia.
        destruct Hc as [Hc | ->]; [|apply ltb_irrefl].
        destruct (diff (lo + Z.of_nat j * 100)%Z
                  <? diff (lo + Z.of_nat k * 100)%Z)%float eqn:E;
          [|reflexivity].
        specialize (Hmin j Hc).
        rewrite (ltb_trans _ _ _ E Hlt) in Hmin. discriminate.
    + split.
      * destruct Hsel as [Hsel | (j & Hj & Hb & Hm)]; [left; exact Hsel|].
        right. exists j. repeat split; try assumption. lia.
      * intros j Hj. assert (Hc : (j < k)%nat \/ j = k) by lia.
        destruct Hc as [Hc | ->]; [now apply Hmin | exact Hlt].
Qed.


(** The state of the phase scan: the maximum is [-Infinity] with nothing
    selected, or the correlation of the selected candidate, which is then a
    number. *)
Lemma phase_scan_invariant (correlation : Z -> float) (lo endSample : Z)
      (n : nat) :
  let st := iterate n lo 50 (phaseStep correlation) (endSample, neg_infinity) in
  (fst st = endSample /\ snd st = neg_infinity)
  \/ (exists j, (j < n)%nat /\ fst st = lo + Z.of_nat j * 50
                /\ snd st = correlation (fst st)
                /\ is_nan (correlation (fst st)) = false).
Proof.
  cbv zeta.
  apply (iterate_inv
           (fun k (st : Z * float) =>
              (fst st = endSample /\ snd st = neg_infinity)
              \/ (exists j, (j < k)%nat /\ fst st = lo + Z.of_nat j * 50
                            /\ snd st = correlation (fst st)
                            /\ is_nan (correlation (fst st)) = false))).
  - left. split; reflexivity.
  - intros k [best m] Hk IH. cbn [fst snd] in *.
    unfold phaseStep. cbn [snd].
    destruct (m <? correlation (lo + Z.of_nat k * 50)%Z)%float eqn:Hlt;
      cbn [fst snd].
    + right. exists k. repeat split; try lia.
      now apply ltb_not_nan in Hlt.
    + destruct IH as [IH | (j & Hj & Hb & Hm & Hn)]; [left; exact IH|].
      right. exists j. repeat split; try assumption. lia.
Qed.

(** C5.  [findPhaseMatchedPoint] never selects a candidate whose correlation
    is NaN: it returns the original end, or a stepped candidate of the scanned
    range whose [crossCorrelation] with the start window is a number. *)
Theorem findPhaseMatchedPoint_skips_NaN (audioData : Float32Array)
        (startSample endSample searchRadius : Z) :
  let searchStart := phaseSearchStart startSample endSample searchRadius in
  let searchEnd := phaseSearchEnd audioData endSample searchRadius in
  let r := findPhaseMatchedPoint audioData startSample endSample searchRadius in
  r = endSample
  \/ (searchStart <= r < searchEnd
      /\ (r - searchStart) mod 50 = 0
      /\ is_nan (crossCorrelation audioData startSample r 1024) = false).
Proof.
  cbv zeta. unfold findPhaseMatchedPoint, for_step.
  set (lo := phaseSearchStart startSample endSample searchRadius).
  set (hi := phaseSearchEnd audioData endSample searchRadius).
  destruct (phase_scan_invariant
              (fun i => crossCorrelation audioData startSample i 1024)
              lo endSample (trips lo hi 50))
    as [[Hb _] | (j & Hj & Hb & _ & Hn)].
  - left. exact Hb.
  - right. pose proof (trips_bound lo hi 50 j ltac:(lia) Hj).
    rewrite Hb in *. repeat split; try lia; [|exact Hn].
    replace (lo + Z.of_nat j * 50 - lo) with (Z.of_nat j * 50) by lia.
    apply Z.mod_mul. lia.
Qed.

End ScanClaims.

(** ** The adaptive crossfade sizer *)

Module SizerClaims.
Import JS Types AudioProcessing Spec FloatOrder.

(** [clamp] returns a number between its lower bound and the larger of its
    two bounds (the lower bound wins when the bounds cross). *)
Lemma clamp_bounds (value lo hi : float) :
  is_nan (clamp value lo hi) = false ->
  (lo <=? clamp value lo hi)%float = true
  /\ (clamp value lo hi <=? Math_max lo hi)%float = true.
Proof.
  unfold clamp. intros Hn.
  destruct (Math_max_not_nan _ _ Hn) as [Hlo Hmin].
  destruct (Math_min_not_nan _ _ Hmin) as [Hhi Hv].
  split; [now apply Math_max_ge_l|].
  destruct (Math_max_cases lo (Math_min hi value) Hlo Hmin) as [[-> _] | [-> _]].
  - now apply Math_max_ge_l.
  - apply leb_trans with hi;
      [now apply Math_min_le_l | now apply Math_max_ge_r].
Qed.

(** C6, as amended.  Whenever the value returned by
    [getAdaptiveCrossfadeDuration] is a number, it is at least 0.01 and at
    most the largest of 0.01, [min(0.015, loopDuration * 0.2)] and
    [min(0.15, loopDuration * 0.45)]: the floor of 0.01 takes precedence over
    the upper bound.  When [loopDuration * 0.45] is at least 0.015 the upper
    bound is [min(0.15, loopDuration * 0.45)] itself. *)
Theorem getAdaptiveCrossfadeDuration_bounds (audioData : Float32Array)
        (startSample endSample : Z) (sampleRate requestedDuration : float) :
  let loopDuration :=
    (Number_ofZ (Z.max 1 (endSample - startSample)) / sampleRate)%float in
  let minDuration := Math_min 0.015 (loopDuration * 0.2)%float in
  let maxDuration := Math_min 0.15 (loopDuration * 0.45)%float in
  let r :=
    getAdaptiveCrossfadeDuration audioData startSample endSample sampleRate
      requestedDuration in
  is_nan r = false ->
  (0.01 <=? r)%float = true
  /\ (r <=? Math_max (Math_max 0.01 minDuration)
                     (Math_max minDuration maxDuration))%float = true
  /\ ((0.015 <=? loopDuration * 0.45)%float = true ->
      (r <=? maxDuration)%float = true).
Proof.
  cbv zeta. unfold getAdaptiveCrossfadeDuration. cbv zeta.
  set (loopDuration :=
         (Number_ofZ (Z.max 1 (endSample - startSample)) / sampleRate)%float).
  set (minDuration := Math_min 0.015 (loopDuration * 0.2)%float).
  set (maxDuration := Math_min 0.15 (loopDuration * 0.45)%float).
  match goal with
  | |- is_nan (clamp ?v _ _) = false -> _ => generalize v
  end.
  intros v Hn. destruct (clamp_bounds _ _ _ Hn) as [Hlo Hhi].
  destruct (leb_not_nan _ _ Hlo) as [Hl _].
  destruct (Math_max_not_nan _ _ Hl) as [H1 H2].
  split; [|split; [exact Hhi|]].
  - apply leb_trans with (Math_max 0.01 minDuration); [|exact Hlo].
    now apply Math_max_ge_l.
  - intros Hlong.
    destruct (leb_not_nan _ _ Hlong) as [_ Np].
    assert (N15 : is_nan 0.15%float = false) by reflexivity.
    assert (Hmax : (0.015 <=? maxDuration)%float = true).
    { unfold maxDuration.
      destruct (Math_min_cases 0.15 (loopDuration * 0.45)%float N15 Np)
        as [[-> _] | [-> _]]; [reflexivity | exact Hlong]. }
    assert (Hmin : (minDuration <=? 0.015)%float = true).
    { destruct (Math_min_not_nan _ _ H2) as [Na Nb].
      now apply Math_min_le_l. }
    assert (Hmm : (minDuration <=? maxDuration)%float = true)
      by (now apply leb_trans with 0.015%float).
    destruct (leb_not_nan _ _ Hmax) as [_ Nmax].
    apply leb_trans with (1 := Hhi).
    apply Math_max_lub; apply Math_max_lub;
      try exact Hmm; try (now apply leb_refl).
    apply leb_trans with 0.015%float; [reflexivity | exact Hmax].
Qed.

End SizerClaims.

(** ** The store of the crossfade module *)

Module StoreProps.
Import JS Types Crossfade.

Lemma set_nth_length (n : nat) (v : float) (a : Float32Array) :
  length (set_nth n v a) = length a.
Proof.
  revert n. induction a as [|x a IH]; intros [|n]; cbn; auto.
Qed.

Lemma set_length (a : Float32Array) (i : Z) (v : float) :
  len (set a i v) = len a.
Proof.
  unfold set, len. destruct (i <? 0); [reflexivity|].
  now rewrite set_nth_length.
Qed.

Lemma lengths_update (l : loc) (f : Float32Array -> Float32Array)
      (h : list Float32Array) :
  (forall a, len (f a) = len a) -> lengths (update l f h) = lengths h.
Proof.
  intros Hf. revert l. induction h as [|a h IH]; intros [|l]; cbn; auto.
  - now rewrite Hf.
  - unfold lengths in IH. now rewrite IH.
Qed.

Lemma update_beyond (l : loc) (f : Float32Array -> Float32Array)
      (h0 extra : list Float32Array) :
  (length h0 <= l)%nat ->
  update l f (h0 ++ extra) = h0 ++ update (l - length h0)%nat f extra.
Proof.
  revert l. induction h0 as [|a h0 IH]; intros l Hl; cbn in *.
  - now rewrite Nat.sub_0_r.
  - destruct l as [|l]; [lia|]. cbn. now rewrite IH by lia.
Qed.

Lemma lengthAt_nonneg (h : list Float32Array) (l : loc) :
  0 <= lengthAt (lengths h) l.
Proof.
  unfold lengthAt, lengths.
  destruct (nth_in_or_default l (map len h) 0) as [H | ->]; [|lia].
  apply in_map_iff in H. destruct H as (a & <- & _). unfold len. lia.
Qed.

Lemma lengthAt_lengths (h : list Float32Array) (l : loc) :
  lengthAt (lengths h) l = len (array h l).
Proof.
  unfold lengthAt, lengths, array.
  change 0 with (len []). apply map_nth.
Qed.

(** The seam window never exceeds the array: below 2048 samples by
    evaluation of the floating-point product at every length, from there on
    by the cap. *)
Lemma seamWindowOf_small :
  forallb (fun k => seamWindowOf (Z.of_nat k) <=? Z.of_nat k) (seq 0 2048)
  = true.
Proof. vm_compute. reflexivity. Qed.

Lemma seamWindowOf_le (n : Z) : 0 <= n -> seamWindowOf n <= n.
Proof.
  intros Hn. destruct (Z_lt_le_dec n 2048) as [Hs | Hb].
  - pose proof seamWindowOf_small as H.
    rewrite forallb_forall in H.
    specialize (H (Z.to_nat n)).
    rewrite Z2Nat.id in H by exact Hn.
    apply Z.leb_le, H, in_seq. lia.
  - unfold seamWindowOf. lia.
Qed.

Section Good.

Variable perm : access -> Prop.
Variable L : list Z.
Variable h0 : list Float32Array.
Hypothesis perm_store : forall l i, perm (Store l i) -> (length h0 <= l)%nat.
Hypothesis L_nonneg : forall l, 0 <= lengthAt L l.

Lemma good_ret {A : Type} (a : A) : preserves (good perm L h0) (ret a).
Proof. intros s H. exact H. Qed.

Lemma good_bind {A B : Type} (m : M A) (f : A -> M B) :
  preserves (good perm L h0) m -> (forall a, preserves (good perm L h0) (f a)) ->
  preserves (good perm L h0) (bind m f).
Proof.
  intros Hm Hf s H. unfold bind.
  specialize (Hm s H). destruct (m s) as [a s']. now apply Hf.
Qed.

Lemma good_load (l : loc) (i : Z) :
  perm (Load l i) -> preserves (good perm L h0) (load l i).
Proof.
  intros Hp s (HL & Ht & He). unfold good, load.
  cbn [snd heap trace]. split; [exact HL|].
  split; [constructor; assumption | exact He].
Qed.

Lemma good_store (l : loc) (i : Z) (v : float) :
  perm (Store l i) -> preserves (good perm L h0) (store l i v).
Proof.
  intros Hp s (HL & Ht & extra & He). unfold good, store.
  cbn [snd heap trace]. repeat split.
  - rewrite lengths_update; [exact HL|]. intros a. apply set_length.
  - constructor; assumption.
  - rewrite He. rewrite update_beyond by (now apply perm_store with i).
    eauto.
Qed.

(** [data.length] under [good] is the length recorded in [L]. *)
Lemma good_lengthOf {A : Type} (data : loc) (k : Z -> M A) :
  preserves (good perm L h0) (k (lengthAt L data)) ->
  preserves (good perm L h0) (bind (lengthOf data) k).
Proof.
  intros Hk s H. unfold bind, lengthOf.
  destruct H as (HL & Ht & He) eqn:E.
  rewrite <- lengthAt_lengths, HL. apply Hk. exact H.
Qed.

Lemma good_loopM {A : Type} (n : nat) (i : Z) (body : Z -> A -> M A) (a : A) :
  (forall k a, i <= k < i + Z.of_nat n -> preserves (good perm L h0) (body k a)) ->
  preserves (good perm L h0) (loopM n i body a).
Proof.
  revert i a. induction n as [|n IH]; intros i a Hb; cbn [loopM].
  - apply good_ret.
  - apply good_bind; [apply Hb; lia|].
    intros a'. apply IH. intros k a'' Hk. apply Hb. lia.
Qed.

Lemma good_forM {A : Type} (lo hi : Z) (body : Z -> A -> M A) (a : A) :
  (forall k a, lo <= k < hi -> preserves (good perm L h0) (body k a)) ->
  preserves (good perm L h0) (forM lo hi body a).
Proof.
  intros Hb. unfold forM. apply good_loopM.
  intros k a' Hk. apply Hb. lia.
Qed.

(** *** The helpers and the sub-steps, access by access *)

Ltac walk :=
  repeat first
    [ apply good_ret
    | apply good_load
    | apply good_store
    | apply good_bind; [|intros ?]
    | apply good_forM; intros ? ? ? ].

Variables Math_sin Math_cos : float -> float.

Lemma good_removeDCOffsetInPlace (data : loc) :
  (forall i, 0 <= i < lengthAt L data ->
             perm (Load data i) /\ perm (Store data i)) ->
  preserves (good perm L h0) (removeDCOffsetInPlace data).
Proof.
  intros Hp. unfold removeDCOffsetInPlace. apply good_lengthOf.
  apply good_bind.
  - walk; now apply Hp.
  - intros sum.
    match goal with |- context [if ?c then _ else _] => destruct c end;
      walk; now apply Hp.
Qed.

Lemma good_getSegmentMean (data : loc) (start length : Z) :
  (forall i, 0 <= i < lengthAt L data -> perm (Load data i)) ->
  preserves (good perm L h0) (getSegmentMean data start length).
Proof.
  intros Hp. unfold getSegmentMean. apply good_lengthOf.
  walk. apply Hp. lia.
Qed.

Lemma good_getAverageSlope (data : loc) (start length : Z) :
  0 <= start -> 2 <= length -> 2 <= lengthAt L data - start ->
  (forall i, 0 <= i < lengthAt L data -> perm (Load data i)) ->
  preserves (good perm L h0) (getAverageSlope data start length).
Proof.
  intros Hs Hl Hn Hp. unfold getAverageSlope. apply good_lengthOf.
  walk; apply Hp; lia.
Qed.

Lemma good_smoothPass (data : loc) (tailStart seamWindow : Z) :
  0 <= tailStart -> 4 <= seamWindow ->
  tailStart + seamWindow = lengthAt L data ->
  (forall i, 0 <= i < lengthAt L data ->
             perm (Load data i) /\ perm (Store data i)) ->
  preserves (good perm L h0) (smoothPass data tailStart seamWindow).
Proof.
  intros Ht Hw Hn Hp. unfold smoothPass.
  walk; apply Hp; lia.
Qed.

Lemma good_smoothLoopSeam (data : loc) :
  (forall i, 0 <= i < lengthAt L data ->
             perm (Load data i) /\ perm (Store data i)) ->
  preserves (good perm L h0) (smoothLoopSeam data).
Proof.
  intros Hp. unfold smoothLoopSeam. apply good_lengthOf.
  destruct (seamWindowOf (lengthAt L data) <? 4) eqn:Hw; [apply good_ret|].
  apply Z.ltb_ge in Hw.
  pose proof (seamWindowOf_le _ (L_nonneg data)) as Hle.
  assert (HpL : forall i, 0 <= i < lengthAt L data -> perm (Load data i))
    by (intros i Hi; now apply Hp).
  cbv zeta.
  apply good_bind; [apply good_getSegmentMean; exact HpL | intros ?].
  apply good_bind; [apply good_getSegmentMean; exact HpL | intros ?].
  apply good_bind;
    [apply good_forM; intros ? ? ?; walk; apply Hp; lia | intros ?].
  apply good_bind;
    [apply good_getAverageSlope; [lia | lia | lia | exact HpL] | intros ?].
  apply good_bind;
    [apply good_getAverageSlope; [lia | lia | lia | exact HpL] | intros ?].
  apply good_bind;
    [apply good_forM; intros ? ? ?; walk; apply Hp; lia | intros ?].
  apply good_forM; intros ? ? ?.
  apply good_smoothPass; [lia | lia | lia | exact Hp].
Qed.

Lemma good_processChannel (inputData outputData : loc)
      (startSample endSample fadeLength stitchLength : Z) (useHannFade : bool) :
  permitsChannel perm inputData outputData startSample endSample fadeLength
                 stitchLength (lengthAt L outputData) ->
  preserves (good perm L h0)
            (processChannel Math_sin Math_cos inputData outputData startSample
                            endSample fadeLength stitchLength useHannFade).
Proof.
  intros (Hcopy & Hhead & Hin & Hout & Htail & Hall).
  unfold processChannel. cbv zeta.
  apply good_bind; [unfold copySegment; walk; now apply Hcopy | intros _].
  apply good_bind; [unfold blendTailIntoHead; walk; now apply Hhead | intros _].
  apply good_bind; [unfold crossfadeHead; walk; now apply Hin | intros _].
  apply good_bind; [unfold crossfadeTail; walk; now apply Hout | intros _].
  apply good_bind; [unfold blendHeadIntoTail; walk; now apply Htail | intros _].
  apply good_bind; [now apply good_removeDCOffsetInPlace | intros _].
  now apply good_smoothLoopSeam.
Qed.

End Good.

End StoreProps.

(** ** Claims about the crossfade module *)

Module CrossfadeClaims.
Import JS Types Crossfade StoreProps.

Lemma allocChannels_run (k : nat) (length : Z) (s : state) :
  allocChannels k length s
  = (seq (Datatypes.length (heap s)) k,
     {| heap := heap s ++ repeat (repeat 0%float (Z.to_nat length)) k;
        trace := trace s |}).
Proof.
  revert s. induction k as [|k IH]; intros s; cbn [allocChannels].
  - unfold ret. cbn. rewrite app_nil_r. now destruct s.
  - unfold bind at 1. unfold alloc at 1. unfold bind at 1.
    rewrite IH. cbn [heap trace ret].
    rewrite length_app, Nat.add_1_r. cbn [seq repeat Datatypes.length].
    now rewrite <- app_assoc.
Qed.

Lemma createBuffer_run (channels length : Z) (rate : float) (s : state) :
  createBuffer channels length rate s
  = ({| sampleRate := rate; bufferLength := length;
        channelData := seq (Datatypes.length (heap s)) (Z.to_nat channels) |},
     {| heap := heap s
                ++ repeat (repeat 0%float (Z.to_nat length)) (Z.to_nat channels);
        trace := trace s |}).
Proof.
  unfold createBuffer, bind. rewrite allocChannels_run. reflexivity.
Qed.

(** The channel [k] of a fresh buffer is the [k]-th new array. *)
Lemma fresh_channel (n0 count : nat) (k : Z) (length : Z) (rate : float) :
  0 <= k < Z.of_nat count ->
  getChannelData {| sampleRate := rate; bufferLength := length;
                    channelData := seq n0 count |} k
  = (n0 + Z.to_nat k)%nat.
Proof.
  intros Hk. unfold getChannelData. cbn [channelData].
  apply seq_nth. lia.
Qed.

Lemma array_old (h extra : list Float32Array) (l : loc) :
  (l < length h)%nat -> array (h ++ extra) l = array h l.
Proof. intros Hl. unfold array. now apply app_nth1. Qed.

Lemma array_fresh (h : list Float32Array) (z : Float32Array) (count k : nat) :
  (k < count)%nat -> array (h ++ repeat z count) (length h + k)%nat = z.
Proof.
  intros Hk. unfold array. rewrite app_nth2 by lia.
  replace (length h + k - length h)%nat with k by lia.
  apply nth_repeat_lt. exact Hk.
Qed.

Lemma input_channel (h : list Float32Array) (b : AudioBuffer) (k : Z) :
  wellFormed h b -> 0 <= k < numberOfChannels b ->
  (getChannelData b k < length h)%nat
  /\ len (array h (getChannelData b k)) = bufferLength b.
Proof.
  unfold wellFormed, numberOfChannels, getChannelData. intros Hwf Hk.
  rewrite Forall_forall in Hwf. apply Hwf. apply nth_In. lia.
Qed.

(** [applyCrossfade] keeps [good] from the initial store on, for any
    permission that covers the accesses of each channel. *)
Lemma applyCrossfade_good (Math_sin Math_cos : float -> float)
      (perm : access -> Prop) (h : list Float32Array) (b : AudioBuffer)
      (lp : OptimizedLoopPoints) :
  let loopLength := endSample lp - startSample lp in
  let L :=
    lengths (h ++ repeat (repeat 0%float (Z.to_nat loopLength))
                         (Z.to_nat (numberOfChannels b))) in
  (forall l i, perm (Store l i) -> (length h <= l)%nat) ->
  (forall k, 0 <= k < numberOfChannels b ->
             permitsChannel perm (getChannelData b k)
                            (length h + Z.to_nat k)%nat
                            (startSample lp) (endSample lp) (fadeLengthOf b lp)
                            (stitchLengthOf (fadeLengthOf b lp) loopLength)
                            (lengthAt L (length h + Z.to_nat k)%nat)) ->
  good perm L h (snd (applyCrossfade Math_sin Math_cos b lp (init h))).
Proof.
  cbv zeta. intros Hstore Hperm.
  unfold applyCrossfade. cbv zeta. unfold bind at 1.
  rewrite createBuffer_run. cbn [init heap trace].
  set (z := repeat 0%float (Z.to_nat (endSample lp - startSample lp))) in *.
  set (count := Z.to_nat (numberOfChannels b)) in *.
  set (s1 := {| heap := h ++ repeat z count; trace := [] |}).
  set (L := lengths (h ++ repeat z count)) in *.
  assert (G : good perm L h s1).
  { split; [reflexivity|]. split; [constructor|]. now exists (repeat z count). }
  match goal with
  | |- context [bind ?m _ s1] => assert (P : preserves (good perm L h) m)
  end.
  { apply good_forM. intros k [] Hk. apply good_processChannel.
    - exact Hstore.
    - intros l. apply lengthAt_nonneg.
    - rewrite fresh_channel by (unfold count; lia). now apply Hperm. }
  specialize (P s1 G).
  unfold bind. destruct (forM _ _ _ _ s1) as [u s2]. exact P.
Qed.

(** [createExtendedLoop] writes to its new arrays only. *)
Lemma createExtendedLoop_good (h : list Float32Array) (b : AudioBuffer)
      (targetDuration : float) :
  let total := floorZ (targetDuration * sampleRate b)%float in
  let L :=
    lengths (h ++ repeat (repeat 0%float (Z.to_nat total))
                         (Z.to_nat (numberOfChannels b))) in
  good (writesBeyond (length h)) L h
       (snd (createExtendedLoop b targetDuration (init h))).
Proof.
  cbv zeta. unfold createExtendedLoop. cbv zeta. unfold bind at 1.
  rewrite createBuffer_run. cbn [init heap trace].
  set (total := floorZ (targetDuration * sampleRate b)%float).
  set (z := repeat 0%float (Z.to_nat total)).
  set (count := Z.to_nat (numberOfChannels b)).
  set (s1 := {| heap := h ++ repeat z count; trace := [] |}).
  set (L := lengths (h ++ repeat z count)).
  assert (G : good (writesBeyond (length h)) L h s1).
  { split; [reflexivity|]. split; [constructor|]. now exists (repeat z count). }
  match goal with
  | |- context [bind ?m _ s1] =>
      assert (P : preserves (good (writesBeyond (length h)) L h) m)
  end.
  { apply good_forM.
    intros k [] Hk.
    apply good_forM.
    intros i [] Hi.
    apply good_bind.
    - unfold loadAtRemainder.
      destruct (bufferLength b =? 0);
        [apply good_ret | apply good_load; exact I].
    - intros x. apply good_store; [intros l j H; exact H|].
      rewrite fresh_channel by (unfold count; lia).
      cbn. lia. }
  specialize (P s1 G).
  unfold bind. destruct (forM _ _ _ _ s1) as [u s2]. exact P.
Qed.

(** C10.  Neither [applyCrossfade] nor [createExtendedLoop] modifies its
    input buffer: every write of either call, those of the in-place DC
    removal and of the seam smoothing included, targets an array allocated
    during the call, and the store after the call is the store before it
    followed by the new arrays; so every sample of every channel of the input
    has the value it had. *)
Theorem input_buffer_is_not_modified (Math_sin Math_cos : float -> float)
        (h : list Float32Array) (b : AudioBuffer) (lp : OptimizedLoopPoints)
        (targetDuration : float) :
  let s1 := snd (applyCrossfade Math_sin Math_cos b lp (init h)) in
  let s2 := snd (createExtendedLoop b targetDuration (init h)) in
  (Forall (writesBeyond (length h)) (trace s1)
   /\ exists extra, heap s1 = h ++ extra)
  /\ (Forall (writesBeyond (length h)) (trace s2)
      /\ exists extra, heap s2 = h ++ extra)
  /\ (forall l, In l (channelData b) -> (l < length h)%nat ->
                array (heap s1) l = array h l
                /\ array (heap s2) l = array h l).
Proof.
  cbv zeta.
  destruct (applyCrossfade_good Math_sin Math_cos (writesBeyond (length h))
              h b lp) as (_ & T1 & e1 & H1).
  { intros l i H. exact H. }
  { intros k Hk. unfold permitsChannel, writesBeyond. repeat split; lia. }
  destruct (createExtendedLoop_good h b targetDuration) as (_ & T2 & e2 & H2).
  split; [split; [exact T1 | eauto]|].
  split; [split; [exact T2 | eauto]|].
  intros l _ Hl. rewrite H1, H2. split; now apply array_old.
Qed.

Lemma forM_empty {A : Type} (lo hi : Z) (body : Z -> A -> M A) (a : A)
      (s : state) :
  hi <= lo -> forM lo hi body a s = (a, s).
Proof.
  intros H. unfold forM.
  replace (Z.to_nat (hi - lo)) with O by lia. reflexivity.
Qed.

(** C8, as amended.  For a well-formed input buffer and loop points with
    [0 <= startSample < endSample <= inputLength] whose fade length
    [floor(crossfadeDuration * sampleRate)] does not exceed the loop length,
    every element access of [applyCrossfade] is within the bounds of the
    array it touches.  With a fade length of 0 the two crossfades and the two
    blends leave the store as it is, and [smoothLoopSeam] leaves it as it is
    when its seam window is below 4. *)
Theorem applyCrossfade_accesses_in_bounds (Math_sin Math_cos : float -> float)
        (h : list Float32Array) (b : AudioBuffer) (lp : OptimizedLoopPoints) :
  wellFormed h b ->
  0 <= startSample lp ->
  startSample lp < endSample lp ->
  endSample lp <= bufferLength b ->
  fadeLengthOf b lp <= endSample lp - startSample lp ->
  let s' := snd (applyCrossfade Math_sin Math_cos b lp (init h)) in
  let loopLength := endSample lp - startSample lp in
  Forall (inBounds (heap s')) (trace s')
  /\ (fadeLengthOf b lp = 0 ->
      forall (inputData outputData : loc) (useHann : bool) (s : state),
        crossfadeHead Math_sin Math_cos inputData outputData (endSample lp)
                      (fadeLengthOf b lp) useHann s = (tt, s)
        /\ crossfadeTail Math_sin Math_cos inputData outputData
                         (startSample lp) loopLength (fadeLengthOf b lp)
                         useHann s = (tt, s)
        /\ blendTailIntoHead inputData outputData (startSample lp)
                             (endSample lp)
                             (stitchLengthOf (fadeLengthOf b lp) loopLength) s
           = (tt, s)
        /\ blendHeadIntoTail inputData outputData (startSample lp) loopLength
                             (stitchLengthOf (fadeLengthOf b lp) loopLength) s
           = (tt, s))
  /\ (forall (data : loc) (s : state),
         seamWindowOf (len (array (heap s) data)) < 4 ->
         smoothLoopSeam data s = (tt, s)).
Proof.
  intros Hwf Hs0 Hse Heb Hfade. cbv zeta. split; [|split].
  - set (loopLength := endSample lp - startSample lp) in *.
    set (z := repeat 0%float (Z.to_nat loopLength)).
    set (count := Z.to_nat (numberOfChannels b)).
    set (L := lengths (h ++ repeat z count)).
    set (perm := fun a => withinLengths L a /\ writesBeyond (length h) a).
    destruct (applyCrossfade_good Math_sin Math_cos perm h b lp)
      as (HL & Ht & _).
    + intros l i [_ H]. exact H.
    + intros k Hk. fold loopLength z count L.
      destruct (input_channel h b k Hwf Hk) as [Hin Hlen].
      assert (Li : lengthAt L (getChannelData b k) = bufferLength b).
      { unfold L. rewrite lengthAt_lengths, array_old by exact Hin.
        exact Hlen. }
      assert (Lo : lengthAt L (length h + Z.to_nat k)%nat = loopLength).
      { unfold L. rewrite lengthAt_lengths, array_fresh
          by (unfold count; lia).
        unfold z, len. rewrite repeat_length. lia. }
      assert (Hst : stitchLengthOf (fadeLengthOf b lp) loopLength
                    <= fadeLengthOf b lp)
        by (unfold stitchLengthOf; lia).
      unfold permitsChannel, perm, withinLengths, writesBeyond.
      rewrite Li, Lo. fold loopLength.
      repeat split; lia.
    + fold loopLength z count L in HL.
      eapply Forall_impl; [|exact Ht].
      intros a [Ha _]. unfold inBounds. unfold withinLengths in Ha.
      rewrite <- HL in Ha.
      destruct a; rewrite lengthAt_lengths in Ha; exact Ha.
  - intros Hz inputData outputData useHann s.
    unfold crossfadeHead, crossfadeTail, blendTailIntoHead, blendHeadIntoTail,
      stitchLengthOf.
    rewrite Hz. repeat split; apply forM_empty; lia.
  - intros data s Hw. unfold smoothLoopSeam, bind, lengthOf.
    apply Z.ltb_lt in Hw. rewrite Hw. reflexivity.
Qed.

End CrossfadeClaims.

(** ** Runs that witness and that refute *)

Module Runs.
Import JS Types AudioProcessing Spec Examples.
Import ScanClaims SizerClaims Loops.



(** A run of the phase correlator on silence: every correlation is NaN and
    the original end comes back. *)
Example findPhaseMatchedPoint_on_silence :
  phaseSearchStart 0 1500 2000 = 1000
  /\ phaseSearchEnd silence 1500 2000 = 1077
  /\ is_nan (crossCorrelation silence 0 1000 1024) = true
  /\ is_nan (crossCorrelation silence 0 1050 1024) = true
  /\ findPhaseMatchedPoint silence 0 1500 2000 = 1500.
Proof. split_all; vm_compute; reflexivity. Qed.

(** The bounds of C6 for a loop of 2000 samples at 44.1 kHz. *)
Lemma getAdaptiveCrossfadeDuration_bounds_witness :
  (0.01 <=? getAdaptiveCrossfadeDuration steady 0 2000 44100 0.05)%float = true
  /\ (getAdaptiveCrossfadeDuration steady 0 2000 44100 0.05
      <=? Math_max
            (Math_max 0.01
               (Math_min 0.015
                  (Number_ofZ (Z.max 1 (2000 - 0)) / 44100 * 0.2)))
            (Math_max
               (Math_min 0.015
                  (Number_ofZ (Z.max 1 (2000 - 0)) / 44100 * 0.2))
               (Math_min 0.15
                  (Number_ofZ (Z.max 1 (2000 - 0)) / 44100 * 0.45))))%float
     = true
  /\ ((0.015 <=? Number_ofZ (Z.max 1 (2000 - 0)) / 44100 * 0.45)%float = true ->
      (getAdaptiveCrossfadeDuration steady 0 2000 44100 0.05
       <=? Math_min 0.15
             (Number_ofZ (Z.max 1 (2000 - 0)) / 44100 * 0.45))%float = true).
Proof.
  apply (getAdaptiveCrossfadeDuration_bounds steady 0 2000 44100%float
           0.05%float).
  vm_compute. reflexivity.
Defined.

(** For a loop of 2000 samples at 44.1 kHz the bound of the claim applies. *)
Example getAdaptiveCrossfadeDuration_long_loop :
  (0.015 <=? Number_ofZ 2000 / 44100 * 0.45)%float = true
  /\ getAdaptiveCrossfadeDuration steady 0 2000 44100 0.05 = 0.015%float.
Proof. split_all; vm_compute; reflexivity. Qed.

(** C6 as stated fails.  For a loop of 400 samples at 44.1 kHz (about 9 ms)
    the sizer returns its floor 0.01, above [min(0.15, loopDuration * 0.45)]
    and above the loop duration itself. *)
Lemma getAdaptiveCrossfadeDuration_short_loop_counterexample :
  (0 <? 44100)%float = true
  /\ 0 < 400
  /\ getAdaptiveCrossfadeDuration steady 0 400 44100 0.05 = 0.01%float
  /\ (Math_min 0.15 (Number_ofZ 400 / 44100 * 0.45)
      <? getAdaptiveCrossfadeDuration steady 0 400 44100 0.05)%float = true
  /\ (Number_ofZ 400 / 44100
      <? getAdaptiveCrossfadeDuration steady 0 400 44100 0.05)%float = true.
Proof. split_all; vm_compute; reflexivity. Qed.

End Runs.

Module CrossfadeRuns.
Import JS Types Crossfade Examples CrossfadeClaims Loops.

(** A 2 ms crossfade on the five-sample loop: the fade length is 2 and every
    access is within bounds. *)
Lemma applyCrossfade_accesses_in_bounds_witness :
  Forall (inBounds (heap (snd (applyCrossfade hostSin hostCos buffer1
                                 (loop5 0.002) (init store1)))))
         (trace (snd (applyCrossfade hostSin hostCos buffer1 (loop5 0.002)
                        (init store1)))).
Proof.
  apply (applyCrossfade_accesses_in_bounds hostSin hostCos store1 buffer1
           (loop5 0.002)).
  - repeat constructor.
  - vm_compute. discriminate.
  - vm_compute. reflexivity.
  - vm_compute. discriminate.
  - vm_compute. discriminate.
Defined.

(** C8 as stated fails.  With the 10 ms crossfade on the five-sample loop of
    [buffer1] the loop points satisfy [0 <= startSample < endSample <=
    inputLength], the fade length is 10, and [applyCrossfade] reads the input
    at index -5 and writes the five-sample output at index 9 (the indices do
    not depend on the host's sine and cosine).  With a stitch length of 1 the
    blend of the tail into the head is not a no-op: it changes the first
    output sample. *)
Lemma applyCrossfade_bounds_counterexample :
  (wellFormed store1 buffer1
   /\ 0 <= startSample (loop5 0.01)
   /\ startSample (loop5 0.01) < endSample (loop5 0.01)
   /\ endSample (loop5 0.01) <= bufferLength buffer1
   /\ fadeLengthOf buffer1 (loop5 0.01) = 10
   /\ In (Load 0%nat (-5))
         (trace (snd (applyCrossfade hostSin hostCos buffer1 (loop5 0.01)
                        (init store1))))
   /\ In (Store 1%nat 9)
         (trace (snd (applyCrossfade hostSin hostCos buffer1 (loop5 0.01)
                        (init store1))))
   /\ len (array (heap (snd (applyCrossfade hostSin hostCos buffer1
                               (loop5 0.01) (init store1)))) 1%nat) = 5
   /\ forallb (inBoundsb (heap (snd (applyCrossfade hostSin hostCos buffer1
                                       (loop5 0.01) (init store1)))))
              (trace (snd (applyCrossfade hostSin hostCos buffer1 (loop5 0.01)
                             (init store1)))) = false)
  /\ (get (array storeCopied 1%nat) 0 = 0.5%float
      /\ get (array (heap (snd (blendTailIntoHead 0%nat 1%nat 0 5 1
                                  (init storeCopied)))) 1%nat) 0
         = 0.67500001192092896%float).
Proof.
  split.
  - split; [repeat constructor|].
    split_all; vm_compute;
      try reflexivity; try discriminate;
      repeat (first [left; reflexivity | right]).
  - split_all; vm_compute; reflexivity.
Qed.

(** The run of the 2 ms crossfade leaves the input array where and as it
    was, and adds the five-sample output. *)
Example applyCrossfade_keeps_input :
  array (heap (snd (applyCrossfade hostSin hostCos buffer1 (loop5 0.002)
                      (init store1)))) 0%nat = tenSamples
  /\ len (array (heap (snd (applyCrossfade hostSin hostCos buffer1
                              (loop5 0.002) (init store1)))) 1%nat) = 5
  /\ forallb (inBoundsb (heap (snd (applyCrossfade hostSin hostCos buffer1
                                      (loop5 0.002) (init store1)))))
             (trace (snd (applyCrossfade hostSin hostCos buffer1 (loop5 0.002)
                            (init store1)))) = true.
Proof. split_all; vm_compute; reflexivity. Qed.

End CrossfadeRuns.

(** ** The PCM encoder *)

Module EncoderProps.
Import JS AudioProcessing ExportAudio Loops.

(** *** Interleaving *)

Lemma set_nth_middle (w rest : Float32Array) (x v : float) :
  set_nth (length w) v (w ++ x :: rest) = w ++ v :: rest.
Proof. induction w as [|y w IH]; cbn; [reflexivity | now rewrite IH]. Qed.

Lemma set_middle (w rest : Float32Array) (x v : float) :
  set (w ++ x :: rest) (len w) v = w ++ fround v :: rest.
Proof.
  unfold set, len.
  destruct (Z.of_nat (length w) <? 0) eqn:E; [apply Z.ltb_lt in E; lia|].
  rewrite Nat2Z.id. apply set_nth_middle.
Qed.

Lemma for_range_nat {St : Type} (n : nat) (body : Z -> St -> St) (s : St) :
  for_range 0 (Z.of_nat n) body s = iterate n 0 1 body s.
Proof.
  unfold for_range, for_step, trips.
  replace (Z.to_nat ((Z.of_nat n - 0 + 1 - 1) / 1)) with n; [reflexivity|].
  rewrite Z.div_1_r. lia.
Qed.

Lemma for_range_Z {St : Type} (n : Z) (body : Z -> St -> St) (s : St) :
  for_range 0 n body s = iterate (Z.to_nat n) 0 1 body s.
Proof.
  unfold for_range, for_step, trips.
  replace (Z.to_nat ((n - 0 + 1 - 1) / 1)) with (Z.to_nat n); [reflexivity|].
  rewrite Z.div_1_r. f_equal. lia.
Qed.

(** The channel loop writes one frame at the cursor. *)
Lemma interleave_channels_from (channels pre suf : list Float32Array) (i : Z)
      (w : Float32Array) (room : nat) :
  channels = pre ++ suf ->
  iterate (length suf) (Z.of_nat (length pre)) 1
    (fun channel '(result, index) =>
       (set result index (get (nth (Z.to_nat channel) channels []) i),
        index + 1))
    (w ++ repeat 0%float (length suf + room), len w)
  = (w ++ frame suf i ++ repeat 0%float room, len w + Z.of_nat (length suf)).
Proof.
  revert pre w. induction suf as [|c suf IH]; intros pre w Hc.
  - cbn. now rewrite Z.add_0_r.
  - cbn [length iterate Nat.add repeat].
    rewrite set_middle, Nat2Z.id.
    replace (nth (length pre) channels []) with c
      by (rewrite Hc, app_nth2, Nat.sub_diag by lia; reflexivity).
    replace (w ++ fround (get c i) :: repeat 0%float (length suf + room))
      with ((w ++ [fround (get c i)]) ++ repeat 0%float (length suf + room))
      by (now rewrite <- app_assoc).
    replace (len w + 1) with (len (w ++ [fround (get c i)]))
      by (unfold len; rewrite length_app; cbn; lia).
    replace (Z.of_nat (length pre) + 1) with (Z.of_nat (length (pre ++ [c])))
      by (rewrite length_app; cbn; lia).
    rewrite (IH (pre ++ [c])) by (now rewrite <- app_assoc).
    unfold frame. cbn [map]. rewrite <- !app_assoc. cbn [app].
    f_equal. unfold len. rewrite length_app. cbn [length]. lia.
Qed.

Lemma interleaveFrame_run (channels : list Float32Array) (i : Z)
      (w : Float32Array) (room : nat) :
  interleaveFrame channels i
    (w ++ repeat 0%float (length channels + room), len w)
  = (w ++ frame channels i ++ repeat 0%float room,
     len w + Z.of_nat (length channels)).
Proof.
  unfold interleaveFrame. rewrite for_range_nat.
  apply (interleave_channels_from channels [] channels). reflexivity.
Qed.

Lemma frame_length (channels : list Float32Array) (i : Z) :
  length (frame channels i) = length channels.
Proof. unfold frame. apply length_map. Qed.

(** The frame loop, from frame [k] on. *)
Lemma interleave_frames_from (channels : list Float32Array) (n k : nat)
      (w : Float32Array) :
  iterate n (Z.of_nat k) 1 (interleaveFrame channels)
    (w ++ repeat 0%float (n * length channels), len w)
  = (w ++ flat_map (fun i => frame channels (Z.of_nat i)) (seq k n),
     len w + Z.of_nat (n * length channels)).
Proof.
  revert k w. induction n as [|n IH]; intros k w.
  - cbn. now rewrite !app_nil_r, Z.add_0_r.
  - cbn [iterate Nat.mul seq flat_map].
    rewrite interleaveFrame_run.
    replace (w ++ frame channels (Z.of_nat k)
               ++ repeat 0%float (n * length channels))
      with ((w ++ frame channels (Z.of_nat k))
              ++ repeat 0%float (n * length channels))
      by (now rewrite <- app_assoc).
    replace (len w + Z.of_nat (length channels))
      with (len (w ++ frame channels (Z.of_nat k)))
      by (unfold len; rewrite length_app, frame_length; lia).
    replace (Z.of_nat k + 1) with (Z.of_nat (S k)) by lia.
    rewrite IH. rewrite <- app_assoc. f_equal.
    unfold len. rewrite length_app, frame_length. lia.
Qed.

(** [interleaveChannels] produces the frames in order: sample [i] of every
    channel, channel by channel. *)
Lemma interleaveChannels_interleaved (b : AudioBuffer) :
  interleaveChannels b = interleaved b.
Proof.
  unfold interleaveChannels, interleaved, numberOfChannels.
  rewrite for_range_Z.
  replace (Z.to_nat (bufferLength b * Z.of_nat (length (channels b))))
    with (Z.to_nat (bufferLength b) * length (channels b))%nat by nia.
  pose proof (interleave_frames_from (channels b)
                (Z.to_nat (bufferLength b)) 0 []) as H.
  cbn [app len length Z.of_nat] in H. rewrite H. reflexivity.
Qed.

(** *** The byte writes *)

Lemma poke_middle (pre rest : list Z) (x b : Z) :
  poke (length pre) b (pre ++ x :: rest) = pre ++ b :: rest.
Proof. induction pre as [|y pre IH]; cbn; [reflexivity | now rewrite IH]. Qed.

Lemma setUint8_middle (pre rest : list Z) (x v : Z) :
  setUint8 (pre ++ x :: rest) (Z.of_nat (length pre)) v
  = pre ++ (v mod 256) :: rest.
Proof.
  unfold setUint8.
  destruct (Z.of_nat (length pre) <? 0) eqn:E; [apply Z.ltb_lt in E; lia|].
  rewrite Nat2Z.id. apply poke_middle.
Qed.

Lemma setInt16_middle (pre rest : list Z) (x y : Z) (v : float) :
  setInt16 (pre ++ x :: y :: rest) (Z.of_nat (length pre)) v
  = pre ++ le16 (ToInt16 v) ++ rest.
Proof.
  unfold setInt16, setUint16. rewrite setUint8_middle.
  replace (pre ++ ToInt16 v mod 256 :: y :: rest)
    with ((pre ++ [ToInt16 v mod 256]) ++ y :: rest)
    by (now rewrite <- app_assoc).
  replace (Z.of_nat (length pre) + 1)
    with (Z.of_nat (length (pre ++ [ToInt16 v mod 256])))
    by (rewrite length_app; cbn; lia).
  rewrite setUint8_middle. rewrite <- app_assoc. reflexivity.
Qed.

(** The sample loop appends the words of the samples still to write. *)
Lemma write_samples_from (data done todo : Float32Array) (pre : list Z) :
  data = done ++ todo ->
  iterate (length todo) (Z.of_nat (length done)) 1 (writeSample data)
    (pre ++ repeat 0 (2 * length todo), Z.of_nat (length pre))
  = (pre ++ payload todo,
     Z.of_nat (length pre) + 2 * Z.of_nat (length todo)).
Proof.
  revert done pre. induction todo as [|x todo IH]; intros done pre Hd.
  - cbn. now rewrite Z.add_0_r.
  - cbn [length iterate].
    replace (2 * S (length todo))%nat with (S (S (2 * length todo))) by lia.
    cbn [repeat]. unfold writeSample at 2.
    rewrite setInt16_middle.
    replace (get data (Z.of_nat (length done))) with x.
    2:{ unfold get.
        destruct (Z.of_nat (length done) <? 0) eqn:E;
          [apply Z.ltb_lt in E; lia|].
        rewrite Nat2Z.id, Hd, app_nth2, Nat.sub_diag by lia. reflexivity. }
    replace (pre ++ le16 (ToInt16 (intSample x)) ++ repeat 0 (2 * length todo))
      with ((pre ++ le16 (ToInt16 (intSample x))) ++ repeat 0 (2 * length todo))
      by (now rewrite <- app_assoc).
    replace (Z.of_nat (length pre) + 2)
      with (Z.of_nat (length (pre ++ le16 (ToInt16 (intSample x)))))
      by (rewrite length_app; cbn; lia).
    replace (Z.of_nat (length done) + 1) with (Z.of_nat (length (done ++ [x])))
      by (rewrite length_app; cbn; lia).
    rewrite (IH (done ++ [x])) by (now rewrite <- app_assoc).
    unfold payload. cbn [flat_map]. rewrite <- app_assoc. f_equal.
    rewrite length_app. cbn [length le16]. lia.
Qed.

(** The header writes fill the first 44 bytes of a zero-filled buffer. *)
Lemma header_writes (numberOfChannels sampleRate byteRate dataLength : Z)
      (tail : list Z) :
  let view := repeat 0 44 ++ tail in
  let view := writeString view 0 "RIFF" in
  let view := setUint32 view 4 (36 + dataLength) in
  let view := writeString view 8 "WAVE" in
  let view := writeString view 12 "fmt " in
  let view := setUint32 view 16 16 in
  let view := setUint16 view 20 1 in
  let view := setUint16 view 22 numberOfChannels in
  let view := setUint32 view 24 sampleRate in
  let view := setUint32 view 28 byteRate in
  let view := setUint16 view 32 (numberOfChannels * 2) in
  let view := setUint16 view 34 16 in
  let view := writeString view 36 "data" in
  let view := setUint32 view 40 dataLength in
  view = header numberOfChannels sampleRate byteRate dataLength ++ tail.
Proof. reflexivity. Qed.

Lemma header_length (numberOfChannels sampleRate byteRate dataLength : Z) :
  length (header numberOfChannels sampleRate byteRate dataLength) = 44%nat.
Proof. reflexivity. Qed.

(** The bytes that [audioBufferToWav] produces: the canonical header, then
    the 16-bit words of the interleaved samples. *)
Lemma audioBufferToWav_layout (b : AudioBuffer) :
  audioBufferToWav b
  = header (numberOfChannels b) (ToUint32 (sampleRate b))
           (ToUint32 (sampleRate b * Number_ofZ (numberOfChannels b * 2))%float)
           (len (interleaved b) * 2)
    ++ payload (interleaved b).
Proof.
  unfold audioBufferToWav. cbv zeta.
  rewrite interleaveChannels_interleaved.
  change (16 / 8) with 2.
  set (data := interleaved b).
  replace (Z.to_nat (44 + len data * 2)) with (44 + 2 * length data)%nat
    by (unfold len; lia).
  rewrite repeat_app.
  pose proof (header_writes (numberOfChannels b) (ToUint32 (sampleRate b))
                (ToUint32 (sampleRate b
                           * Number_ofZ (numberOfChannels b * 2))%float)
                (len data * 2) (repeat 0 (2 * length data))) as H.
  cbv zeta in H. rewrite H. clear H.
  unfold len at 1. rewrite for_range_nat.
  set (hd := header _ _ _ _).
  pose proof (write_samples_from data [] data hd eq_refl) as W.
  cbn [length Z.of_nat] in W.
  replace (Z.of_nat (length hd)) with 44 in W by reflexivity.
  exact (f_equal fst W).
Qed.

(** *** Reading the bytes back *)

Lemma le16_value (v : Z) :
  0 <= v < 65536 -> v mod 256 + 256 * ((v / 256) mod 256) = v.
Proof. intros H. Z.div_mod_to_equations. lia. Qed.

Lemma le32_value (v : Z) :
  0 <= v < 4294967296 ->
  v mod 256 + 256 * ((v / 256) mod 256) + 65536 * ((v / 65536) mod 256)
  + 16777216 * ((v / 16777216) mod 256) = v.
Proof.
  intros H.
  replace (v / 65536) with (v / 256 / 256)
    by (rewrite Z.div_div by lia; reflexivity).
  replace (v / 16777216) with (v / 256 / 256 / 256)
    by (rewrite !Z.div_div by lia; reflexivity).
  Z.div_mod_to_equations. lia.
Qed.

Lemma ToInt16_range (x : float) : -32768 <= ToInt16 x < 32768.
Proof.
  unfold ToInt16.
  pose proof (Z.mod_pos_bound (truncZ x) 65536 ltac:(lia)) as H.
  destruct (truncZ x mod 65536 >=? 32768) eqn:E; lia.
Qed.

Lemma readInt16_le16 (pre rest : list Z) (w : Z) :
  -32768 <= w < 32768 ->
  readInt16 (pre ++ le16 w ++ rest) (length pre) = w.
Proof.
  intros Hw. unfold readInt16, readUint16, readByte.
  assert (H0 : nth (length pre) (pre ++ le16 w ++ rest) 0 = w mod 256).
  { rewrite app_nth2, Nat.sub_diag by lia. reflexivity. }
  assert (H1 : nth (length pre + 1) (pre ++ le16 w ++ rest) 0
               = (w / 256) mod 256).
  { rewrite app_nth2 by lia.
    replace (length pre + 1 - length pre)%nat with 1%nat by lia.
    reflexivity. }
  rewrite H0, H1.
  destruct (w mod 256 + 256 * ((w / 256) mod 256) >=? 32768) eqn:E;
    Z.div_mod_to_equations; lia.
Qed.

Lemma read_payload (pre : list Z) (samples : list float) :
  map (fun k => readInt16 (pre ++ payload samples) (length pre + 2 * k))
      (seq 0 (length samples))
  = map (fun x => ToInt16 (intSample x)) samples.
Proof.
  revert pre. induction samples as [|x samples IH]; intros pre;
    [reflexivity|].
  cbn [length seq map]. f_equal.
  - replace (length pre + 2 * 0)%nat with (length pre) by lia.
    unfold payload. cbn [flat_map].
    apply readInt16_le16, ToInt16_range.
  - rewrite <- seq_shift, map_map.
    specialize (IH (pre ++ le16 (ToInt16 (intSample x)))).
    rewrite <- IH. apply map_ext. intros k.
    unfold payload. cbn [flat_map]. rewrite <- app_assoc.
    f_equal. rewrite length_app. cbn [length le16]. lia.
Qed.

Lemma ToUint32_range (x : float) : 0 <= ToUint32 x < 4294967296.
Proof. unfold ToUint32. apply Z.mod_pos_bound. lia. Qed.

Lemma interleaved_length (b : AudioBuffer) :
  len (interleaved b) = Z.of_nat (Z.to_nat (bufferLength b)) * numberOfChannels b.
Proof.
  unfold interleaved, len, numberOfChannels.
  generalize 0%nat.
  induction (Z.to_nat (bufferLength b)) as [|n IH]; intros k;
    cbn [seq flat_map]; [reflexivity|].
  rewrite length_app, frame_length, Nat2Z.inj_add, IH. lia.
Qed.

Lemma header_fields (n sr br dl : Z) (tail : list Z) :
  readUint16 (header n sr br dl ++ tail) 20 = 1
  /\ readUint16 (header n sr br dl ++ tail) 22
     = n mod 256 + 256 * ((n / 256) mod 256)
  /\ readUint32 (header n sr br dl ++ tail) 24
     = sr mod 256 + 256 * ((sr / 256) mod 256) + 65536 * ((sr / 65536) mod 256)
       + 16777216 * ((sr / 16777216) mod 256)
  /\ readUint16 (header n sr br dl ++ tail) 32
     = (n * 2) mod 256 + 256 * ((n * 2 / 256) mod 256)
  /\ readUint16 (header n sr br dl ++ tail) 34 = 16
  /\ readUint32 (header n sr br dl ++ tail) 40
     = dl mod 256 + 256 * ((dl / 256) mod 256) + 65536 * ((dl / 65536) mod 256)
       + 16777216 * ((dl / 16777216) mod 256).
Proof. split_all; reflexivity. Qed.

End EncoderProps.

Module EncoderClaims.
Import JS AudioProcessing ExportAudio Loops EncoderProps.


End EncoderClaims.

Module EncoderRuns.
Import JS AudioProcessing ExportAudio Spec Examples Loops EncoderClaims.


(** The bytes of [stereo], and what the reader gets back. *)
Example audioBufferToWav_stereo :
  audioBufferToWav stereo
  = [82; 73; 70; 70; 48; 0; 0; 0; 87; 65; 86; 69; 102; 109; 116; 32;
     16; 0; 0; 0; 1; 0; 2; 0; 68; 172; 0; 0; 16; 177; 2; 0; 4; 0; 16; 0;
     100; 97; 116; 97; 12; 0; 0; 0;
     255; 63; 0; 128; 0; 192; 255; 31; 255; 127; 0; 128]
  /\ decodedWords (decode (audioBufferToWav stereo))
     = [16383; -32768; -16384; 8191; 32767; -32768].
Proof. split_all; vm_compute; reflexivity. Qed.


End EncoderRuns.

(* ================================================================== *)
(** * Further properties of the loop-point optimizer *)
(* ================================================================== *)

Module OptimizerExtras.
Import JS Types AudioProcessing FloatOrder Loops OptimizerProps.

Lemma ltb_leb_trans (x y z : float) :
  (x <? y)%float = true -> (y <=? z)%float = true -> (x <? z)%float = true.
Proof.
  rewrite leb_true, !ltb_true. intros L [H | H].
  - eapply SFcompare_lt_trans; eauto.
  - eapply SFcompare_lt_eq; eauto.
Qed.

(** Nothing is below [-Infinity]. *)
Lemma ltb_neg_infinity (x : float) : (x <? neg_infinity)%float = false.
Proof.
  rewrite ltb_spec. change (Prim2SF neg_infinity) with (S754_infinity true).
  destruct (Prim2SF x) as [[|]|[|]| |[|] ? ?]; reflexivity.
Qed.

(** A number that is not below [Infinity] has nothing above it. *)
Lemma not_below_infinity (x y : float) :
  (x <? Infinity)%float = false -> (x <? y)%float = false.
Proof.
  intros H. destruct (x <? y)%float eqn:E; [|reflexivity].
  destruct (ltb_not_nan _ _ E) as [Hn _].
  assert (Hi : is_nan Infinity = false) by reflexivity.
  pose proof (not_ltb_leb _ _ Hn Hi H) as Hge.
  pose proof (leb_ltb_trans _ _ _ Hge E) as Habove.
  unfold Infinity in Habove. rewrite ltb_infinity in Habove. discriminate.
Qed.

(** A number that is not above [-Infinity] has nothing below it. *)
Lemma not_above_neg_infinity (x y : float) :
  (neg_infinity <? x)%float = false -> (y <? x)%float = false.
Proof.
  intros H. destruct (y <? x)%float eqn:E; [|reflexivity].
  destruct (ltb_not_nan _ _ E) as [_ Hn].
  assert (Hi : is_nan neg_infinity = false) by reflexivity.
  pose proof (not_ltb_leb _ _ Hi Hn H) as Hle.
  pose proof (ltb_leb_trans _ _ _ E Hle) as Hbelow.
  rewrite ltb_neg_infinity in Hbelow. discriminate.
Qed.

(** *** The zero-crossing locator selects the first best crossing *)

(** The state of the zero-crossing scan after [n] indices: nothing selected
    and the best score still [Infinity], or a crossing seen whose score is
    the best score and is strictly below the score of every crossing seen
    before it; no crossing seen has a score strictly below the best. *)
Lemma crossing_scan_invariant (audioData : Float32Array) (score : Z -> float)
      (lo targetSample : Z) (n : nat) :
  let crossing i := isCrossing (get audioData i) (get audioData (i + 1)) in
  let st :=
    iterate n lo 1 (zeroCrossingStep audioData score)
            (targetSample, Infinity) in
  ((fst st = targetSample /\ snd st = Infinity)
   \/ (exists j, (j < n)%nat
                 /\ fst st = lo + Z.of_nat j
                 /\ snd st = score (fst st)
                 /\ forall i, (i < j)%nat ->
                              crossing (lo + Z.of_nat i) = true ->
                              is_nan (score (lo + Z.of_nat i)%Z) = false ->
                              (score (fst st) <? score (lo + Z.of_nat i)%Z)%float
                              = true))
  /\ (forall j, (j < n)%nat ->
                crossing (lo + Z.of_nat j) = true ->
                (score (lo + Z.of_nat j)%Z <? snd st)%float = false).
Proof.
  cbv zeta.
  apply (iterate_inv
           (fun k (st : Z * float) =>
              ((fst st = targetSample /\ snd st = Infinity)
               \/ (exists j, (j < k)%nat
                     /\ fst st = lo + Z.of_nat j
                     /\ snd st = score (fst st)
                     /\ forall i, (i < j)%nat ->
                          isCrossing (get audioData (lo + Z.of_nat i))
                                     (get audioData (lo + Z.of_nat i + 1))
                          = true ->
                          is_nan (score (lo + Z.of_nat i)%Z) = false ->
                          (score (fst st) <? score (lo + Z.of_nat i)%Z)%float
                          = true))
              /\ (forall j, (j < k)%nat ->
                            isCrossing (get audioData (lo + Z.of_nat j))
                                       (get audioData (lo + Z.of_nat j + 1))
                            = true ->
                            (score (lo + Z.of_nat j)%Z <? snd st)%float
                            = false))).
  - split; [left; split; reflexivity | intros j Hj; lia].
  - intros k [best m] Hk [Hsel Hmin]. cbn [fst snd] in *.
    replace (lo + Z.of_nat k * 1) with (lo + Z.of_nat k) by lia.
    unfold zeroCrossingStep. cbn [snd].
    destruct (isCrossing (get audioData (lo + Z.of_nat k))
                         (get audioData (lo + Z.of_nat k + 1))) eqn:Hc.
    + destruct (score (lo + Z.of_nat k)%Z <? m)%float eqn:Hlt; cbn [fst snd].
      * destruct (ltb_not_nan _ _ Hlt) as [_ Nm].
        split.
        -- right. exists k. split; [lia|]. split; [reflexivity|].
           split; [reflexivity|].
           intros i Hi Hci Ni.
           apply ltb_leb_trans with m; [exact Hlt|].
           apply not_ltb_leb; [exact Ni | exact Nm | now apply Hmin].
        -- intros j Hj Hcj. assert (Hcase : (j < k)%nat \/ j = k) by lia.
           destruct Hcase as [Hjk | ->]; [|apply ltb_irrefl].
           destruct (score (lo + Z.of_nat j)%Z
                     <? score (lo + Z.of_nat k)%Z)%float eqn:E; [|reflexivity].
           specialize (Hmin j Hjk Hcj).
           rewrite (ltb_trans _ _ _ E Hlt) in Hmin. discriminate.
      * split.
        -- destruct Hsel as [Hsel | (j & Hj & Hb & Hm & Hfirst)];
             [left; exact Hsel|].
           right. exists j. split; [lia|]. auto.
        -- intros j Hj Hcj. assert (Hcase : (j < k)%nat \/ j = k) by lia.
           destruct Hcase as [Hjk | ->]; [now apply Hmin | exact Hlt].
    + split.
      * destruct Hsel as [Hsel | (j & Hj & Hb & Hm & Hfirst)];
          [left; exact Hsel|].
        right. exists j. split; [lia|]. auto.
      * intros j Hj Hcj. assert (Hcase : (j < k)%nat \/ j = k) by lia.
        destruct Hcase as [Hjk | ->]; [now apply Hmin | congruence].
Qed.

(** X1.  [findNearestZeroCrossing] returns the target itself or a sign
    change among the indices its loop visits,
    [max(0, target - radius) <= i < min(length - 1, target + radius) - 1];
    it returns the target when that range is empty.  No visited sign change
    has a weighted score strictly below the score at the returned index,
    and when the returned index was moved off the target, its score is
    strictly below the score of every visited sign change before it whose
    score is a number: of equally good crossings the first one wins. *)
Theorem findNearestZeroCrossing_selects_first_best
        (audioData : Float32Array) (targetSample searchRadius : Z) :
  let start := Z.max 0 (targetSample - searchRadius) in
  let stop := Z.min (len audioData - 1) (targetSample + searchRadius) - 1 in
  let referenceWindow := Z.min 1024 (searchRadius / 2) in
  let referenceRMS :=
    calculateRMS audioData
      (clampZ (targetSample - referenceWindow / 2) 0
              (len audioData - referenceWindow))
      referenceWindow in
  let referenceSlope :=
    (get audioData (Z.min (targetSample + 1) (len audioData - 1))
     - get audioData (Z.max (targetSample - 1) 0))%float in
  let score :=
    crossingScore audioData targetSample searchRadius referenceWindow
                  referenceRMS referenceSlope in
  let crossing i := isCrossing (get audioData i) (get audioData (i + 1)) in
  let r := findNearestZeroCrossing audioData targetSample searchRadius in
  (r = targetSample \/ (start <= r < stop /\ crossing r = true))
  /\ (stop <= start -> r = targetSample)
  /\ (forall i, start <= i < stop -> crossing i = true ->
                (score i <? score r)%float = false)
  /\ (forall i, start <= i < stop -> crossing i = true ->
                is_nan (score i) = false -> i < r ->
                r = targetSample \/ (score r <? score i)%float = true).
Proof.
  cbv zeta.
  split.
  { destruct (findNearestZeroCrossing_scanned audioData targetSample
                searchRadius) as [H | (H1 & H2 & H3)]; [left; exact H|].
    right. split; [split; assumption | exact H3]. }
  unfold findNearestZeroCrossing. cbv zeta.
  set (lo := Z.max 0 (targetSample - searchRadius)).
  set (hi := Z.min (len audioData - 1) (targetSample + searchRadius) - 1).
  match goal with
  | |- context [zeroCrossingStep audioData ?f] => set (score := f)
  end.
  split; [|split].
  - intros Hdeg. unfold for_range. rewrite for_step_empty by lia.
    reflexivity.
  - intros i Hi Hc. unfold for_range, for_step.
    destruct (crossing_scan_invariant audioData score lo targetSample
                (trips lo hi 1)) as [Hsel Hmin].
    assert (Ht : (Z.to_nat (i - lo) < trips lo hi 1)%nat)
      by (apply trips_complete; lia).
    specialize (Hmin _ Ht).
    replace (lo + Z.of_nat (Z.to_nat (i - lo))) with i in Hmin by lia.
    specialize (Hmin Hc).
    destruct Hsel as [[_ Hm] | (j & _ & _ & Hm & _)].
    + rewrite Hm in Hmin. now apply not_below_infinity.
    + rewrite <- Hm. exact Hmin.
  - intros i Hi Hc Ni Hlt. unfold for_range, for_step in *.
    destruct (crossing_scan_invariant audioData score lo targetSample
                (trips lo hi 1)) as [[[Hb _] | (j & Hj & Hb & _ & Hfirst)] _].
    + left. exact Hb.
    + right. rewrite Hb in Hlt.
      specialize (Hfirst (Z.to_nat (i - lo)) ltac:(lia)).
      replace (lo + Z.of_nat (Z.to_nat (i - lo))) with i in Hfirst by lia.
      now apply Hfirst.
Qed.

(** *** The phase correlator selects a best candidate *)

(** The state of the phase scan after [n] candidates, with its maximum: no
    candidate seen has a correlation strictly above the maximum. *)
Lemma phase_scan_maximum (correlation : Z -> float) (lo endSample : Z)
      (n : nat) :
  let st := iterate n lo 50 (phaseStep correlation) (endSample, neg_infinity) in
  ((fst st = endSample /\ snd st = neg_infinity)
   \/ (exists j, (j < n)%nat /\ fst st = lo + Z.of_nat j * 50
                 /\ snd st = correlation (fst st)))
  /\ (forall j, (j < n)%nat ->
                (snd st <? correlation (lo + Z.of_nat j * 50)%Z)%float = false).
Proof.
  cbv zeta.
  apply (iterate_inv
           (fun k (st : Z * float) =>
              ((fst st = endSample /\ snd st = neg_infinity)
               \/ (exists j, (j < k)%nat /\ fst st = lo + Z.of_nat j * 50
                             /\ snd st = correlation (fst st)))
              /\ (forall j, (j < k)%nat ->
                            (snd st <? correlation (lo + Z.of_nat j * 50)%Z)%float
                            = false))).
  - split; [left; split; reflexivity | intros j Hj; lia].
  - intros k [best m] Hk [Hsel Hmax]. cbn [fst snd] in *.
    unfold phaseStep. cbn [snd].
    destruct (m <? correlation (lo + Z.of_nat k * 50)%Z)%float eqn:Hlt;
      cbn [fst snd].
    + split.
      * right. exists k. repeat split; lia.
      * intros j Hj. assert (Hcase : (j < k)%nat \/ j = k) by lia.
        destruct Hcase as [Hjk | ->]; [|apply ltb_irrefl].
        destruct (correlation (lo + Z.of_nat k * 50)%Z
                  <? correlation (lo + Z.of_nat j * 50)%Z)%float eqn:E;
          [|reflexivity].
        specialize (Hmax j Hjk).
        rewrite (ltb_trans _ _ _ Hlt E) in Hmax. discriminate.
    + split.
      * destruct Hsel as [Hsel | (j & Hj & Hb & Hm)]; [left; exact Hsel|].
        right. exists j. repeat split; try assumption. lia.
      * intros j Hj. assert (Hcase : (j < k)%nat \/ j = k) by lia.
        destruct Hcase as [Hjk | ->]; [now apply Hmax | exact Hlt].
Qed.

(** X2.  [findPhaseMatchedPoint] returns the original end when its range
    [[max(start + 1000, end - radius), min(length - 1024, end + radius))] is
    empty; it returns a candidate of the range, a multiple of 50 from its
    start, whenever some candidate has a correlation above [-Infinity]; and
    in every case no candidate has a correlation with the start window
    strictly above that of the returned end. *)
Theorem findPhaseMatchedPoint_maximal_in_range (audioData : Float32Array)
        (startSample endSample searchRadius : Z) :
  let searchStart := phaseSearchStart startSample endSample searchRadius in
  let searchEnd := phaseSearchEnd audioData endSample searchRadius in
  let correlation i := crossCorrelation audioData startSample i 1024 in
  let r := findPhaseMatchedPoint audioData startSample endSample searchRadius in
  (searchEnd <= searchStart -> r = endSample)
  /\ ((exists k, 0 <= k /\ searchStart + 50 * k < searchEnd
                 /\ (neg_infinity <? correlation (searchStart + 50 * k)%Z)%float
                    = true) ->
      searchStart <= r < searchEnd /\ (r - searchStart) mod 50 = 0)
  /\ (forall k, 0 <= k -> searchStart + 50 * k < searchEnd ->
                (correlation r <? correlation (searchStart + 50 * k)%Z)%float
                = false).
Proof.
  cbv zeta. unfold findPhaseMatchedPoint.
  set (lo := phaseSearchStart startSample endSample searchRadius).
  set (hi := phaseSearchEnd audioData endSample searchRadius).
  set (correlation := fun i => crossCorrelation audioData startSample i 1024).
  split; [|split].
  - intros Hdeg. rewrite for_step_empty by lia. reflexivity.
  - intros (k & Hk0 & Hk & Hfin). unfold for_step.
    destruct (phase_scan_maximum correlation lo endSample (trips lo hi 50))
      as [[[_ Hm] | (j & Hj & Hb & _)] Hmax].
    + assert (Ht : (Z.to_nat k < trips lo hi 50)%nat)
        by (apply trips_complete; lia).
      specialize (Hmax _ Ht). rewrite Hm in Hmax.
      replace (lo + Z.of_nat (Z.to_nat k) * 50) with (lo + 50 * k) in Hmax
        by lia.
      fold (correlation (lo + 50 * k)) in Hfin. congruence.
    + rewrite Hb. pose proof (trips_bound lo hi 50 j ltac:(lia) Hj).
      split; [lia|].
      replace (lo + Z.of_nat j * 50 - lo) with (Z.of_nat j * 50) by lia.
      apply Z.mod_mul. lia.
  - intros k Hk0 Hk. unfold for_step.
    destruct (phase_scan_maximum correlation lo endSample (trips lo hi 50))
      as [Hsel Hmax].
    assert (Ht : (Z.to_nat k < trips lo hi 50)%nat)
      by (apply trips_complete; lia).
    specialize (Hmax _ Ht).
    replace (lo + Z.of_nat (Z.to_nat k) * 50) with (lo + 50 * k) in Hmax
      by lia.
    fold (correlation
            (fst (iterate (trips lo hi 50) lo 50 (phaseStep correlation)
                          (endSample, neg_infinity)))).
    fold (correlation (lo + 50 * k)).
    destruct Hsel as [[_ Hm] | (j & _ & _ & Hm)].
    + rewrite Hm in Hmax. now apply not_above_neg_infinity.
    + rewrite <- Hm. exact Hmax.
Qed.

(** *** How far the optimizer moves the selection *)

Lemma findNearestZeroCrossing_near (audioData : Float32Array)
      (targetSample searchRadius : Z) :
  0 <= searchRadius ->
  Z.abs (findNearestZeroCrossing audioData targetSample searchRadius
         - targetSample) <= searchRadius.
Proof.
  intros Hr.
  destruct (findNearestZeroCrossing_scanned audioData targetSample searchRadius)
    as [H | (H1 & H2 & _)]; lia.
Qed.


(** *** Empty windows *)

(** X4.  On an empty window (a window size that is not positive, or a start
    at or after the last sample, which covers the empty array)
    [averageAbsoluteDerivative] returns 0: its divisor is floored at 1. *)
Theorem averageAbsoluteDerivative_empty_window (audioData : Float32Array)
        (startSample windowSize : Z) :
  windowSize <= 0 \/ len audioData - 1 <= startSample ->
  averageAbsoluteDerivative audioData startSample windowSize = 0%float.
Proof.
  intros H. unfold averageAbsoluteDerivative. cbv zeta. unfold for_range.
  rewrite for_step_empty by lia.
  replace (Z.max 1 (Z.min (startSample + windowSize) (len audioData - 1)
                    - startSample)) with 1 by lia.
  vm_compute. reflexivity.
Qed.

(** A window that starts at the last of two samples. *)
Lemma averageAbsoluteDerivative_empty_window_witness :
  averageAbsoluteDerivative [0.5; -0.5]%float 1 2048 = 0%float.
Proof.
  apply (averageAbsoluteDerivative_empty_window [0.5; -0.5]%float 1 2048).
  right. vm_compute. discriminate.
Defined.

(** *** The correlation of two windows *)

(** The product of two binary64 numbers does not depend on their order. *)
Lemma mul_comm (x y : float) : (x * y)%float = (y * x)%float.
Proof.
  apply Prim2SF_inj. rewrite !mul_spec.
  destruct (Prim2SF x) as [sx|sx| |sx mx ex], (Prim2SF y) as [sy|sy| |sy my ey];
    cbn; try reflexivity; try (now rewrite xorb_comm).
  now rewrite xorb_comm, Pos.mul_comm, Z.add_comm.
Qed.

Lemma correlate_swap (n : nat) (i : Z) (audioData : Float32Array)
      (start1 start2 : Z) (c n1 n2 : float) :
  correlate n i audioData start2 start1 (c, n2, n1)
  = let '(c', n1', n2') :=
      correlate n i audioData start1 start2 (c, n1, n2) in
    (c', n2', n1').
Proof.
  revert i c n1 n2. induction n as [|n IH]; intros i c n1 n2;
    cbn [correlate]; [reflexivity|].
  rewrite (orb_comm (start2 + i >=? len audioData)).
  destruct ((start1 + i >=? len audioData) || (start2 + i >=? len audioData));
    [reflexivity|].
  rewrite (mul_comm (get audioData (start2 + i))). apply IH.
Qed.

(** X5.  [crossCorrelation] is symmetric in its two window starts, for every
    array, window size and pair of starts: the loop stops at the same index
    for both orders and the products commute. *)
Theorem crossCorrelation_symmetric (audioData : Float32Array)
        (start1 start2 windowSize : Z) :
  crossCorrelation audioData start2 start1 windowSize
  = crossCorrelation audioData start1 start2 windowSize.
Proof.
  unfold crossCorrelation. rewrite correlate_swap.
  destruct (correlate (Z.to_nat windowSize) 0 audioData start1 start2
                      (0%float, 0%float, 0%float)) as [[c n1] n2].
  now rewrite (mul_comm n2 n1).
Qed.

(** *** Silence *)

(** A sample that compares equal to zero is one of the two zeros. *)
Lemma zero_cases (x : float) :
  (x =? 0)%float = true -> x = 0%float \/ x = (-0)%float.
Proof.
  rewrite eqb_spec. intros H.
  rewrite <- (SF2Prim_Prim2SF x).
  destruct (Prim2SF x) as [[|]|[|]| |[|] ? ?]; try discriminate H; auto.
Qed.

Lemma get_silent (audioData : Float32Array) (i : Z) :
  Forall (fun x => (x =? 0)%float = true) audioData ->
  0 <= i < len audioData ->
  get audioData i = 0%float \/ get audioData i = (-0)%float.
Proof.
  intros Hs Hi. unfold get.
  destruct (i <? 0) eqn:E; [apply Z.ltb_lt in E; lia|].
  apply zero_cases. rewrite Forall_forall in Hs. apply Hs.
  apply nth_In. unfold len in Hi. lia.
Qed.

(** On silence the three sums of [crossCorrelation] stay at zero. *)
Lemma correlate_silent (n : nat) (i : Z) (audioData : Float32Array)
      (start1 start2 : Z) :
  Forall (fun x => (x =? 0)%float = true) audioData ->
  0 <= start1 + i -> 0 <= start2 + i ->
  correlate n i audioData start1 start2 (0%float, 0%float, 0%float)
  = (0%float, 0%float, 0%float).
Proof.
  intros Hs. revert i. induction n as [|n IH]; intros i H1 H2;
    cbn [correlate]; [reflexivity|].
  destruct (start1 + i >=? len audioData) eqn:E1; [reflexivity|].
  destruct (start2 + i >=? len audioData) eqn:E2; [reflexivity|].
  cbn [orb].
  destruct (get_silent audioData (start1 + i) Hs ltac:(lia)) as [-> | ->];
    destruct (get_silent audioData (start2 + i) Hs ltac:(lia)) as [-> | ->];
    change (0 + 0 * 0)%float with 0%float;
    change (0 + 0 * -0)%float with 0%float;
    change (0 + -0 * 0)%float with 0%float;
    change (0 + -0 * -0)%float with 0%float;
    (replace (start1 + (i + 1)) with (start1 + i + 1) in IH by lia);
    apply IH; lia.
Qed.

(** X6.  On a silent array (every sample compares equal to zero) every
    correlation is 0/0 = NaN, so [findPhaseMatchedPoint] selects no candidate
    and returns the end it was given, for every start that is not negative,
    every end and every radius. *)
Theorem findPhaseMatchedPoint_silence (audioData : Float32Array)
        (startSample endSample searchRadius : Z) :
  Forall (fun x => (x =? 0)%float = true) audioData ->
  0 <= startSample ->
  findPhaseMatchedPoint audioData startSample endSample searchRadius
  = endSample.
Proof.
  intros Hs H0. unfold findPhaseMatchedPoint.
  match goal with
  | |- fst ?run = _ => assert (E : run = (endSample, neg_infinity))
  end; [|now rewrite E].
  apply for_step_ind; [lia | reflexivity |].
  intros i st Hi _ ->. unfold phaseStep, crossCorrelation. cbn [snd].
  unfold phaseSearchStart in Hi.
  rewrite correlate_silent by (assumption || lia).
  reflexivity.
Qed.

(** 2101 samples of silence: the end 1500 comes back. *)
Lemma findPhaseMatchedPoint_silence_witness :
  findPhaseMatchedPoint (repeat 0%float 2101) 0 1500 2000 = 1500.
Proof.
  apply (findPhaseMatchedPoint_silence (repeat 0%float 2101) 0 1500 2000).
  - apply Forall_forall. intros x Hx. apply repeat_spec in Hx. now subst.
  - lia.
Defined.

(** The root mean square of at most 2048 zeros is zero. *)
Lemma sqrt_zero_over_count :
  forallb (fun w => (Math_sqrt (0 / Number_ofZ (Z.of_nat w)) =? 0)%float
                    && negb (get_sign (Math_sqrt (0 / Number_ofZ (Z.of_nat w)))))
          (seq 1 2048) = true.
Proof. vm_compute. reflexivity. Qed.

Lemma calculateRMS_silent (audioData : Float32Array) (startSample : Z) :
  Forall (fun x => (x =? 0)%float = true) audioData ->
  0 <= startSample < len audioData ->
  calculateRMS_default audioData startSample = 0%float.
Proof.
  intros Hs Hi. unfold calculateRMS_default, calculateRMS. cbv zeta.
  set (stop := Z.min (startSample + 2048) (len audioData)).
  assert (Hsum :
            for_range startSample stop
              (fun i sum => (sum + get audioData i * get audioData i)%float)
              0%float = 0%float).
  { apply for_range_ind; [reflexivity|].
    intros i s Hr ->.
    destruct (get_silent audioData i Hs ltac:(lia)) as [-> | ->];
      reflexivity. }
  rewrite Hsum.
  pose proof sqrt_zero_over_count as H. rewrite forallb_forall in H.
  specialize (H (Z.to_nat (stop - startSample))).
  rewrite Z2Nat.id in H by lia.
  assert (Hin : In (Z.to_nat (stop - startSample)) (seq 1 2048))
    by (apply in_seq; lia).
  specialize (H Hin). apply andb_prop in H. destruct H as [Hz Hsign].
  destruct (zero_cases _ Hz) as [E | E]; [exact E|].
  rewrite E in Hsign. discriminate.
Qed.

(** X7.  On a silent array every RMS difference is 0, so
    [findVolumeMatchedPoints] moves the end to the first candidate of its
    range, [max(start + 1000, end - radius)], whenever that range is not
    empty and the start is not negative. *)
Theorem findVolumeMatchedPoints_silence (audioData : Float32Array)
        (startSample endSample searchRadius : Z) :
  Forall (fun x => (x =? 0)%float = true) audioData ->
  0 <= startSample ->
  volumeSearchStart startSample endSample searchRadius
  < volumeSearchEnd audioData endSample searchRadius ->
  findVolumeMatchedPoints audioData startSample endSample searchRadius
  = (startSample, volumeSearchStart startSample endSample searchRadius).
Proof.
  intros Hs H0 Hrange. unfold findVolumeMatchedPoints. cbv zeta. f_equal.
  set (lo := volumeSearchStart startSample endSample searchRadius) in *.
  set (hi := volumeSearchEnd audioData endSample searchRadius) in *.
  assert (Hlo : startSample + 1000 <= lo) by (unfold lo, volumeSearchStart; lia).
  assert (Hhi : hi <= len audioData - 1000)
    by (unfold hi, volumeSearchEnd; lia).
  assert (Hdiff : forall i, lo <= i < hi ->
                            volumeDiff audioData startSample i = 0%float).
  { intros i Hi. unfold volumeDiff.
    rewrite !calculateRMS_silent by (assumption || lia). reflexivity. }
  unfold for_step.
  assert (Hpos : (0 < trips lo hi 100)%nat).
  { apply (trips_complete lo hi 100 0); lia. }
  pose proof (iterate_inv
                (fun k (st : Z * float) =>
                   (k = O /\ st = (endSample, Infinity))
                   \/ ((0 < k)%nat /\ st = (lo, 0%float)))
                (trips lo hi 100) lo 100
                (volumeStep (volumeDiff audioData startSample))
                (endSample, Infinity)) as Hinv.
  destruct Hinv as [[Hk _] | [_ ->]]; [| |lia|reflexivity].
  - left. split; reflexivity.
  - intros k st Hk IH. right. split; [lia|].
    pose proof (trips_bound lo hi 100 k ltac:(lia) Hk) as Hb.
    unfold volumeStep. rewrite Hdiff by lia.
    destruct IH as [[-> ->] | [Hk0 ->]]; cbn [snd].
    + replace (lo + Z.of_nat 0 * 100) with lo by lia. reflexivity.
    + reflexivity.
Qed.

(** 2101 samples of silence: the end moves to the first candidate, 1000. *)
Lemma findVolumeMatchedPoints_silence_witness :
  findVolumeMatchedPoints (repeat 0%float 2101) 0 1050 5000 = (0, 1000).
Proof.
  apply (findVolumeMatchedPoints_silence (repeat 0%float 2101) 0 1050 5000).
  - apply Forall_forall. intros x Hx. apply repeat_spec in Hx. now subst.
  - lia.
  - vm_compute. reflexivity.
Defined.

(** *** The requested crossfade *)

(** A number that compares equal to a finite number other than zero is that
    number. *)
Lemma compare_eq_finite (x y : float) (s : bool) (m : positive) (e : Z) :
  Prim2SF y = S754_finite s m e ->
  SFcompare (Prim2SF x) (Prim2SF y) = Some Eq -> x = y.
Proof.
  intros Hy H. apply Prim2SF_inj. rewrite Hy in *.
  destruct (Prim2SF x) as [[|]|[|]| |s' m' e'], s; try discriminate H;
    unfold SFcompare in H;
    destruct s'; try discriminate H;
    destruct (Z.compare_spec e' e); try discriminate H; subst e';
    destruct (PosDef.Pos.compare_cont Eq m' m) eqn:E; try discriminate H;
    pose proof (Pos.compare_eq m' m E) as ->; reflexivity.
Qed.

Lemma clamp_request_low (requested : float) :
  (requested <=? 0.015)%float = true -> clamp requested 0.015 0.2 = 0.015%float.
Proof.
  intros H. destruct (leb_not_nan _ _ H) as [Nr _].
  assert (Hlt : (requested <? 0.2)%float = true)
    by (apply leb_ltb_trans with 0.015%float; [exact H | reflexivity]).
  unfold clamp.
  assert (Hmin : Math_min 0.2 requested = requested).
  { unfold Math_min. rewrite Nr. change (is_nan 0.2) with false. cbn [orb].
    rewrite (ltb_irrefl_leb _ _ (ltb_leb _ _ Hlt)). now rewrite Hlt. }
  rewrite Hmin. unfold Math_max. rewrite Nr.
  change (is_nan 0.015) with false. cbn [orb].
  rewrite (ltb_irrefl_leb _ _ H).
  destruct (requested <? 0.015)%float; reflexivity.
Qed.

Lemma clamp_request_high (requested : float) :
  (0.2 <=? requested)%float = true -> clamp requested 0.015 0.2 = 0.2%float.
Proof.
  intros H. destruct (leb_not_nan _ _ H) as [_ Nr].
  unfold clamp.
  assert (Hmin : Math_min 0.2 requested = 0.2%float).
  { unfold Math_min. rewrite Nr. change (is_nan 0.2) with false. cbn [orb].
    destruct (0.2 <? requested)%float eqn:E1; [reflexivity|].
    rewrite (ltb_irrefl_leb _ _ H).
    change (get_sign 0.2) with false. cbv iota.
    apply leb_true in H. destruct H as [H | H];
      [apply ltb_true in H; congruence|].
    apply SFcompare_eq_sym in H.
    eapply (compare_eq_finite requested 0.2); [reflexivity | exact H]. }
  rewrite Hmin. reflexivity.
Qed.

(** X20.  [getAdaptiveCrossfadeDuration] uses the requested duration only
    through its clamp to [[0.015, 0.2]]: every request at or below 15 ms
    gives the result of a request of 15 ms, and every request at or above
    200 ms (+Infinity included) the result of a request of 200 ms, whatever
    the audio, the loop and the sample rate. *)
Theorem getAdaptiveCrossfadeDuration_request_is_clamped
        (audioData : Float32Array) (startSample endSample : Z)
        (sampleRate requestedDuration : float) :
  ((requestedDuration <=? 0.015)%float = true ->
   getAdaptiveCrossfadeDuration audioData startSample endSample sampleRate
     requestedDuration
   = getAdaptiveCrossfadeDuration audioData startSample endSample sampleRate
       0.015%float)
  /\ ((0.2 <=? requestedDuration)%float = true ->
      getAdaptiveCrossfadeDuration audioData startSample endSample sampleRate
        requestedDuration
      = getAdaptiveCrossfadeDuration audioData startSample endSample
          sampleRate 0.2%float).
Proof.
  split; intros H; unfold getAdaptiveCrossfadeDuration; cbv zeta.
  - rewrite (clamp_request_low requestedDuration H).
    replace (clamp 0.015 0.015 0.2) with 0.015%float by reflexivity.
    reflexivity.
  - rewrite (clamp_request_high requestedDuration H).
    replace (clamp 0.2 0.015 0.2) with 0.2%float by reflexivity.
    reflexivity.
Qed.

(** The ends of the crossfade slider, 10 ms and 500 ms, on a 2000-sample
    loop. *)
Lemma getAdaptiveCrossfadeDuration_request_is_clamped_witness :
  getAdaptiveCrossfadeDuration Examples.steady 0 2000 44100 0.01%float
  = getAdaptiveCrossfadeDuration Examples.steady 0 2000 44100 0.015%float
  /\ getAdaptiveCrossfadeDuration Examples.steady 0 2000 44100 0.5%float
     = getAdaptiveCrossfadeDuration Examples.steady 0 2000 44100 0.2%float.
Proof.
  pose proof (getAdaptiveCrossfadeDuration_request_is_clamped
                Examples.steady 0 2000 44100 0.01%float) as [H1 _].
  pose proof (getAdaptiveCrossfadeDuration_request_is_clamped
                Examples.steady 0 2000 44100 0.5%float) as [_ H2].
  split; [apply H1; reflexivity | apply H2; reflexivity].
Defined.

End OptimizerExtras.

(* ================================================================== *)
(** * Further properties of the crossfade module *)
(* ================================================================== *)

Module CrossfadeExtras.
Import JS Types Crossfade StoreProps CrossfadeClaims EncoderProps.

(** *** Reading and writing one array of the store *)

Lemma update_at (pre post : list Float32Array) (a : Float32Array)
      (f : Float32Array -> Float32Array) :
  update (length pre) f (pre ++ a :: post) = pre ++ f a :: post.
Proof. rewrite update_beyond by lia. now rewrite Nat.sub_diag. Qed.

Lemma array_at (pre post : list Float32Array) (a : Float32Array) :
  array (pre ++ a :: post) (length pre) = a.
Proof. unfold array. now rewrite app_nth2, Nat.sub_diag by lia. Qed.

Lemma get_middle (done rest : Float32Array) (x : float) :
  get (done ++ x :: rest) (len done) = x.
Proof.
  unfold get, len.
  destruct (Z.of_nat (length done) <? 0) eqn:E; [apply Z.ltb_lt in E; lia|].
  now rewrite Nat2Z.id, app_nth2, Nat.sub_diag by lia.
Qed.

Lemma get_map_seq (f : Z -> float) (n : nat) (i : Z) :
  0 <= i < Z.of_nat n ->
  get (map (fun k => f (Z.of_nat k)) (seq 0 n)) i = f i.
Proof.
  intros Hi. unfold get.
  destruct (i <? 0) eqn:E; [apply Z.ltb_lt in E; lia|].
  rewrite (nth_indep _ NaN (f (Z.of_nat 0)))
    by (rewrite length_map, length_seq; lia).
  rewrite (map_nth (fun k => f (Z.of_nat k))), seq_nth by lia.
  f_equal. lia.
Qed.

Lemma split_at (h : list Float32Array) (l : loc) :
  (l < length h)%nat ->
  h = firstn l h ++ array h l :: skipn (S l) h /\ length (firstn l h) = l.
Proof.
  revert l. induction h as [|a h IH]; intros l Hl; [cbn in Hl; lia|].
  destruct l as [|l]; [split; reflexivity|].
  cbn in Hl. destruct (IH l ltac:(lia)) as [E1 E2].
  split; [|cbn; now rewrite E2].
  change (array (a :: h) (S l)) with (array h l).
  cbn [firstn skipn app]. f_equal. exact E1.
Qed.

(** *** [createExtendedLoop] tiles the loop *)

(** The sample loop of [createExtendedLoop] on one channel: the samples still
    to write become the loop samples at the positions [i % loopLength]. *)
Lemma tile_loop (ld : loc) (L : Z) (src : Float32Array)
      (pre post : list Float32Array) (rest done : Float32Array)
      (t : list access) :
  (ld < length pre)%nat ->
  array pre ld = src ->
  exists t',
    loopM (length rest) (len done)
          (fun i (_ : unit) =>
             x <- loadAtRemainder ld i L ;; store (length pre) i x) tt
          {| heap := pre ++ (done ++ rest) :: post; trace := t |}
    = (tt,
       {| heap :=
            pre ++ (done
                    ++ map (fun k =>
                              fround (if L =? 0 then NaN
                                      else get src
                                               (Z.rem (len done + Z.of_nat k) L)))
                           (seq 0 (length rest))) :: post;
          trace := t' |}).
Proof.
  intros Hld Hsrc. revert done t.
  induction rest as [|x rest IH]; intros done t.
  - exists t. reflexivity.
  - cbn [length loopM]. unfold bind at 1.
    set (v := if L =? 0 then NaN else get src (Z.rem (len done) L)).
    assert (Hbody :
              exists t1,
                (x0 <- loadAtRemainder ld (len done) L ;;
                 store (length pre) (len done) x0)
                  {| heap := pre ++ (done ++ x :: rest) :: post; trace := t |}
                = (tt, {| heap := pre ++ (done ++ fround v :: rest) :: post;
                          trace := t1 |})).
    { unfold bind, loadAtRemainder, store, load, ret, v.
      destruct (L =? 0); cbn [heap trace];
        rewrite update_at, set_middle; [eauto|].
      rewrite array_old by exact Hld. rewrite Hsrc. eauto. }
    destruct Hbody as [t1 ->].
    replace (done ++ fround v :: rest) with ((done ++ [fround v]) ++ rest)
      by (now rewrite <- app_assoc).
    replace (len done + 1) with (len (done ++ [fround v]))
      by (unfold len; rewrite length_app; cbn; lia).
    destruct (IH (done ++ [fround v]) t1) as [t' ->].
    exists t'. f_equal. f_equal. f_equal. f_equal.
    rewrite <- app_assoc. cbn [app seq map]. f_equal. f_equal.
    + unfold v. now rewrite Z.add_0_r.
    + rewrite <- seq_shift, map_map. apply map_ext. intros k.
      replace (len (done ++ [fround v]) + Z.of_nat k)
        with (len done + Z.of_nat (S k))
        by (unfold len; rewrite length_app; cbn [length]; lia).
      reflexivity.
Qed.

(** The channel loop of [createExtendedLoop], from the channels still to
    process. *)
Lemma tile_channels (h : list Float32Array) (b out : AudioBuffer) (total : Z) :
  channelData out = seq (length h) (length (channelData b)) ->
  forall (chs donels : list loc) (doneArrays : list Float32Array)
         (t : list access),
    channelData b = donels ++ chs ->
    length doneArrays = length donels ->
    Forall (fun l => (l < length h)%nat) chs ->
    exists t',
      loopM (length chs) (Z.of_nat (length donels))
            (fun channel (_ : unit) =>
               forM 0 total
                    (fun i (_ : unit) =>
                       x <- loadAtRemainder (getChannelData b channel) i
                                            (bufferLength b) ;;
                       store (getChannelData out channel) i x) tt) tt
            {| heap := h ++ doneArrays
                         ++ repeat (repeat 0%float (Z.to_nat total))
                                   (length chs);
               trace := t |}
      = (tt,
         {| heap :=
              h ++ doneArrays
                ++ map (fun l =>
                          map (fun k =>
                                 fround (if bufferLength b =? 0 then NaN
                                         else get (array h l)
                                                  (Z.rem (Z.of_nat k)
                                                         (bufferLength b))))
                              (seq 0 (Z.to_nat total))) chs;
            trace := t' |}).
Proof.
  intros Hout chs. induction chs as [|l chs IH];
    intros donels doneArrays t Hb Hlen Hin.
  - exists t. reflexivity.
  - cbn [length loopM repeat map]. unfold bind at 1.
    assert (Hl : getChannelData b (Z.of_nat (length donels)) = l).
    { unfold getChannelData. rewrite Nat2Z.id, Hb, app_nth2, Nat.sub_diag by lia.
      reflexivity. }
    assert (Ho : getChannelData out (Z.of_nat (length donels))
                 = length (h ++ doneArrays)).
    { unfold getChannelData. rewrite Nat2Z.id, Hout, seq_nth.
      - rewrite length_app. lia.
      - rewrite Hb, length_app. cbn [length]. lia. }
    rewrite Hl, Ho.
    apply Forall_cons_iff in Hin. destruct Hin as [Hlh Hrest].
    unfold forM at 1. rewrite Z.sub_0_r.
    pose proof (tile_loop l (bufferLength b) (array h l) (h ++ doneArrays)
                  (repeat (repeat 0%float (Z.to_nat total)) (length chs))
                  (repeat 0%float (Z.to_nat total)) [] t) as Hrun.
    rewrite repeat_length in Hrun. cbn [app len length Z.of_nat] in Hrun.
    rewrite <- app_assoc in Hrun.
    destruct Hrun as [t1 Hrun].
    { rewrite length_app. lia. }
    { now apply array_old. }
    rewrite Hrun.
    set (tile := map _ (seq 0 (Z.to_nat total))).
    destruct (IH (donels ++ [l]) (doneArrays ++ [tile]) t1) as [t' Hrest'].
    { rewrite Hb, <- app_assoc. reflexivity. }
    { rewrite !length_app. cbn [length]. lia. }
    { exact Hrest. }
    rewrite length_app in Hrest'. cbn [length] in Hrest'.
    replace (Z.of_nat (length donels) + 1)
      with (Z.of_nat (length donels + 1)) by lia.
    rewrite <- !app_assoc in Hrest'. cbn [app] in Hrest'.
    rewrite <- app_assoc.
    exists t'. exact Hrest'.
Qed.

(** The store after [createExtendedLoop]: the store before it, then one
    tiled array per channel. *)
Lemma createExtendedLoop_run (s : state) (b : AudioBuffer)
      (targetDuration : float) :
  wellFormed (heap s) b ->
  let total := floorZ (targetDuration * sampleRate b)%float in
  exists t',
    createExtendedLoop b targetDuration s
    = ({| sampleRate := sampleRate b; bufferLength := total;
          channelData := seq (length (heap s)) (length (channelData b)) |},
       {| heap :=
            heap s
              ++ map (fun l =>
                        map (fun k =>
                               fround (if bufferLength b =? 0 then NaN
                                       else get (array (heap s) l)
                                                (Z.rem (Z.of_nat k)
                                                       (bufferLength b))))
                            (seq 0 (Z.to_nat total))) (channelData b);
          trace := t' |}).
Proof.
  intros Hwf total. unfold createExtendedLoop. cbv zeta. fold total.
  unfold bind at 1. rewrite createBuffer_run.
  unfold numberOfChannels. rewrite Nat2Z.id.
  set (h := heap s) in *.
  set (out := {| sampleRate := sampleRate b; bufferLength := total;
                 channelData := seq (length h) (length (channelData b)) |}).
  unfold forM at 1. rewrite Z.sub_0_r, Nat2Z.id.
  destruct (tile_channels h b out total eq_refl (channelData b) [] []
              (trace s) eq_refl eq_refl) as [t' Hrun].
  { unfold wellFormed in Hwf. eapply Forall_impl; [|exact Hwf].
    intros l [Hl _]. exact Hl. }
  cbn [app length Z.of_nat] in Hrun.
  unfold bind at 1. rewrite Hrun. exists t'. reflexivity.
Qed.



(** [createExtendedLoop] keeps within the lengths of the arrays, and writes
    to its new arrays only. *)
Lemma createExtendedLoop_within (h : list Float32Array) (b : AudioBuffer)
      (targetDuration : float) :
  wellFormed h b ->
  0 < bufferLength b ->
  let total := floorZ (targetDuration * sampleRate b)%float in
  let L :=
    lengths (h ++ repeat (repeat 0%float (Z.to_nat total))
                         (Z.to_nat (numberOfChannels b))) in
  good (fun a => withinLengths L a /\ writesBeyond (length h) a) L h
       (snd (createExtendedLoop b targetDuration (init h))).
Proof.
  intros Hwf Hpos. cbv zeta. unfold createExtendedLoop. cbv zeta.
  unfold bind at 1. rewrite createBuffer_run. cbn [init heap trace].
  set (total := floorZ (targetDuration * sampleRate b)%float).
  set (z := repeat 0%float (Z.to_nat total)).
  set (count := Z.to_nat (numberOfChannels b)).
  set (s1 := {| heap := h ++ repeat z count; trace := [] |}).
  set (L := lengths (h ++ repeat z count)).
  set (perm := fun a => withinLengths L a /\ writesBeyond (length h) a).
  assert (G : good perm L h s1).
  { split; [reflexivity|]. split; [constructor|]. now exists (repeat z count). }
  match goal with
  | |- context [bind ?m _ s1] => assert (P : preserves (good perm L h) m)
  end.
  { apply good_forM. intros k [] Hk.
    destruct (input_channel h b k Hwf Hk) as [Hin Hlen].
    assert (Li : lengthAt L (getChannelData b k) = bufferLength b).
    { unfold L. rewrite lengthAt_lengths, array_old by exact Hin.
      exact Hlen. }
    assert (Lo : forall i, 0 <= i < total ->
                           lengthAt L (length h + Z.to_nat k)%nat = total).
    { intros i Hi. unfold L.
      rewrite lengthAt_lengths, array_fresh by (unfold count; lia).
      unfold z, len. rewrite repeat_length. lia. }
    apply good_forM. intros i [] Hi.
    apply good_bind.
    - unfold loadAtRemainder.
      destruct (bufferLength b =? 0); [apply good_ret|].
      apply good_load. split; [|exact I].
      unfold withinLengths. rewrite Li.
      apply Z.rem_bound_pos; lia.
    - intros x. apply good_store; [intros l j [_ H]; exact H|].
      rewrite fresh_channel by (unfold count; lia).
      split; [|cbn; lia].
      unfold withinLengths. rewrite (Lo i Hi). exact Hi. }
  specialize (P s1 G).
  unfold bind. destruct (forM _ _ _ _ s1) as [u s2]. exact P.
Qed.

(** X9.  On a well-formed loop buffer with at least one sample every element
    access of [createExtendedLoop] is within the bounds of the array it
    touches: the loop is read at [i % loopLength], which lies in
    [[0, loopLength)], and the new array is written at [i < totalSamples]. *)
Theorem createExtendedLoop_accesses_in_bounds (h : list Float32Array)
        (b : AudioBuffer) (targetDuration : float) :
  wellFormed h b ->
  0 < bufferLength b ->
  let s' := snd (createExtendedLoop b targetDuration (init h)) in
  Forall (inBounds (heap s')) (trace s').
Proof.
  intros Hwf Hpos. cbv zeta.
  destruct (createExtendedLoop_within h b targetDuration Hwf Hpos)
    as (HL & Ht & _).
  eapply Forall_impl; [|exact Ht].
  intros a [Ha _]. unfold inBounds. unfold withinLengths in Ha.
  rewrite <- HL in Ha.
  destruct a; rewrite lengthAt_lengths in Ha; exact Ha.
Qed.

(** The same extension: every access is within bounds. *)
Lemma createExtendedLoop_accesses_in_bounds_witness :
  Forall (inBounds (heap (snd (createExtendedLoop Examples.buffer1 0.025%float
                                 (init Examples.store1)))))
         (trace (snd (createExtendedLoop Examples.buffer1 0.025%float
                        (init Examples.store1)))).
Proof.
  assert (W1 : wellFormed Examples.store1 Examples.buffer1)
    by (repeat constructor).
  assert (W2 : 0 < bufferLength Examples.buffer1) by reflexivity.
  exact (createExtendedLoop_accesses_in_bounds Examples.store1
           Examples.buffer1 0.025%float W1 W2).
Defined.

(** *** The buffer that [applyCrossfade] returns *)

Lemma applyCrossfade_result (Math_sin Math_cos : float -> float)
      (b : AudioBuffer) (lp : OptimizedLoopPoints) (s : state) :
  fst (applyCrossfade Math_sin Math_cos b lp s)
  = {| sampleRate := sampleRate b;
       bufferLength := endSample lp - startSample lp;
       channelData := seq (length (heap s)) (Z.to_nat (numberOfChannels b)) |}.
Proof.
  unfold applyCrossfade. cbv zeta. unfold bind at 1.
  rewrite createBuffer_run. unfold bind at 1.
  match goal with
  | |- fst (let (_, _) := ?run in _) = _ => destruct run as [u s2]
  end.
  reflexivity.
Qed.

(** The buffer that [applyCrossfade] returns is one of the store after the
    call. *)
Lemma applyCrossfade_wellFormed (Math_sin Math_cos : float -> float)
      (h : list Float32Array) (b : AudioBuffer) (lp : OptimizedLoopPoints) :
  0 <= endSample lp - startSample lp ->
  wellFormed (heap (snd (applyCrossfade Math_sin Math_cos b lp (init h))))
             (fst (applyCrossfade Math_sin Math_cos b lp (init h))).
Proof.
  intros Hlen. rewrite applyCrossfade_result. cbn [init heap].
  destruct (applyCrossfade_good Math_sin Math_cos (writesBeyond (length h))
              h b lp) as (HL & _ & _).
  { intros l i H. exact H. }
  { intros k Hk. unfold permitsChannel, writesBeyond. repeat split; lia. }
  set (s' := snd (applyCrossfade Math_sin Math_cos b lp (init h))) in *.
  set (z := repeat 0%float (Z.to_nat (endSample lp - startSample lp))) in *.
  set (count := Z.to_nat (numberOfChannels b)) in *.
  unfold wellFormed. cbn [channelData bufferLength].
  apply Forall_forall. intros l Hl. apply in_seq in Hl.
  split.
  - assert (E : length (heap s') = length (h ++ repeat z count)).
    { unfold lengths in HL.
      rewrite <- (length_map len (heap s')), HL, length_map. reflexivity. }
    rewrite E, length_app, repeat_length. lia.
  - rewrite <- lengthAt_lengths, HL, lengthAt_lengths.
    replace l with (length h + (l - length h))%nat by lia.
    rewrite array_fresh by lia.
    unfold z, len. rewrite repeat_length. lia.
Qed.


(** *** The in-place DC removal *)

Lemma update_outside (l : loc) (f : Float32Array -> Float32Array)
      (h : list Float32Array) :
  (length h <= l)%nat -> update l f h = h.
Proof.
  revert l. induction h as [|a h IH]; intros l Hl; [now destruct l|].
  destruct l as [|l]; [cbn in Hl; lia|].
  cbn. f_equal. apply IH. cbn in Hl. lia.
Qed.

Lemma array_outside (h : list Float32Array) (l : loc) :
  (length h <= l)%nat -> array h l = [].
Proof. intros Hl. unfold array. now apply nth_overflow. Qed.

(** The summing loop reads the array and leaves the store as it is. *)
Lemma sum_loop (data : loc) (H : list Float32Array) (rest done : Float32Array)
      (acc : float) (t : list access) :
  array H data = done ++ rest ->
  exists t',
    loopM (length rest) (len done)
          (fun i sum => x <- load data i ;; ret (sum + x)%float) acc
          {| heap := H; trace := t |}
    = (fold_left (fun sum x => (sum + x)%float) rest acc,
       {| heap := H; trace := t' |}).
Proof.
  revert done acc t. induction rest as [|x rest IH]; intros done acc t Ha.
  - exists t. reflexivity.
  - cbn [length loopM fold_left]. unfold bind at 1.
    unfold bind at 1, load at 1, ret at 1. cbn [heap trace].
    rewrite Ha, get_middle.
    replace (len done + 1) with (len (done ++ [x]))
      by (unfold len; rewrite length_app; cbn; lia).
    apply IH. rewrite Ha, <- app_assoc. reflexivity.
Qed.

(** The subtracting loop rewrites the array sample by sample. *)
Lemma subtract_loop (mean : float) (pre post : list Float32Array)
      (rest done : Float32Array) (t : list access) :
  exists t',
    loopM (length rest) (len done)
          (fun i (_ : unit) =>
             x <- load (length pre) i ;;
             store (length pre) i (x - mean)%float) tt
          {| heap := pre ++ (done ++ rest) :: post; trace := t |}
    = (tt,
       {| heap :=
            pre ++ (done ++ map (fun x => fround (x - mean)%float) rest)
                :: post;
          trace := t' |}).
Proof.
  revert done t. induction rest as [|x rest IH]; intros done t.
  - exists t. reflexivity.
  - cbn [length loopM map]. unfold bind at 1.
    unfold bind at 1, load at 1, store at 1. cbn [heap trace].
    rewrite array_at, get_middle, update_at, set_middle.
    replace (done ++ fround (x - mean) :: rest)
      with ((done ++ [fround (x - mean)%float]) ++ rest)
      by (now rewrite <- app_assoc).
    replace (len done + 1) with (len (done ++ [fround (x - mean)%float]))
      by (unfold len; rewrite length_app; cbn; lia).
    replace (done ++ fround (x - mean)
                  :: map (fun x0 => fround (x0 - mean)%float) rest)
      with ((done ++ [fround (x - mean)%float])
              ++ map (fun x0 => fround (x0 - mean)%float) rest)
      by (now rewrite <- app_assoc).
    apply IH.
Qed.

(** X11.  [removeDCOffsetInPlace] computes the mean of the array, the sum of
    its samples in index order divided by [max(1, length)], before it writes
    anything; when the magnitude of the mean is below 1e-6 the store is left
    as it is, otherwise every sample [x] of the array becomes [x - mean]
    (rounded to binary32 by the store) and no other array changes. *)
Theorem removeDCOffsetInPlace_subtracts_mean (data : loc) (s : state) :
  let a := array (heap s) data in
  let sum := fold_left (fun sum x => (sum + x)%float) a 0%float in
  let mean := (sum / Number_ofZ (Z.max 1 (len a)))%float in
  heap (snd (removeDCOffsetInPlace data s))
  = if (Math_abs mean <? EPSILON)%float then heap s
    else update data (map (fun x => fround (x - mean)%float)) (heap s).
Proof.
  cbv zeta. destruct s as [H t]. cbn [heap].
  unfold removeDCOffsetInPlace. unfold bind at 1, lengthOf at 1.
  cbn [heap]. unfold bind at 1. unfold forM at 1.
  rewrite Z.sub_0_r.
  replace (Z.to_nat (len (array H data))) with (length (array H data))
    by (unfold len; lia).
  destruct (sum_loop data H (array H data) [] 0%float t eq_refl) as [t1 E1].
  cbn [len length Z.of_nat] in E1. rewrite E1.
  match goal with |- context [if ?c then _ else _] => destruct c end;
    [reflexivity|].
  unfold forM. rewrite Z.sub_0_r.
  replace (Z.to_nat (len (array H data))) with (length (array H data))
    by (unfold len; lia).
  destruct (Nat.lt_ge_cases data (length H)) as [Hin | Hout].
  - destruct (split_at H data Hin) as [EH Elen].
    set (pre := firstn data H) in *. set (post := skipn (S data) H) in *.
    set (a := array H data) in *.
    rewrite <- Elen. rewrite EH at 1.
    match goal with
    | |- context [fun x => fround (x - ?m)%float] => set (mean := m)
    end.
    destruct (subtract_loop mean pre post a [] t1) as [t2 E2].
    cbn [len length Z.of_nat app] in E2.
    match goal with
    | |- heap (snd ?run) = _ =>
        replace run
          with (tt, {| heap := pre ++ map (fun x => fround (x - mean)%float) a
                                   :: post;
                       trace := t2 |})
          by (symmetry; exact E2)
    end.
    cbn [snd heap].
    rewrite EH at 1. now rewrite update_at.
  - rewrite (array_outside H data Hout). cbn [length loopM ret snd heap].
    now rewrite update_outside.
Qed.

(** *** The seam smoothing changes the tail only *)

Section Prefix.

Import Unchanged.

Variable h0 : list Float32Array.
Variable data : loc.
Variable k : Z.

Lemma keeps_ret {A : Type} (a : A) :
  preserves (keepsPrefix h0 data k) (ret a).
Proof. intros s H. exact H. Qed.

Lemma keeps_bind {A B : Type} (m : M A) (f : A -> M B) :
  preserves (keepsPrefix h0 data k) m ->
  (forall a, preserves (keepsPrefix h0 data k) (f a)) ->
  preserves (keepsPrefix h0 data k) (bind m f).
Proof.
  intros Hm Hf s H. unfold bind.
  specialize (Hm s H). destruct (m s) as [a s']. now apply Hf.
Qed.

Lemma keeps_load (l : loc) (i : Z) :
  preserves (keepsPrefix h0 data k) (load l i).
Proof. intros s H. exact H. Qed.

Lemma array_update_other (l l' : loc) (f : Float32Array -> Float32Array)
      (h : list Float32Array) :
  l' <> l -> array (update l f h) l' = array h l'.
Proof.
  unfold array. revert l l'. induction h as [|a h IH]; intros l l' Hne.
  - now destruct l.
  - destruct l as [|l], l' as [|l']; cbn; try reflexivity; try lia.
    apply IH. lia.
Qed.

Lemma array_update_same (l : loc) (f : Float32Array -> Float32Array)
      (h : list Float32Array) :
  f [] = [] -> array (update l f h) l = f (array h l).
Proof.
  intros Hf. unfold array. revert l. induction h as [|a h IH]; intros l.
  - destruct l; cbn; now rewrite Hf.
  - destruct l as [|l]; cbn; [reflexivity | apply IH].
Qed.

Lemma get_set_nth_other (a : Float32Array) (n m : nat) (v : float) :
  n <> m -> nth m (set_nth n v a) NaN = nth m a NaN.
Proof.
  revert n m. induction a as [|x a IH]; intros n m Hne.
  - now destruct n.
  - destruct n as [|n], m as [|m]; cbn; try reflexivity; try lia.
    apply IH. lia.
Qed.

Lemma get_set_other (a : Float32Array) (i j : Z) (v : float) :
  i <> j -> get (set a i v) j = get a j.
Proof.
  intros Hne. unfold get, set.
  destruct (j <? 0) eqn:Ej; [reflexivity|].
  destruct (i <? 0) eqn:Ei; [reflexivity|].
  apply Z.ltb_ge in Ej, Ei.
  apply get_set_nth_other. lia.
Qed.

Lemma keeps_store (i : Z) (v : float) :
  k <= i -> preserves (keepsPrefix h0 data k) (store data i v).
Proof.
  intros Hi s (HL & Hother & Hpre). unfold keepsPrefix, store.
  cbn [snd heap]. split; [|split].
  - rewrite lengths_update; [exact HL|]. intros a. apply set_length.
  - intros l Hl. rewrite array_update_other by exact Hl. now apply Hother.
  - intros j Hj. rewrite array_update_same.
    + rewrite get_set_other by lia. now apply Hpre.
    + unfold set. destruct (i <? 0); [reflexivity | now destruct (Z.to_nat i)].
Qed.

Lemma keeps_lengthOf {A : Type} (kont : Z -> M A) :
  preserves (keepsPrefix h0 data k) (kont (len (array h0 data))) ->
  preserves (keepsPrefix h0 data k) (bind (lengthOf data) kont).
Proof.
  intros Hk s H. unfold bind, lengthOf.
  destruct H as (HL & Hother & Hpre) eqn:E.
  rewrite <- lengthAt_lengths, HL, lengthAt_lengths. apply Hk. exact H.
Qed.

Lemma keeps_loopM {A : Type} (n : nat) (i : Z) (body : Z -> A -> M A) (a : A) :
  (forall j a, i <= j < i + Z.of_nat n ->
               preserves (keepsPrefix h0 data k) (body j a)) ->
  preserves (keepsPrefix h0 data k) (loopM n i body a).
Proof.
  revert i a. induction n as [|n IH]; intros i a Hb; cbn [loopM].
  - apply keeps_ret.
  - apply keeps_bind; [apply Hb; lia|].
    intros a'. apply IH. intros j a'' Hj. apply Hb. lia.
Qed.

Lemma keeps_forM {A : Type} (lo hi : Z) (body : Z -> A -> M A) (a : A) :
  (forall j a, lo <= j < hi -> preserves (keepsPrefix h0 data k) (body j a)) ->
  preserves (keepsPrefix h0 data k) (forM lo hi body a).
Proof.
  intros Hb. unfold forM. apply keeps_loopM.
  intros j a' Hj. apply Hb. lia.
Qed.

Ltac keep :=
  repeat first
    [ apply keeps_ret
    | apply keeps_load
    | apply keeps_bind; [|intros ?]
    | apply keeps_forM; intros ? ? ? ].

Lemma keeps_getSegmentMean (start length : Z) :
  preserves (keepsPrefix h0 data k) (getSegmentMean data start length).
Proof. unfold getSegmentMean. apply keeps_lengthOf. keep. Qed.

Lemma keeps_getAverageSlope (start length : Z) :
  preserves (keepsPrefix h0 data k) (getAverageSlope data start length).
Proof. unfold getAverageSlope. apply keeps_lengthOf. keep. Qed.

Lemma keeps_smoothPass (tailStart seamWindow : Z) :
  k <= tailStart ->
  preserves (keepsPrefix h0 data k) (smoothPass data tailStart seamWindow).
Proof.
  intros Hk. unfold smoothPass.
  apply keeps_bind; [apply keeps_load | intros ?].
  apply keeps_bind; [|intros ?; apply keeps_ret].
  apply keeps_forM. intros j acc Hj.
  apply keeps_bind; [apply keeps_load | intros ?].
  apply keeps_bind; [apply keeps_load | intros ?].
  apply keeps_bind; [apply keeps_store; lia | intros ?].
  apply keeps_ret.
Qed.

Lemma keeps_smoothLoopSeam :
  k = len (array h0 data) - seamWindowOf (len (array h0 data)) ->
  preserves (keepsPrefix h0 data k) (smoothLoopSeam data).
Proof.
  intros Hk. unfold smoothLoopSeam. apply keeps_lengthOf.
  destruct (seamWindowOf (len (array h0 data)) <? 4); [apply keeps_ret|].
  cbv zeta.
  apply keeps_bind; [apply keeps_getSegmentMean | intros ?].
  apply keeps_bind; [apply keeps_getSegmentMean | intros ?].
  apply keeps_bind.
  { apply keeps_forM. intros j [] Hj.
    apply keeps_bind; [apply keeps_load | intros ?].
    apply keeps_store. lia. }
  intros ?.
  apply keeps_bind; [apply keeps_getAverageSlope | intros ?].
  apply keeps_bind; [apply keeps_getAverageSlope | intros ?].
  apply keeps_bind.
  { apply keeps_forM. intros j [] Hj.
    apply keeps_bind; [apply keeps_load | intros ?].
    apply keeps_store. lia. }
  intros ?.
  apply keeps_forM. intros j [] Hj. apply keeps_smoothPass. lia.
Qed.

End Prefix.

(** Arrays of fewer than 40 samples have a seam window below 4. *)
Lemma seamWindowOf_short :
  forallb (fun n => seamWindowOf (Z.of_nat n) <? 4) (seq 0 40) = true.
Proof. vm_compute. reflexivity. Qed.

(** X12.  [smoothLoopSeam] changes nothing but the last [seamWindow] samples
    of its array, [seamWindow = min(2048, floor(length * 0.1))], which is at
    most the length of the array: every array of the store keeps its length,
    every other array keeps its samples, and so do the samples of the array
    before index [length - seamWindow].  An array of fewer than 40 samples is
    left as it is. *)
Theorem smoothLoopSeam_changes_the_tail_only (data : loc) (s : state) :
  let n := len (array (heap s) data) in
  let s' := snd (smoothLoopSeam data s) in
  lengths (heap s') = lengths (heap s)
  /\ (forall l, l <> data -> array (heap s') l = array (heap s) l)
  /\ (forall i, i < n - seamWindowOf n ->
                get (array (heap s') data) i = get (array (heap s) data) i)
  /\ seamWindowOf n <= Z.min 2048 n
  /\ (n < 40 -> smoothLoopSeam data s = (tt, s)).
Proof.
  cbv zeta.
  set (n := len (array (heap s) data)).
  assert (Hn : 0 <= n) by (unfold n, len; lia).
  pose proof (keeps_smoothLoopSeam (heap s) data (n - seamWindowOf n) eq_refl s)
    as H.
  destruct H as (HL & Hother & Hpre).
  { split; [reflexivity|]. split; reflexivity. }
  split; [exact HL|]. split; [exact Hother|]. split; [exact Hpre|].
  split.
  - pose proof (seamWindowOf_le n Hn). unfold seamWindowOf in *. lia.
  - intros Hshort. unfold smoothLoopSeam, bind, lengthOf. fold n.
    pose proof seamWindowOf_short as Hs. rewrite forallb_forall in Hs.
    specialize (Hs (Z.to_nat n)). rewrite Z2Nat.id in Hs by exact Hn.
    rewrite Hs by (apply in_seq; lia). reflexivity.
Qed.

(** *** The window statistics of the seam smoothing *)

(** A run from the store [h] that has only read [data], within its bounds,
    leaves the store as it is. *)
Lemma reads_only (h : list Float32Array) (data : loc) (s' : state) :
  good (fun a => match a with
                 | Load l i => l = data /\ 0 <= i < lengthAt (lengths h) data
                 | Store _ _ => False
                 end) (lengths h) h s' ->
  heap s' = h
  /\ Forall (fun a => match a with
                      | Load l i => l = data /\ 0 <= i < len (array h data)
                      | Store _ _ => False
                      end) (trace s').
Proof.
  intros (HL & Ht & extra & He). split.
  - assert (Hlen : length (heap s') = length h).
    { unfold lengths in HL.
      now rewrite <- (length_map len (heap s')), HL, length_map. }
    rewrite He, length_app in Hlen.
    destruct extra; [now rewrite app_nil_r in He | cbn in Hlen; lia].
  - eapply Forall_impl; [|exact Ht].
    intros [l i | l i]; [|tauto]. now rewrite lengthAt_lengths.
Qed.

(** X19.  [getSegmentMean] clamps its window to the array: for every start
    and length, it only reads its array, at indices within the bounds, and
    leaves the store as it is.  [getAverageSlope] does not clamp: it does the
    same when the start is not negative, the length is at least 2 and at
    least two samples follow the start. *)
Theorem seam_statistics_only_read (h : list Float32Array) (data : loc)
        (start length : Z) :
  let readsWithin (s' : state) :=
    heap s' = h
    /\ Forall (fun a => match a with
                        | Load l i => l = data /\ 0 <= i < len (array h data)
                        | Store _ _ => False
                        end) (trace s') in
  readsWithin (snd (getSegmentMean data start length (init h)))
  /\ (0 <= start -> 2 <= length -> start + 2 <= len (array h data) ->
      readsWithin (snd (getAverageSlope data start length (init h)))).
Proof.
  cbv zeta.
  set (perm := fun a => match a with
                        | Load l i =>
                            l = data /\ 0 <= i < lengthAt (lengths h) data
                        | Store _ _ => False
                        end).
  assert (G : good perm (lengths h) h (init h)).
  { split; [reflexivity|]. split; [constructor|].
    exists []. cbn. now rewrite app_nil_r. }
  assert (Hp : forall i, 0 <= i < lengthAt (lengths h) data ->
                         perm (Load data i))
    by (intros i Hi; split; [reflexivity | exact Hi]).
  split.
  - apply reads_only.
    exact (good_getSegmentMean perm (lengths h) h data start length Hp _ G).
  - intros H0 H2 Hn. apply reads_only.
    refine (good_getAverageSlope perm (lengths h) h data start length
              H0 H2 _ Hp _ G).
    rewrite lengthAt_lengths. lia.
Qed.

(** The slope of four samples from index 6 of the ten samples. *)
Lemma seam_statistics_only_read_witness :
  heap (snd (getAverageSlope 0%nat 6 4 (init Examples.store1)))
  = Examples.store1
  /\ Forall (fun a => match a with
                      | Load l i =>
                          l = 0%nat
                          /\ 0 <= i < len (array Examples.store1 0%nat)
                      | Store _ _ => False
                      end)
            (trace (snd (getAverageSlope 0%nat 6 4 (init Examples.store1)))).
Proof.
  pose proof (seam_statistics_only_read Examples.store1 0%nat 6 4) as H.
  cbv zeta in H. destruct H as [_ H].
  apply H; vm_compute; discriminate.
Defined.

(** With fewer than two samples after the start [getAverageSlope] reads past
    the end of the array: index 10 of the ten samples. *)
Example getAverageSlope_reads_past_the_end :
  In (Load 0%nat 10)
     (trace (snd (getAverageSlope 0%nat 9 4 (init Examples.store1)))).
Proof. vm_compute. right. left. reflexivity. Qed.

End CrossfadeExtras.

(* ================================================================== *)
(** * Further properties of the encoders *)
(* ================================================================== *)

Module EncoderExtras.
Import JS AudioProcessing ExportAudio WaveformViewer.
Import FloatOrder Loops EncoderProps.

(** *** The size and the bytes of the file *)

Lemma payload_length (samples : list float) :
  length (payload samples) = (2 * length samples)%nat.
Proof.
  unfold payload. induction samples as [|x samples IH]; [reflexivity|].
  cbn [flat_map length]. rewrite length_app, IH. cbn [le16 length]. lia.
Qed.

Lemma payload_bytes (samples : list float) :
  Forall (fun byte => 0 <= byte < 256) (payload samples).
Proof.
  unfold payload. induction samples as [|x samples IH]; [constructor|].
  cbn [flat_map]. apply Forall_app. split; [|exact IH].
  unfold le16. repeat constructor; apply Z.mod_pos_bound; lia.
Qed.

Lemma header_bytes (n sr br dl : Z) :
  Forall (fun byte => 0 <= byte < 256) (header n sr br dl).
Proof.
  unfold header, le32, le16. cbn [app].
  repeat (apply Forall_app; split);
    repeat constructor;
    try (apply Z.mod_pos_bound; lia);
    try (vm_compute; discriminate);
    try (vm_compute; reflexivity).
Qed.

Lemma header_sizes (n sr br dl : Z) (tail : list Z) :
  readUint32 (header n sr br dl ++ tail) 4
  = (36 + dl) mod 256 + 256 * (((36 + dl) / 256) mod 256)
    + 65536 * (((36 + dl) / 65536) mod 256)
    + 16777216 * (((36 + dl) / 16777216) mod 256)
  /\ readUint32 (header n sr br dl ++ tail) 28
     = br mod 256 + 256 * ((br / 256) mod 256) + 65536 * ((br / 65536) mod 256)
       + 16777216 * ((br / 16777216) mod 256)
  /\ firstn 4 (header n sr br dl ++ tail) = charCodes "RIFF"
  /\ firstn 8 (skipn 8 (header n sr br dl ++ tail)) = charCodes "WAVEfmt "
  /\ firstn 4 (skipn 36 (header n sr br dl ++ tail)) = charCodes "data".
Proof. split_all; reflexivity. Qed.

Lemma audioBufferToWav_length (b : AudioBuffer) :
  Z.of_nat (length (audioBufferToWav b))
  = 44 + 2 * (Z.max 0 (bufferLength b) * numberOfChannels b).
Proof.
  rewrite audioBufferToWav_layout.
  rewrite length_app, header_length, payload_length.
  pose proof (interleaved_length b) as H. unfold len in H. lia.
Qed.

(** X13.  The file that [audioBufferToWav] produces has
    [44 + 2 * frames * channels] bytes, each of them in [[0, 256)]; it begins
    with [RIFF], has [WAVEfmt ] at offset 8 and [data] at offset 36; and for
    a file shorter than 4 GiB the RIFF size field at offset 4 is the length
    of the file less 8 and the data size field at offset 40 is the length of
    the file less 44. *)
Theorem audioBufferToWav_is_a_RIFF_file (b : AudioBuffer) :
  let bytes := audioBufferToWav b in
  let size := Z.of_nat (length bytes) in
  size = 44 + 2 * (Z.max 0 (bufferLength b) * numberOfChannels b)
  /\ Forall (fun byte => 0 <= byte < 256) bytes
  /\ firstn 4 bytes = charCodes "RIFF"
  /\ firstn 8 (skipn 8 bytes) = charCodes "WAVEfmt "
  /\ firstn 4 (skipn 36 bytes) = charCodes "data"
  /\ (size < 4294967296 ->
      readUint32 bytes 4 = size - 8 /\ readUint32 bytes 40 = size - 44).
Proof.
  cbv zeta. split; [apply audioBufferToWav_length|].
  rewrite audioBufferToWav_layout.
  set (n := numberOfChannels b).
  set (sr := ToUint32 (sampleRate b)).
  set (br := ToUint32 (sampleRate b * Number_ofZ (n * 2))%float).
  set (data := interleaved b).
  assert (Hsize : Z.of_nat (length (header n sr br (len data * 2)
                                    ++ payload data))
                  = 44 + len data * 2).
  { rewrite length_app, header_length, payload_length. unfold len. lia. }
  destruct (header_sizes n sr br (len data * 2) (payload data))
    as (F4 & _ & M0 & M8 & M36).
  destruct (header_fields n sr br (len data * 2) (payload data))
    as (_ & _ & _ & _ & _ & F40).
  split; [apply Forall_app; split; [apply header_bytes | apply payload_bytes]|].
  split; [exact M0|]. split; [exact M8|]. split; [exact M36|].
  rewrite Hsize. intros Hsmall.
  assert (H0 : 0 <= len data) by (unfold len; lia).
  split.
  - rewrite F4. rewrite le32_value by lia. lia.
  - rewrite F40. rewrite le32_value by lia. lia.
Qed.

(** *** Saturation *)

(** A number that compares equal to 1, or to -1, is that number. *)
Lemma compare_one (x : float) :
  SFcompare (Prim2SF 1) (Prim2SF x) = Some Eq -> x = 1%float.
Proof.
  intros H. apply Prim2SF_inj.
  change (Prim2SF 1) with (S754_finite false 4503599627370496 (-52)) in *.
  destruct (Prim2SF x) as [[|]|[|]| |[|] m e]; try discriminate H.
  unfold SFcompare in H.
  destruct (Z.compare_spec (-52) e); try discriminate H. subst e.
  destruct (PosDef.Pos.compare_cont Eq 4503599627370496 m) eqn:E;
    try discriminate H.
  pose proof (Pos.compare_eq 4503599627370496 m E) as <-.
  reflexivity.
Qed.

Lemma compare_minus_one (x : float) :
  SFcompare (Prim2SF x) (Prim2SF (-1)) = Some Eq -> x = (-1)%float.
Proof.
  intros H. apply Prim2SF_inj.
  change (Prim2SF (-1)) with (S754_finite true 4503599627370496 (-52)) in *.
  destruct (Prim2SF x) as [[|]|[|]| |[|] m e]; try discriminate H.
  unfold SFcompare in H.
  destruct (Z.compare_spec e (-52)); try discriminate H. subst e.
  destruct (PosDef.Pos.compare_cont Eq m 4503599627370496) eqn:E;
    try discriminate H.
  pose proof (Pos.compare_eq m 4503599627370496 E) as ->.
  reflexivity.
Qed.

Lemma is_nan_true (x : float) : is_nan x = true -> x = NaN.
Proof.
  intros H. rewrite <- (SF2Prim_Prim2SF x).
  destruct (Prim2SF x) as [[|]|[|]| |[|] m e] eqn:E; try reflexivity;
    exfalso;
    assert (Hn : is_nan x = false)
      by (apply is_nan_false; rewrite E; discriminate);
    congruence.
Qed.

Lemma clampSample_above (x : float) :
  (1 <=? x)%float = true -> clampSample x = 1%float.
Proof.
  intros H. destruct (leb_not_nan _ _ H) as [_ Nx].
  assert (Hmin : Math_min 1 x = 1%float).
  { unfold Math_min. rewrite Nx. cbn [is_nan orb].
    change (is_nan 1) with false. cbn [orb].
    destruct (1 <? x)%float eqn:E1; [reflexivity|].
    rewrite (ltb_irrefl_leb _ _ H).
    change (get_sign 1) with false. cbv iota.
    apply compare_one. apply leb_true in H. destruct H as [H | H]; [|exact H].
    apply ltb_true in H. congruence. }
  unfold clampSample. rewrite Hmin. reflexivity.
Qed.

Lemma clampSample_below (x : float) :
  (x <=? -1)%float = true -> clampSample x = (-1)%float.
Proof.
  intros H. destruct (leb_not_nan _ _ H) as [Nx _].
  assert (Hlt : (x <? 1)%float = true).
  { apply leb_ltb_trans with (-1)%float; [exact H | reflexivity]. }
  assert (Hmin : Math_min 1 x = x).
  { unfold Math_min. rewrite Nx. change (is_nan 1) with false. cbn [orb].
    rewrite (ltb_irrefl_leb _ _ (ltb_leb _ _ Hlt)). now rewrite Hlt. }
  unfold clampSample. rewrite Hmin.
  unfold Math_max. rewrite Nx. change (is_nan (-1)) with false. cbn [orb].
  rewrite (ltb_irrefl_leb _ _ H).
  destruct (x <? -1)%float eqn:E1; [reflexivity|].
  change (get_sign (-1)) with true. cbv iota.
  apply compare_minus_one. apply leb_true in H. destruct H as [H | H]; [|exact H].
  apply ltb_true in H. congruence.
Qed.

(** X14.  The encoder saturates: a sample at or above 1 (+Infinity included)
    is written as the word 32767, a sample at or below -1 (-Infinity
    included) as -32768, and a NaN sample as 0. *)
Theorem intSample_saturates (x : float) :
  ((1 <=? x)%float = true -> ToInt16 (intSample x) = 32767)
  /\ ((x <=? -1)%float = true -> ToInt16 (intSample x) = -32768)
  /\ (is_nan x = true -> ToInt16 (intSample x) = 0).
Proof.
  split; [|split]; intros H; unfold intSample; cbv zeta.
  - rewrite (clampSample_above x H). vm_compute. reflexivity.
  - rewrite (clampSample_below x H). vm_compute. reflexivity.
  - rewrite (is_nan_true x H). vm_compute. reflexivity.
Qed.

(** The words of 2.5, of -Infinity and of NaN. *)
Lemma intSample_saturates_witness :
  ToInt16 (intSample 2.5%float) = 32767
  /\ ToInt16 (intSample neg_infinity) = -32768
  /\ ToInt16 (intSample NaN) = 0.
Proof.
  pose proof (intSample_saturates 2.5%float) as (H1 & _ & _).
  pose proof (intSample_saturates neg_infinity) as (_ & H2 & _).
  pose proof (intSample_saturates NaN) as (_ & _ & H3).
  split; [apply H1; reflexivity|].
  split; [apply H2; reflexivity | apply H3; reflexivity].
Defined.

(** *** Where a sample lands in the interleaved array *)

Lemma flat_map_nth_block {A B : Type} (f : A -> list B) (m : nat)
      (l : list A) (i c : nat) (d : B) (da : A) :
  (forall a, length (f a) = m) ->
  (i < length l)%nat -> (c < m)%nat ->
  nth (i * m + c) (flat_map f l) d = nth c (f (nth i l da)) d.
Proof.
  intros Hm. revert i. induction l as [|a l IH]; intros i Hi Hc;
    [cbn in Hi; lia|].
  cbn [flat_map]. destruct i as [|i].
  - cbn [Nat.mul Nat.add nth]. apply app_nth1. rewrite Hm. exact Hc.
  - rewrite app_nth2 by (rewrite Hm; nia).
    rewrite Hm. replace (S i * m + c - m)%nat with (i * m + c)%nat by nia.
    cbn [nth]. apply IH; [cbn in Hi; lia | exact Hc].
Qed.

(** X15.  [interleaveChannels] returns [frames * channels] samples, and
    sample [i] of channel [c] is at index [i * channels + c] of the result
    (rounded to binary32 by the store into the result array). *)
Theorem interleaveChannels_index (b : AudioBuffer) (i c : Z) :
  0 <= i < bufferLength b ->
  0 <= c < numberOfChannels b ->
  len (interleaveChannels b) = bufferLength b * numberOfChannels b
  /\ get (interleaveChannels b) (i * numberOfChannels b + c)
     = fround (get (nth (Z.to_nat c) (channels b) []) i).
Proof.
  intros Hi Hc. rewrite interleaveChannels_interleaved.
  split; [rewrite interleaved_length; lia|].
  unfold numberOfChannels in *. unfold get at 1.
  destruct (i * Z.of_nat (length (channels b)) + c <? 0) eqn:E;
    [apply Z.ltb_lt in E; nia|].
  replace (Z.to_nat (i * Z.of_nat (length (channels b)) + c))
    with (Z.to_nat i * length (channels b) + Z.to_nat c)%nat by nia.
  unfold interleaved.
  rewrite (flat_map_nth_block
             (fun k => frame (channels b) (Z.of_nat k))
             (length (channels b)) _ _ _ NaN O).
  - rewrite seq_nth by lia. cbn [Nat.add]. rewrite Z2Nat.id by lia.
    unfold frame.
    rewrite (nth_indep _ NaN (fround (get [] i)))
      by (rewrite length_map; lia).
    apply (map_nth (fun ch => fround (get ch i))).
  - intros k. apply frame_length.
  - rewrite length_seq. lia.
  - lia.
Qed.

(** Frame 2 of the right channel of [stereo] is at index 5. *)
Lemma interleaveChannels_index_witness :
  len (interleaveChannels Examples.stereo)
  = bufferLength Examples.stereo * numberOfChannels Examples.stereo
  /\ get (interleaveChannels Examples.stereo)
         (2 * numberOfChannels Examples.stereo + 1)
     = fround (get (nth (Z.to_nat 1) (channels Examples.stereo) []) 2).
Proof.
  apply (interleaveChannels_index Examples.stereo 2 1);
    vm_compute; split; congruence.
Defined.

(** *** The preview encoder of the waveform display *)

Lemma payload_app (xs ys : list float) :
  payload (xs ++ ys) = payload xs ++ payload ys.
Proof. unfold payload. apply flat_map_app. Qed.

(** The channel loop of [audioBufferToBlob] writes the words of one frame at
    the cursor. *)
Lemma writeFrame_channels_from (channels pre suf : list Float32Array) (i : Z)
      (w : list Z) (room : nat) :
  channels = pre ++ suf ->
  iterate (length suf) (Z.of_nat (length pre)) 1
    (fun channel '(view, offset) =>
       let sample :=
         Math_max (-1)%float
                  (Math_min 1%float
                            (get (nth (Z.to_nat channel) channels []) i)) in
       (setInt16 view offset
                 (if (sample <? 0)%float then (sample * 32768)%float
                  else (sample * 32767)%float),
        offset + 2))
    (w ++ repeat 0 (2 * length suf + room), Z.of_nat (length w))
  = (w ++ payload (map (fun c => get c i) suf) ++ repeat 0 room,
     Z.of_nat (length w) + 2 * Z.of_nat (length suf)).
Proof.
  revert pre w. induction suf as [|c suf IH]; intros pre w Hc.
  - cbn. now rewrite Z.add_0_r.
  - cbn [length iterate map].
    replace (2 * S (length suf) + room)%nat
      with (S (S (2 * length suf + room))) by lia.
    cbn [repeat]. cbv zeta.
    rewrite setInt16_middle, Nat2Z.id.
    replace (nth (length pre) channels []) with c
      by (rewrite Hc, app_nth2, Nat.sub_diag by lia; reflexivity).
    change (if (Math_max (-1) (Math_min 1 (get c i)) <? 0)%float
            then (Math_max (-1) (Math_min 1 (get c i)) * 32768)%float
            else (Math_max (-1) (Math_min 1 (get c i)) * 32767)%float)
      with (intSample (get c i)).
    set (word := le16 (ToInt16 (intSample (get c i)))).
    replace (w ++ word ++ repeat 0 (2 * length suf + room))
      with ((w ++ word) ++ repeat 0 (2 * length suf + room))
      by (now rewrite <- app_assoc).
    replace (Z.of_nat (length w) + 2) with (Z.of_nat (length (w ++ word)))
      by (rewrite length_app; cbn; lia).
    replace (Z.of_nat (length pre) + 1) with (Z.of_nat (length (pre ++ [c])))
      by (rewrite length_app; cbn; lia).
    rewrite (IH (pre ++ [c])) by (now rewrite <- app_assoc).
    change (payload (get c i :: map (fun c0 => get c0 i) suf))
      with (word ++ payload (map (fun c0 => get c0 i) suf)).
    rewrite <- !app_assoc. f_equal.
    rewrite length_app. cbn [length word le16]. lia.
Qed.

Lemma writeFrame_run (channels : list Float32Array) (i : Z) (w : list Z)
      (room : nat) :
  writeFrame channels i
    (w ++ repeat 0 (2 * length channels + room), Z.of_nat (length w))
  = (w ++ payload (map (fun c => get c i) channels) ++ repeat 0 room,
     Z.of_nat (length w) + 2 * Z.of_nat (length channels)).
Proof.
  unfold writeFrame. rewrite for_range_nat.
  apply (writeFrame_channels_from channels [] channels). reflexivity.
Qed.

(** The frame loop of [audioBufferToBlob], from frame [k] on. *)
Lemma writeFrames_from (channels : list Float32Array) (n k : nat)
      (w : list Z) :
  iterate n (Z.of_nat k) 1 (writeFrame channels)
    (w ++ repeat 0 (n * (2 * length channels)), Z.of_nat (length w))
  = (w ++ payload (flat_map (fun i => map (fun c => get c (Z.of_nat i))
                                          channels) (seq k n)),
     Z.of_nat (length w) + Z.of_nat (n * (2 * length channels))).
Proof.
  revert k w. induction n as [|n IH]; intros k w.
  - cbn. now rewrite !app_nil_r, Z.add_0_r.
  - cbn [iterate seq flat_map].
    replace (S n * (2 * length channels))%nat
      with (2 * length channels + n * (2 * length channels))%nat by lia.
    rewrite writeFrame_run.
    set (words := payload (map (fun c => get c (Z.of_nat k)) channels)).
    replace (w ++ words ++ repeat 0 (n * (2 * length channels)))
      with ((w ++ words) ++ repeat 0 (n * (2 * length channels)))
      by (now rewrite <- app_assoc).
    assert (Hw : length words = (2 * length channels)%nat)
      by (unfold words; rewrite payload_length, length_map; reflexivity).
    replace (Z.of_nat (length w) + 2 * Z.of_nat (length channels))
      with (Z.of_nat (length (w ++ words)))
      by (rewrite length_app, Hw; lia).
    replace (Z.of_nat k + 1) with (Z.of_nat (S k)) by lia.
    rewrite IH. rewrite payload_app. fold words.
    rewrite <- app_assoc. f_equal.
    rewrite length_app, Hw. lia.
Qed.

(** The bytes that [audioBufferToBlob] produces: the header with the byte
    rate [sampleRate * 4], then the words of the samples read from the
    channel arrays frame by frame. *)
Lemma audioBufferToBlob_layout (b : AudioBuffer) :
  0 <= bufferLength b ->
  audioBufferToBlob b
  = header (numberOfChannels b) (ToUint32 (sampleRate b))
           (ToUint32 (sampleRate b * 4)%float)
           (bufferLength b * numberOfChannels b * 2)
    ++ payload (flat_map (fun i => map (fun c => get c (Z.of_nat i))
                                       (channels b))
                         (seq 0 (Z.to_nat (bufferLength b)))).
Proof.
  intros Hlen. unfold audioBufferToBlob. cbv zeta.
  set (n := numberOfChannels b).
  replace (Z.to_nat (44 + bufferLength b * n * 2))
    with (44 + Z.to_nat (bufferLength b) * (2 * length (channels b)))%nat
    by (unfold n, numberOfChannels; nia).
  rewrite repeat_app.
  pose proof (header_writes n (ToUint32 (sampleRate b))
                (ToUint32 (sampleRate b * 4)%float)
                (bufferLength b * n * 2)
                (repeat 0 (Z.to_nat (bufferLength b)
                           * (2 * length (channels b))))) as H.
  cbv zeta in H. rewrite H. clear H.
  rewrite for_range_Z.
  set (hd := header _ _ _ _).
  pose proof (writeFrames_from (channels b) (Z.to_nat (bufferLength b)) 0 hd)
    as W.
  replace (Z.of_nat (length hd)) with 44 in W by reflexivity.
  exact (f_equal fst W).
Qed.

Lemma get_fround_fixed (c : Float32Array) (i : Z) :
  Forall (fun x => fround x = x) c -> fround (get c i) = get c i.
Proof.
  intros Hc. unfold get. destruct (i <? 0); [reflexivity|].
  destruct (nth_in_or_default (Z.to_nat i) c NaN) as [Hin | ->];
    [|reflexivity].
  rewrite Forall_forall in Hc. now apply Hc.
Qed.

(** The header with another byte rate differs in the bytes 28 to 31 only. *)
Lemma header_except_byte_rate (n sr br br' dl : Z) (tail : list Z) (k : nat) :
  (k < 28 \/ 32 <= k)%nat ->
  nth k (header n sr br dl ++ tail) 0 = nth k (header n sr br' dl ++ tail) 0.
Proof.
  intros Hk.
  assert (Hsplit : forall r,
             header n sr r dl ++ tail
             = firstn 28 (header n sr 0 dl)
               ++ le32 r ++ skipn 32 (header n sr 0 dl) ++ tail)
    by reflexivity.
  rewrite (Hsplit br), (Hsplit br').
  set (front := firstn 28 (header n sr 0 dl)).
  assert (Hf : length front = 28%nat) by reflexivity.
  destruct Hk as [Hk | Hk].
  - rewrite !app_nth1 by lia. reflexivity.
  - rewrite !(app_nth2 front) by lia.
    rewrite !(app_nth2 (le32 _)) by (cbn [le32 length]; lia).
    reflexivity.
Qed.

(** X16.  The preview encoder [audioBufferToBlob] of the waveform display
    and the export encoder [audioBufferToWav] produce files of the same
    length that agree on every byte except the byte rate field (bytes 28 to
    31), for a buffer whose samples are binary32 numbers: the preview writes
    [sampleRate * 4] there whatever the channel count, the export
    [sampleRate * channels * 2].  For two channels the two files are
    identical. *)
Theorem audioBufferToBlob_differs_in_byte_rate_only (b : AudioBuffer) :
  0 <= bufferLength b ->
  Forall (Forall (fun x => fround x = x)) (channels b) ->
  let blob := audioBufferToBlob b in
  let wav := audioBufferToWav b in
  length blob = length wav
  /\ (forall k, (k < 28 \/ 32 <= k)%nat -> nth k blob 0 = nth k wav 0)
  /\ readUint32 blob 28 = ToUint32 (sampleRate b * 4)%float
  /\ readUint32 wav 28
     = ToUint32 (sampleRate b * Number_ofZ (numberOfChannels b * 2))%float
  /\ (numberOfChannels b = 2 -> blob = wav).
Proof.
  intros Hlen Hfix. cbv zeta.
  rewrite audioBufferToBlob_layout by exact Hlen.
  rewrite audioBufferToWav_layout.
  assert (Hraw : flat_map (fun i => map (fun c => get c (Z.of_nat i))
                                        (channels b))
                          (seq 0 (Z.to_nat (bufferLength b)))
                 = interleaved b).
  { unfold interleaved, frame. apply flat_map_ext. intros i.
    apply map_ext_in. intros c Hc. symmetry. apply get_fround_fixed.
    rewrite Forall_forall in Hfix. now apply Hfix. }
  rewrite Hraw.
  assert (Hdl : bufferLength b * numberOfChannels b * 2
                = len (interleaved b) * 2).
  { rewrite interleaved_length. rewrite Z2Nat.id by exact Hlen. reflexivity. }
  rewrite Hdl.
  set (n := numberOfChannels b).
  set (sr := ToUint32 (sampleRate b)).
  set (dl := len (interleaved b) * 2).
  set (words := payload (interleaved b)).
  split; [now rewrite !length_app, !header_length|].
  split; [intros k Hk; now apply header_except_byte_rate|].
  split.
  { destruct (header_sizes n sr (ToUint32 (sampleRate b * 4)%float) dl words)
      as (_ & F28 & _).
    rewrite F28. apply le32_value, ToUint32_range. }
  split.
  { destruct (header_sizes n sr
                (ToUint32 (sampleRate b * Number_ofZ (n * 2))%float) dl words)
      as (_ & F28 & _).
    rewrite F28. apply le32_value, ToUint32_range. }
  intros Hn. rewrite Hn. reflexivity.
Qed.

(** On the stereo buffer the two encoders produce the same file. *)
Lemma audioBufferToBlob_differs_in_byte_rate_only_witness :
  audioBufferToBlob Examples.stereo = audioBufferToWav Examples.stereo.
Proof.
  assert (W1 : 0 <= bufferLength Examples.stereo)
    by (vm_compute; discriminate).
  assert (W2 : Forall (Forall (fun x => fround x = x))
                      (channels Examples.stereo))
    by (repeat constructor).
  pose proof (audioBufferToBlob_differs_in_byte_rate_only Examples.stereo
                W1 W2) as H.
  cbv zeta in H. destruct H as (_ & _ & _ & _ & H).
  apply H. reflexivity.
Defined.

(** The two encoders on one channel: the preview announces twice the byte
    rate of the export. *)
Example audioBufferToBlob_mono_byte_rate :
  readUint32 (audioBufferToBlob (Spec.mono Spec.fallingEdge)) 28 = 176400
  /\ readUint32 (audioBufferToWav (Spec.mono Spec.fallingEdge)) 28 = 88200.
Proof. split_all; vm_compute; reflexivity. Qed.

End EncoderExtras.

(* ================================================================== *)
(** * The export panel *)
(* ================================================================== *)

Module ExportExtras.
Import JS Types Crossfade ExportOptions.
Import Loops StoreProps CrossfadeClaims CrossfadeExtras EncoderExtras.

(** *** The name of the download *)

Lemma isExtension_dot (s t : string) :
  isExtension (s ++ String "."%char t) = false.
Proof.
  assert (H : forall u,
             forallb extensionChar
                     (list_ascii_of_string (u ++ String "."%char t)) = false).
  { induction u as [|c u IH]; cbn [append list_ascii_of_string forallb].
    - reflexivity.
    - rewrite IH. apply andb_false_r. }
  destruct s as [|c s]; [exact (H EmptyString) | exact (H (String c s))].
Qed.

(** X17.  The base name that [handleExport] derives from the file name,
    [fileName.replace(/\.[^/.]+$/, '')]: a name [stem.ext], where [ext] is
    not empty and has neither a dot nor a slash, loses its last dot and
    [ext], whatever the stem (dots and slashes in it included); a name
    without a dot is kept as it is. *)
Theorem removeExtension_strips_last_extension (stem ext : string) :
  (isExtension ext = true ->
   removeExtension (stem ++ String "."%char ext) = stem)
  /\ ((forall c, In c (list_ascii_of_string stem) -> c <> "."%char) ->
      removeExtension stem = stem).
Proof.
  split.
  - intros Hext. induction stem as [|c stem IH];
      cbn [append removeExtension].
    + rewrite Hext. reflexivity.
    + rewrite (isExtension_dot stem ext), andb_false_r. now rewrite IH.
  - induction stem as [|c stem IH]; intros Hdot; [reflexivity|].
    cbn [removeExtension].
    destruct (Ascii.eqb_spec c "."%char) as [-> | Hne].
    + exfalso. apply (Hdot "."%char); [left|]; reflexivity.
    + cbn [andb]. rewrite IH; [reflexivity|].
      intros c' Hc'. apply Hdot. right. exact Hc'.
Qed.

(** A name with dots and a slash in its stem, and a name without a dot. *)
Lemma removeExtension_strips_last_extension_witness :
  removeExtension ("take.2/rain.v1" ++ String "."%char "wav")
  = "take.2/rain.v1"%string
  /\ removeExtension "rain" = "rain"%string.
Proof.
  pose proof (removeExtension_strips_last_extension "take.2/rain.v1" "wav")
    as [H1 _].
  pose proof (removeExtension_strips_last_extension "rain" "wav") as [_ H2].
  split; [apply H1; reflexivity|].
  apply H2. intros c Hc. cbn in Hc.
  repeat (destruct Hc as [<- | Hc]; [discriminate|]). contradiction.
Defined.

(** *** The file that is downloaded *)

Lemma createExtendedLoop_result (b : AudioBuffer) (targetDuration : float)
      (s : state) :
  fst (createExtendedLoop b targetDuration s)
  = {| sampleRate := sampleRate b;
       bufferLength := floorZ (targetDuration * sampleRate b)%float;
       channelData := seq (length (heap s)) (Z.to_nat (numberOfChannels b)) |}.
Proof.
  unfold createExtendedLoop. cbv zeta. unfold bind at 1.
  rewrite createBuffer_run. unfold bind at 1.
  match goal with
  | |- fst (let (_, _) := ?run in _) = _ => destruct run as [u s2]
  end.
  reflexivity.
Qed.

(** [createExtendedLoop], run after other calls, still leaves the arrays of
    the first store as they are. *)
Lemma createExtendedLoop_keeps (h0 : list Float32Array) (b : AudioBuffer)
      (targetDuration : float) (s : state) :
  Forall (writesBeyond (length h0)) (trace s) ->
  (exists extra, heap s = h0 ++ extra) ->
  exists extra, heap (snd (createExtendedLoop b targetDuration s)) = h0 ++ extra.
Proof.
  intros Ht [extra He]. unfold createExtendedLoop. cbv zeta.
  unfold bind at 1. rewrite createBuffer_run.
  set (total := floorZ (targetDuration * sampleRate b)%float).
  set (z := repeat 0%float (Z.to_nat total)).
  set (count := Z.to_nat (numberOfChannels b)).
  set (s1 := {| heap := heap s ++ repeat z count; trace := trace s |}).
  set (L := lengths (heap s ++ repeat z count)).
  assert (G : good (writesBeyond (length h0)) L h0 s1).
  { split; [reflexivity|]. split; [exact Ht|].
    exists (extra ++ repeat z count). cbn [s1 heap].
    now rewrite He, app_assoc. }
  match goal with
  | |- context [bind ?m _ s1] =>
      assert (P : preserves (good (writesBeyond (length h0)) L h0) m)
  end.
  { apply good_forM. intros k [] Hk.
    apply good_forM. intros i [] Hi.
    apply good_bind.
    - unfold loadAtRemainder.
      destruct (bufferLength b =? 0);
        [apply good_ret | apply good_load; exact I].
    - intros x. apply good_store; [intros l j H; exact H|].
      rewrite fresh_channel by (unfold count; lia).
      cbn [writesBeyond]. rewrite He, length_app. lia. }
  specialize (P s1 G).
  unfold bind. destruct (forM _ _ _ _ s1) as [u s2].
  destruct P as (_ & _ & Hext). exact Hext.
Qed.

Lemma snapshot_channels (h : list Float32Array) (rate : float)
      (frames : Z) (first count : nat) :
  AudioProcessing.numberOfChannels
    (snapshot h {| sampleRate := rate; bufferLength := frames;
                   channelData := seq first count |})
  = Z.of_nat count.
Proof.
  unfold AudioProcessing.numberOfChannels, snapshot.
  cbn [AudioProcessing.channels channelData].
  now rewrite length_map, length_seq.
Qed.

(** The run of [handleExport]: the download and the store after it. *)
Lemma handleExport_run (Math_sin Math_cos : float -> float)
      (h : list Float32Array) (b : AudioBuffer) (lp : OptimizedLoopPoints)
      (name : string) (mode : ExportMode) (minutes : Z) :
  exists d s',
    handleExport Math_sin Math_cos b lp name mode minutes (init h) = (d, s')
    /\ fileName d
       = match mode with
         | single => (removeExtension name ++ "_loop.wav")%string
         | extended =>
             (removeExtension name ++ "_loop_" ++ decimal minutes
                              ++ "min.wav")%string
         end
    /\ Z.of_nat (length (bytes d))
       = 44 + 2 * (Z.max 0 match mode with
                           | single => endSample lp - startSample lp
                           | extended =>
                               floorZ (Number_ofZ (minutes * 60)
                                       * sampleRate b)%float
                           end
                   * numberOfChannels b)
    /\ exists extra, heap s' = h ++ extra.
Proof.
  unfold handleExport, createLoopableSegment. unfold bind at 1.
  pose proof (applyCrossfade_result Math_sin Math_cos b lp (init h)) as Hfst.
  destruct (applyCrossfade_good Math_sin Math_cos (writesBeyond (length h))
              h b lp) as (_ & Ht & Hext).
  { intros l i H. exact H. }
  { intros k Hk. unfold permitsChannel, writesBeyond. repeat split; lia. }
  destruct (applyCrossfade Math_sin Math_cos b lp (init h)) as [loopBuffer s1].
  cbn [fst snd init heap] in Hfst, Ht, Hext. subst loopBuffer.
  assert (Hn : Z.of_nat (Z.to_nat (numberOfChannels b)) = numberOfChannels b)
    by (unfold numberOfChannels; lia).
  destruct mode.
  - unfold exportAsWAV. eexists. eexists. split; [reflexivity|].
    cbn [fileName bytes].
    split; [reflexivity|]. split; [|exact Hext].
    rewrite audioBufferToWav_length, snapshot_channels, Hn. reflexivity.
  - cbv zeta. unfold bind at 1.
    set (seconds := Number_ofZ (minutes * 60)).
    set (loopBuffer := {| sampleRate := sampleRate b;
                          bufferLength := endSample lp - startSample lp;
                          channelData :=
                            seq (length h) (Z.to_nat (numberOfChannels b)) |})
      in *.
    pose proof (createExtendedLoop_result loopBuffer seconds s1) as Hfst.
    pose proof (createExtendedLoop_keeps h loopBuffer seconds s1 Ht Hext)
      as Hext2.
    destruct (createExtendedLoop loopBuffer seconds s1)
      as [extendedBuffer s2].
    cbn [fst snd] in Hfst, Hext2. subst extendedBuffer.
    unfold exportAsWAV. eexists. eexists. split; [reflexivity|].
    cbn [fileName bytes].
    split; [reflexivity|]. split; [|exact Hext2].
    rewrite audioBufferToWav_length, snapshot_channels.
    assert (Hc : numberOfChannels loopBuffer = numberOfChannels b).
    { unfold numberOfChannels at 1. cbn [loopBuffer channelData].
      now rewrite length_seq. }
    rewrite Hc, Hn.
    cbn [snapshot AudioProcessing.bufferLength bufferLength loopBuffer
         sampleRate].
    reflexivity.
Qed.


(** The names of the two downloads for [rain.wav] and ten minutes. *)
Example handleExport_names :
  (removeExtension "rain.wav" ++ "_loop.wav")%string = "rain_loop.wav"%string
  /\ (removeExtension "rain.wav" ++ "_loop_" ++ decimal 10 ++ "min.wav")%string
     = "rain_loop_10min.wav"%string.
Proof. split_all; vm_compute; reflexivity. Qed.

(** *** The accesses of an export *)

Lemma withinLengths_app (L more : list Z) (a : access) :
  withinLengths L a -> withinLengths (L ++ more) a.
Proof.
  destruct a as [l i | l i]; unfold withinLengths, lengthAt; intros H;
    (destruct (Nat.lt_ge_cases l (length L)) as [Hl | Hl];
     [now rewrite app_nth1 | rewrite nth_overflow in H by exact Hl; lia]).
Qed.

(** [applyCrossfade] keeps within the lengths of the arrays, and writes to
    its new arrays only, for loop points inside the input whose fade length
    does not exceed the loop length. *)
Lemma applyCrossfade_within (Math_sin Math_cos : float -> float)
      (h : list Float32Array) (b : AudioBuffer) (lp : OptimizedLoopPoints) :
  wellFormed h b ->
  0 <= startSample lp ->
  startSample lp < endSample lp ->
  endSample lp <= bufferLength b ->
  fadeLengthOf b lp <= endSample lp - startSample lp ->
  let L :=
    lengths (h ++ repeat (repeat 0%float
                                 (Z.to_nat (endSample lp - startSample lp)))
                         (Z.to_nat (numberOfChannels b))) in
  good (fun a => withinLengths L a /\ writesBeyond (length h) a) L h
       (snd (applyCrossfade Math_sin Math_cos b lp (init h))).
Proof.
  intros Hwf Hs0 Hse Heb Hfade. cbv zeta.
  set (loopLength := endSample lp - startSample lp) in *.
  set (z := repeat 0%float (Z.to_nat loopLength)).
  set (count := Z.to_nat (numberOfChannels b)).
  set (L := lengths (h ++ repeat z count)).
  apply (applyCrossfade_good Math_sin Math_cos
           (fun a => withinLengths L a /\ writesBeyond (length h) a) h b lp).
  - intros l i [_ H]. exact H.
  - intros k Hk. fold loopLength z count L.
    destruct (input_channel h b k Hwf Hk) as [Hin Hlen].
    assert (Li : lengthAt L (getChannelData b k) = bufferLength b).
    { unfold L. rewrite lengthAt_lengths, array_old by exact Hin.
      exact Hlen. }
    assert (Lo : lengthAt L (length h + Z.to_nat k)%nat = loopLength).
    { unfold L. rewrite lengthAt_lengths, array_fresh
        by (unfold count; lia).
      unfold z, len. rewrite repeat_length. lia. }
    assert (Hst : stitchLengthOf (fadeLengthOf b lp) loopLength
                  <= fadeLengthOf b lp)
      by (unfold stitchLengthOf; lia).
    unfold permitsChannel, withinLengths, writesBeyond.
    rewrite Li, Lo. fold loopLength.
    repeat split; lia.
Qed.

(** [createExtendedLoop], run after other calls that kept within the lengths
    of the arrays, keeps within them too. *)
Lemma createExtendedLoop_within_from (h0 : list Float32Array) (L0 : list Z)
      (b : AudioBuffer) (targetDuration : float) (s : state) :
  good (fun a => withinLengths L0 a /\ writesBeyond (length h0) a) L0 h0 s ->
  wellFormed (heap s) b ->
  0 < bufferLength b ->
  let total := floorZ (targetDuration * sampleRate b)%float in
  let L :=
    lengths (heap s ++ repeat (repeat 0%float (Z.to_nat total))
                              (Z.to_nat (numberOfChannels b))) in
  good (fun a => withinLengths L a /\ writesBeyond (length h0) a) L h0
       (snd (createExtendedLoop b targetDuration s)).
Proof.
  intros (HL0 & Ht0 & extra & He) Hwf Hpos. cbv zeta.
  unfold createExtendedLoop. cbv zeta.
  unfold bind at 1. rewrite createBuffer_run.
  set (total := floorZ (targetDuration * sampleRate b)%float).
  set (z := repeat 0%float (Z.to_nat total)).
  set (count := Z.to_nat (numberOfChannels b)).
  set (s1 := {| heap := heap s ++ repeat z count; trace := trace s |}).
  set (L := lengths (heap s ++ repeat z count)).
  set (perm := fun a => withinLengths L a /\ writesBeyond (length h0) a).
  assert (EL : L = L0 ++ lengths (repeat z count)).
  { unfold L, lengths. now rewrite map_app, <- HL0. }
  assert (G : good perm L h0 s1).
  { split; [reflexivity|]. split.
    - cbn [s1 trace]. eapply Forall_impl; [|exact Ht0].
      intros a [Ha Hb]. split; [|exact Hb].
      rewrite EL. now apply withinLengths_app.
    - exists (extra ++ repeat z count). cbn [s1 heap].
      now rewrite He, app_assoc. }
  match goal with
  | |- context [bind ?m _ s1] => assert (P : preserves (good perm L h0) m)
  end.
  { apply good_forM. intros k [] Hk.
    destruct (input_channel (heap s) b k Hwf Hk) as [Hin Hlen].
    assert (Li : lengthAt L (getChannelData b k) = bufferLength b).
    { unfold L. rewrite lengthAt_lengths, array_old by exact Hin.
      exact Hlen. }
    assert (Lo : forall i, 0 <= i < total ->
                           lengthAt L (length (heap s) + Z.to_nat k)%nat
                           = total).
    { intros i Hi. unfold L.
      rewrite lengthAt_lengths, array_fresh by (unfold count; lia).
      unfold z, len. rewrite repeat_length. lia. }
    apply good_forM. intros i [] Hi.
    apply good_bind.
    - unfold loadAtRemainder.
      destruct (bufferLength b =? 0); [apply good_ret|].
      apply good_load. split; [|exact I].
      unfold withinLengths. rewrite Li.
      apply Z.rem_bound_pos; lia.
    - intros x. apply good_store; [intros l j [_ H]; exact H|].
      rewrite fresh_channel by (unfold count; lia).
      split.
      + unfold withinLengths. rewrite (Lo i Hi). exact Hi.
      + cbn [writesBeyond]. rewrite He, length_app. lia. }
  specialize (P s1 G).
  unfold bind. destruct (forM _ _ _ _ s1) as [u s2]. exact P.
Qed.

(** The store after [handleExport] and the accesses made, for loop points
    inside the input whose fade length does not exceed the loop length. *)
Lemma handleExport_within (Math_sin Math_cos : float -> float)
      (h : list Float32Array) (b : AudioBuffer) (lp : OptimizedLoopPoints)
      (name : string) (mode : ExportMode) (minutes : Z) :
  wellFormed h b ->
  0 <= startSample lp ->
  startSample lp < endSample lp ->
  endSample lp <= bufferLength b ->
  fadeLengthOf b lp <= endSample lp - startSample lp ->
  exists L,
    good (fun a => withinLengths L a /\ writesBeyond (length h) a) L h
         (snd (handleExport Math_sin Math_cos b lp name mode minutes
                            (init h))).
Proof.
  intros Hwf Hs0 Hse Heb Hfade.
  unfold handleExport, createLoopableSegment. unfold bind at 1.
  pose proof (applyCrossfade_result Math_sin Math_cos b lp (init h)) as Hfst.
  pose proof (applyCrossfade_wellFormed Math_sin Math_cos h b lp ltac:(lia))
    as Hwf1.
  pose proof (applyCrossfade_within Math_sin Math_cos h b lp Hwf Hs0 Hse Heb
                Hfade) as G1.
  cbv zeta in G1.
  destruct (applyCrossfade Math_sin Math_cos b lp (init h)) as [loopBuffer s1].
  cbn [fst snd] in Hfst, Hwf1, G1.
  destruct mode.
  - unfold exportAsWAV. cbn [snd]. eexists. exact G1.
  - cbv zeta. unfold bind at 1.
    set (seconds := Number_ofZ (minutes * 60)).
    assert (Hpos : 0 < bufferLength loopBuffer).
    { rewrite Hfst. cbn [bufferLength]. lia. }
    pose proof (createExtendedLoop_within_from h _ loopBuffer seconds s1 G1
                  Hwf1 Hpos) as G2.
    cbv zeta in G2.
    destruct (createExtendedLoop loopBuffer seconds s1)
      as [extendedBuffer s2].
    unfold exportAsWAV. cbn [snd] in *. eexists. exact G2.
Qed.

(** X21.  For a well-formed input buffer and loop points with
    [0 <= startSample < endSample <= inputLength] whose fade length does not
    exceed the loop length, every element access that [handleExport] makes,
    in the crossfade and in the extension of the loop, is within the bounds
    of the array it touches, in single and in extended mode, for every
    number of minutes. *)
Theorem handleExport_accesses_in_bounds (Math_sin Math_cos : float -> float)
        (h : list Float32Array) (b : AudioBuffer) (lp : OptimizedLoopPoints)
        (name : string) (mode : ExportMode) (minutes : Z) :
  wellFormed h b ->
  0 <= startSample lp ->
  startSample lp < endSample lp ->
  endSample lp <= bufferLength b ->
  fadeLengthOf b lp <= endSample lp - startSample lp ->
  let s' :=
    snd (handleExport Math_sin Math_cos b lp name mode minutes (init h)) in
  Forall (inBounds (heap s')) (trace s').
Proof.
  intros Hwf Hs0 Hse Heb Hfade. cbv zeta.
  destruct (handleExport_within Math_sin Math_cos h b lp name mode minutes
              Hwf Hs0 Hse Heb Hfade) as (L & HL & Ht & _).
  eapply Forall_impl; [|exact Ht].
  intros a [Ha _]. unfold inBounds. unfold withinLengths in Ha.
  rewrite <- HL in Ha.
  destruct a; rewrite lengthAt_lengths in Ha; exact Ha.
Qed.

(** The extended export of the five-sample loop of [buffer1] with a 2 ms
    crossfade, for one minute. *)
Lemma handleExport_accesses_in_bounds_witness :
  Forall (inBounds
            (heap (snd (handleExport Examples.hostSin Examples.hostCos
                          Examples.buffer1 (Examples.loop5 0.002) "rain.wav"
                          extended 1 (init Examples.store1)))))
         (trace (snd (handleExport Examples.hostSin Examples.hostCos
                        Examples.buffer1 (Examples.loop5 0.002) "rain.wav"
                        extended 1 (init Examples.store1)))).
Proof.
  assert (W1 : wellFormed Examples.store1 Examples.buffer1)
    by (repeat constructor).
  assert (W2 : 0 <= startSample (Examples.loop5 0.002))
    by (vm_compute; discriminate).
  assert (W3 : startSample (Examples.loop5 0.002)
               < endSample (Examples.loop5 0.002)) by reflexivity.
  assert (W4 : endSample (Examples.loop5 0.002)
               <= bufferLength Examples.buffer1)
    by (vm_compute; discriminate).
  assert (W5 : fadeLengthOf Examples.buffer1 (Examples.loop5 0.002)
               <= endSample (Examples.loop5 0.002)
                  - startSample (Examples.loop5 0.002))
    by (vm_compute; discriminate).
  exact (handleExport_accesses_in_bounds Examples.hostSin Examples.hostCos
           Examples.store1 Examples.buffer1 (Examples.loop5 0.002)
           "rain.wav" extended 1 W1 W2 W3 W4 W5).
Defined.

End ExportExtras.
